(** * Time-range cache and query federation of the Frigate camera engine

    A shallow embedding of [camera-manager/range.ts] (range algebra and
    coverage sets), [camera-manager/frigate/requests.ts] (backend requests)
    and [camera-manager/frigate/engine-frigate.ts] (the federation engine),
    with the properties of the engine's specification stated over it.

    Conventions.  A JavaScript [Date] is the integer number of milliseconds
    since the epoch ([getTime()]); a [number] that holds a time in seconds or
    a count is an integer too.  A JavaScript [Set] that the code iterates is
    a duplicate-free list in insertion order; a [Set] that is only tested for
    membership or size is a [gset].  A [Map] keyed by query objects is an
    association list in insertion order.  A string is the sequence of the
    bytes of its UTF-8 encoding. *)

From Stdlib Require Import ZArith QArith Lia.
From stdpp Require Import base option list strings gmap pretty sorting.

Local Open Scope Z_scope.

(** ** Utilities shared by the source files *)

Module Lodash.

(** [orderBy(xs, key, 'asc')]: a stable sort on an integer key. *)
Fixpoint insert_asc {A} (key : A -> Z) (x : A) (l : list A) : list A :=
  match l with
  | [] => [x]
  | y :: l' => if key x <=? key y then x :: l else y :: insert_asc key x l'
  end.

Definition orderBy_asc {A} (key : A -> Z) (l : list A) : list A :=
  foldr (insert_asc key) [] l.

(** [orderBy(xs, key, 'desc')]: stable as well, elements with equal keys
    keep their relative order. *)
Fixpoint insert_desc {A} (key : A -> Z) (x : A) (l : list A) : list A :=
  match l with
  | [] => [x]
  | y :: l' => if key y <=? key x then x :: l else y :: insert_desc key x l'
  end.

Definition orderBy_desc {A} (key : A -> Z) (l : list A) : list A :=
  foldr (insert_desc key) [] l.

(** The orders of the two sorts on [key]. *)
Definition ascending {A} (key : A -> Z) (a b : A) : Prop := key a <= key b.
Definition descending {A} (key : A -> Z) (a b : A) : Prop := key b <= key a.

End Lodash.

(** ** range.ts *)

Module Range.

Record Range := mkRange { start : Z; end_ : Z }.

#[global] Instance Range_eq_dec : EqDecision Range.
Proof. solve_decision. Defined.

Definition rangeIsEntirelyContained (bigger smaller : Range) : bool :=
  (start bigger <=? start smaller) && (end_ smaller <=? end_ bigger).

Definition rangesOverlap (a b : Range) : bool :=
  ((start b <=? start a) && (start a <=? end_ b))
  || ((start b <=? end_ a) && (end_ a <=? end_ b))
  || ((start a <=? start b) && (end_ b <=? end_ a)).

(** The loop of [compressRanges]: [current] is the accumulator (null before
    the first range), [compressedRanges] the output array, extended at its
    end by [push].  Bounds and tolerance are integers, and the sum
    [end + toleranceSeconds * 1000] is the sum of integers: this is the sum
    the code forms as long as it stays within the integers a number holds
    exactly (magnitude at most 2^53), which it does for every tolerance of 0
    and for instants of [Date] with any tolerance below 3.6e11 seconds;
    beyond, the code rounds the sum and the loop below does not. *)
Fixpoint compress_loop (toleranceSeconds : Z) (ranges : list Range)
    (current : option Range) (compressedRanges : list Range) : list Range :=
  match ranges with
  | [] =>
      match current with
      | Some c => compressedRanges ++ [c]
      | None => compressedRanges
      end
  | range :: rest =>
      match current with
      | None => compress_loop toleranceSeconds rest (Some range) compressedRanges
      | Some c =>
          if start range <=? end_ c + toleranceSeconds * 1000 then
            let c' := if end_ c <? end_ range
                      then {| start := start c; end_ := end_ range |}
                      else c in
            compress_loop toleranceSeconds rest (Some c') compressedRanges
          else
            compress_loop toleranceSeconds rest (Some range) (compressedRanges ++ [c])
      end
  end.

Definition compressRanges (ranges : list Range) (toleranceSeconds : Z) : list Range :=
  compress_loop toleranceSeconds (Lodash.orderBy_asc start ranges) None [].

(** [MemoryRangeSet]: the state is the array [_ranges]. *)
Definition MemoryRangeSet := list Range.

Definition hasCoverage (ranges : MemoryRangeSet) (range : Range) : bool :=
  existsb (fun cachedRange => rangeIsEntirelyContained cachedRange range) ranges.

Definition add (ranges : MemoryRangeSet) (range : Range) : MemoryRangeSet :=
  compressRanges (ranges ++ [range]) 0.

Definition clear (_ : MemoryRangeSet) : MemoryRangeSet := [].

(** *** Notions the properties are stated with *)

Definition valid (r : Range) : Prop := start r <= end_ r.

(** The instant [p] lies in [r]. *)
Definition covers (r : Range) (p : Z) : Prop := start r <= p <= end_ r.

(** The instant [p] lies in the union of [rs]. *)
Definition covered (rs : list Range) (p : Z) : Prop := Exists (fun r => covers r p) rs.

(** Consecutive ranges are in ascending order and more than the tolerance
    apart. *)
Definition apart (toleranceSeconds : Z) (a b : Range) : Prop :=
  end_ a + toleranceSeconds * 1000 < start b.

(** Any two ranges at different positions of [rs] do not overlap, in either
    order of the arguments of [rangesOverlap], and have no instant in
    common. *)
Definition pairwise_disjoint (rs : list Range) : Prop :=
  forall i j a b, (i < j)%nat -> rs !! i = Some a -> rs !! j = Some b ->
    rangesOverlap a b = false /\ rangesOverlap b a = false /\
    (forall p, ~ (covers a p /\ covers b p)).

(** The recursive reading of the loop once [current] is set: the output
    starts with the range [c] grows into. *)
Fixpoint merge (toleranceSeconds : Z) (c : Range) (ranges : list Range) : list Range :=
  match ranges with
  | [] => [c]
  | range :: rest =>
      if start range <=? end_ c + toleranceSeconds * 1000 then
        merge toleranceSeconds
          (if end_ c <? end_ range
           then {| start := start c; end_ := end_ range |} else c) rest
      else c :: merge toleranceSeconds range rest
  end.

End Range.

(** ** Dates

    [Date] values are milliseconds since the epoch.  The local-time accessors
    of [Date] and of date-fns depend on the host's time zone, which is the
    offset [utcOffset] (milliseconds east of UTC) here; a change of the
    offset over the year is not modelled. *)

Module DateFns.

Definition Date := Z.

Definition MS_PER_SECOND : Z := 1000.
Definition MS_PER_HOUR : Z := 3600000.
Definition MS_PER_DAY : Z := 86400000.

(** [fromUnixTime(seconds)] *)
Definition fromUnixTime (unixTime : Z) : Date := unixTime * MS_PER_SECOND.

(** [add(date, { hours })] and [add(date, { seconds })] *)
Definition add_hours (date : Date) (hours : Z) : Date := date + hours * MS_PER_HOUR.
Definition add_seconds (date : Date) (seconds : Z) : Date := date + seconds * MS_PER_SECOND.

(** Day of the month of the civil date that lies [days] days after
    1970-01-01 in the proleptic Gregorian calendar. *)
Definition day_of_month (days : Z) : Z :=
  let z := days + 719468 in
  let era := z / 146097 in
  let doe := z - era * 146097 in
  let yoe := (doe - doe / 1460 + doe / 36524 - doe / 146096) / 365 in
  let doy := doe - (365 * yoe + yoe / 4 - yoe / 100) in
  let mp := (5 * doy + 2) / 153 in
  doy - (153 * mp + 2) / 5 + 1.

Section Local.
Variable utcOffset : Z.

(** [date.getHours()] and [date.getDate()] *)
Definition getHours (date : Date) : Z := ((date + utcOffset) / MS_PER_HOUR) mod 24.
Definition getDate (date : Date) : Z := day_of_month ((date + utcOffset) / MS_PER_DAY).

(** [startOfHour(date)] and [endOfHour(date)]: minutes, seconds and
    milliseconds of the local time set to 0, or to 59:59.999. *)
Definition startOfHour (date : Date) : Date := date - (date + utcOffset) mod MS_PER_HOUR.
Definition endOfHour (date : Date) : Date := startOfHour date + (MS_PER_HOUR - 1).
End Local.

End DateFns.

(** ** JavaScript containers *)

Module JS.

(** A [Set] the code iterates: a list without duplicates, in insertion
    order. *)
Definition Set_add (s : list string) (x : string) : list string :=
  if bool_decide (x ∈ s) then s else s ++ [x].

Definition Set_of (xs : list string) : list string := foldl Set_add [] xs.

Definition Set_has (s : list string) (x : string) : bool := bool_decide (x ∈ s).

(** Equality of two sets by content, as a deep comparison sees it. *)
Definition Set_isEqual (s1 s2 : list string) : bool :=
  forallb (Set_has s2) s1 && forallb (Set_has s1) s2.

(** A string is truthy unless it is empty. *)
Definition truthy (s : string) : bool := negb (String.eqb s "").

Section Map.
Context {K V : Type} `{EqDecision K}.

(** A [Map] in insertion order.  Within one call of the engine two keys
    are the same object exactly when they are equal records: a key is
    either the caller's query or a copy of it restricted to a group of
    cameras, and the groups are disjoint and not empty. *)
Definition Map := list (K * V).

Fixpoint Map_set (m : Map) (k : K) (v : V) : Map :=
  match m with
  | [] => [(k, v)]
  | (k', v') :: m' =>
      if decide (k = k') then (k, v) :: m' else (k', v') :: Map_set m' k v
  end.

Definition Map_get (m : Map) (k : K) : option V :=
  snd <$> List.find (fun kv => bool_decide (k = fst kv)) m.

Definition Map_has (m : Map) (k : K) : bool :=
  match Map_get m k with Some _ => true | None => false end.

Definition Map_keys (m : Map) : list K := fst <$> m.
Definition Map_values (m : Map) : list V := snd <$> m.
Definition Map_size (m : Map) : nat := length m.

(** [output.size ? output : null] *)
Definition nonEmptyOrNull (m : Map) : option Map :=
  match m with [] => None | _ => Some m end.
End Map.

Arguments Map : clear implicits.

(** [array.slice(0, n)]: a negative [n] counts from the end of the array. *)
Definition slice0 {A} (l : list A) (n : Z) : list A :=
  if n <? 0 then take (Z.to_nat (Z.of_nat (length l) + n)) l else take (Z.to_nat n) l.

(** Strings.  A string is modelled by the bytes of its UTF-8 encoding.  The
    white space that [trim] removes is the WhiteSpace and the LineTerminator
    of ECMAScript: U+0009 to U+000D, U+0020, U+00A0, U+1680, U+2000 to
    U+200A, U+2028, U+2029, U+202F, U+205F, U+3000 and U+FEFF.  Encoded,
    these are the byte 09 to 0D or 20, *)
Definition isWhitespace (c : Ascii.ascii) : bool :=
  let n := Ascii.nat_of_ascii c in
  ((9 <=? n) && (n <=? 13))%nat || (n =? 32)%nat.

(** the two bytes C2 A0, *)
Definition isWhitespace2 (c1 c2 : Ascii.ascii) : bool :=
  ((Ascii.nat_of_ascii c1 =? 194) && (Ascii.nat_of_ascii c2 =? 160))%nat.

(** and the three bytes E1 9A 80, E2 80 80 to E2 80 8A, E2 80 A8, E2 80 A9,
    E2 80 AF, E2 81 9F, E3 80 80 and EF BB BF. *)
Definition isWhitespace3 (c1 c2 c3 : Ascii.ascii) : bool :=
  let n1 := Ascii.nat_of_ascii c1 in
  let n2 := Ascii.nat_of_ascii c2 in
  let n3 := Ascii.nat_of_ascii c3 in
  (((n1 =? 225) && (n2 =? 154) && (n3 =? 128))
   || ((n1 =? 226) && (n2 =? 128)
       && (((128 <=? n3) && (n3 <=? 138)) || (n3 =? 168) || (n3 =? 169) || (n3 =? 175)))
   || ((n1 =? 226) && (n2 =? 129) && (n3 =? 159))
   || ((n1 =? 227) && (n2 =? 128) && (n3 =? 128))
   || ((n1 =? 239) && (n2 =? 187) && (n3 =? 191)))%nat.

(** The bytes that are left when the white space at the start of [bytes] is
    removed.  With [backwards], [bytes] are the bytes of a string from its
    end to its start, so that the bytes of a character come last byte
    first. *)
Fixpoint dropWhitespace (backwards : bool) (bytes : list Ascii.ascii) : list Ascii.ascii :=
  match bytes with
  | c1 :: bytes1 =>
      if isWhitespace c1 then dropWhitespace backwards bytes1
      else
        match bytes1 with
        | c2 :: bytes2 =>
            if (if backwards then isWhitespace2 c2 c1 else isWhitespace2 c1 c2)
            then dropWhitespace backwards bytes2
            else
              match bytes2 with
              | c3 :: bytes3 =>
                  if (if backwards then isWhitespace3 c3 c2 c1 else isWhitespace3 c1 c2 c3)
                  then dropWhitespace backwards bytes3
                  else bytes
              | [] => bytes
              end
        | [] => bytes
        end
  | [] => []
  end.

Definition trimStart (s : string) : string :=
  String.string_of_list_ascii (dropWhitespace false (String.list_ascii_of_string s)).

Definition trimEnd (s : string) : string :=
  String.string_of_list_ascii
    (reverse (dropWhitespace true (reverse (String.list_ascii_of_string s)))).

(** [s.trim()] *)
Definition trim (s : string) : string := trimEnd (trimStart s).

(** [s.split(',')] *)
Fixpoint split_comma (s : string) : list string :=
  match s with
  | EmptyString => [EmptyString]
  | String c s' =>
      if Ascii.eqb c (Ascii.ascii_of_nat 44) then EmptyString :: split_comma s'
      else match split_comma s' with
           | [] => [String c EmptyString]
           | w :: ws => String c w :: ws
           end
  end.

End JS.

(** ** Data of the camera manager (types.ts, frigate/types.ts, config)

    The declarations are taken from the way the engine uses the values. *)

Module Types.
Export DateFns.

Inductive Engine := Frigate | Generic | MotionEye.

#[global] Instance Engine_eq_dec : EqDecision Engine.
Proof. solve_decision. Defined.

(** The part of a camera configuration the engine reads:
    [cameraConfig.frigate.client_id] and [cameraConfig.frigate.camera_name]. *)
Record CameraConfig := {
  client_id : string;
  camera_name : option string;
}.

(** Modelled from the spec: the camera configuration store
    ([getCameraConfig(id) -> config | null], [getCameraConfigEntries() ->
    iterable of (id, config)]), as the entries in iteration order. *)
Definition CameraManagerReadOnlyConfigStore := list (string * CameraConfig).

Definition getCameraConfigEntries (store : CameraManagerReadOnlyConfigStore)
  : list (string * CameraConfig) := store.

Definition getCameraConfig (store : CameraManagerReadOnlyConfigStore) (cameraID : string)
  : option CameraConfig :=
  snd <$> List.find (fun entry => bool_decide (fst entry = cameraID)) store.

(** Queries.  The field [type] of a query is the constructor of [DataQuery]
    that carries it. *)
Record EventQuery := {
  event_cameraIDs : list string;
  event_start : option Date;
  event_end : option Date;
  what : option (list string);
  where_ : option (list string);
  tags : option (list string);
  event_limit : option Z;
  hasClip : option bool;
  hasSnapshot : option bool;
  favorite : option bool;
}.

Record RecordingQuery := {
  recording_cameraIDs : list string;
  recording_start : option Date;
  recording_end : option Date;
  recording_limit : option Z;
}.

Record RecordingSegmentsQuery := {
  segments_cameraIDs : list string;
  segments_start : Date;
  segments_end : Date;
}.

Record MediaMetadataQuery := {
  metadata_cameraIDs : list string;
}.

Inductive DataQuery :=
| QEvent (query : EventQuery)
| QRecording (query : RecordingQuery)
| QRecordingSegments (query : RecordingSegmentsQuery)
| QMediaMetadata (query : MediaMetadataQuery).

#[global] Instance EventQuery_eq_dec : EqDecision EventQuery.
Proof. solve_decision. Defined.
#[global] Instance RecordingQuery_eq_dec : EqDecision RecordingQuery.
Proof. solve_decision. Defined.
#[global] Instance RecordingSegmentsQuery_eq_dec : EqDecision RecordingSegmentsQuery.
Proof. solve_decision. Defined.
#[global] Instance MediaMetadataQuery_eq_dec : EqDecision MediaMetadataQuery.
Proof. solve_decision. Defined.

(** [{ ...query, cameraIDs: cameraIDs }] *)
Definition event_with_cameraIDs (query : EventQuery) (cameraIDs : list string) : EventQuery :=
  {| event_cameraIDs := cameraIDs;
     event_start := event_start query; event_end := event_end query;
     what := what query; where_ := where_ query; tags := tags query;
     event_limit := event_limit query; hasClip := hasClip query;
     hasSnapshot := hasSnapshot query; favorite := favorite query |}.

Definition recording_with_cameraIDs (query : RecordingQuery) (cameraIDs : list string)
  : RecordingQuery :=
  {| recording_cameraIDs := cameraIDs;
     recording_start := recording_start query; recording_end := recording_end query;
     recording_limit := recording_limit query |}.

Definition segments_with_cameraIDs (query : RecordingSegmentsQuery) (cameraIDs : list string)
  : RecordingSegmentsQuery :=
  {| segments_cameraIDs := cameraIDs;
     segments_start := segments_start query; segments_end := segments_end query |}.

(** Backend payloads. *)
Record FrigateEvent := {
  event_id : string;
  event_camera : string;
  has_clip : bool;
  has_snapshot : bool;
  sub_label : option string;
}.

Record RecordingSegment := {
  segment_id : string;
  start_time : Z;
  end_time : Z;
}.

Record RecordingSummaryHour := { hour : Z; hour_events : Z }.
Record RecordingSummaryDay := { day : Date; hours : list RecordingSummaryHour }.
Definition RecordingSummary := list RecordingSummaryDay.

Record EventSummaryEntry := {
  summary_camera : string;
  summary_day : string;
  summary_label : string;
  summary_sub_label : option string;
  summary_zones : list string;
}.
Definition EventSummary := list EventSummaryEntry.

Record RetainResult := { success : bool; retain_message : string }.

Record FrigateRecording := {
  cameraID : string;
  startTime : Date;
  endTime : Date;
  events : Z;
}.

Record MediaMetadata := {
  metadata_what : option (gset string);
  metadata_where : option (gset string);
  metadata_days : option (gset string);
  metadata_tags : option (gset string);
}.

(** Results.  [type] is the constructor; the result of a recording segments
    query has no expiry. *)
Record RecordingSegmentsQueryResults := {
  segments_engine : Engine;
  segments_instanceID : string;
  segments : list RecordingSegment;
  segments_cached : bool;
}.

Inductive QueryResults :=
| EventQueryResults (engine : Engine) (instanceID : string)
    (events : list FrigateEvent) (expiry : Date) (cached : bool)
| RecordingQueryResults (engine : Engine) (instanceID : string)
    (recordings : list FrigateRecording) (expiry : Date) (cached : bool)
| RecordingSegmentsResults (results : RecordingSegmentsQueryResults)
| MediaMetadataQueryResults (engine : Engine) (metadata : MediaMetadata)
    (expiry : Date) (cached : bool).

(** [{ ...result, cached: true }] *)
Definition with_cached_true (result : QueryResults) : QueryResults :=
  match result with
  | EventQueryResults e i evs x _ => EventQueryResults e i evs x true
  | RecordingQueryResults e i rs x _ => RecordingQueryResults e i rs x true
  | RecordingSegmentsResults r =>
      RecordingSegmentsResults
        {| segments_engine := segments_engine r; segments_instanceID := segments_instanceID r;
           segments := segments r; segments_cached := true |}
  | MediaMetadataQueryResults e m x _ => MediaMetadataQueryResults e m x true
  end.

Definition EventQueryResultsMap := JS.Map EventQuery QueryResults.
Definition RecordingQueryResultsMap := JS.Map RecordingQuery QueryResults.
Definition RecordingSegmentsQueryResultsMap :=
  JS.Map RecordingSegmentsQuery RecordingSegmentsQueryResults.
Definition MediaMetadataQueryResultsMap := JS.Map MediaMetadataQuery QueryResults.

Record EngineOptions := { useCache : option bool }.

(** [engineOptions?.useCache ?? true] *)
Definition useCacheOrDefault (engineOptions : option EngineOptions) : bool :=
  match engineOptions with
  | Some o => default true (useCache o)
  | None => true
  end.

Inductive MediaType := clip | snapshot | recording.

(** Modelled from the spec: the view-level media object (media-object
    construction and classification are collaborators), with what the
    engine reads and writes: identity, camera, bounds, the favorite flag and
    whether the object is a Frigate event. *)
Record ViewMedia := {
  media_type : MediaType;
  media_cameraID : string;
  media_id : string;
  media_startTime : option Date;
  media_endTime : option Date;
  media_favorite : option bool;
  media_isFrigateEvent : bool;
}.

Definition getID (media : ViewMedia) : string := media_id media.
Definition getCameraID (media : ViewMedia) : string := media_cameraID media.
Definition getStartTime (media : ViewMedia) : option Date := media_startTime media.
Definition getEndTime (media : ViewMedia) : option Date := media_endTime media.
Definition isFavorite (media : ViewMedia) : option bool := media_favorite media.

Definition setFavorite (media : ViewMedia) (favorite : bool) : ViewMedia :=
  {| media_type := media_type media; media_cameraID := media_cameraID media;
     media_id := media_id media; media_startTime := media_startTime media;
     media_endTime := media_endTime media; media_favorite := Some favorite;
     media_isFrigateEvent := media_isFrigateEvent media |}.

(** [FrigateViewMediaClassifier.isFrigateEvent(media)] *)
Definition isFrigateEvent (media : ViewMedia) : bool := media_isFrigateEvent media.

(** What the engine takes from modules outside the core: [isBirdseye] of
    frigate/camera.ts, the default event limit of engine.ts, the host's
    offset from UTC, [formatDate] of utils/basic.ts, the event media factory
    of frigate/media.ts and [localize]. *)
Class Externals := {
  isBirdseye : CameraConfig -> bool;
  CAMERA_MANAGER_ENGINE_EVENT_LIMIT_DEFAULT : Z;
  utcOffset : Z;
  formatDate : Date -> string;
  createEventViewMedia :
    MediaType -> string -> CameraConfig -> FrigateEvent -> option (list string) ->
    option ViewMedia;
  localize : string -> string;
}.

End Types.

(** ** The caches of cache.ts *)

Module Cache.
Import Types.

Definition option_Set_isEqual (a b : option (list string)) : bool :=
  match a, b with
  | Some x, Some y => JS.Set_isEqual x y
  | None, None => true
  | _, _ => false
  end.

(** Equality of two queries by content: sets are compared without regard
    to insertion order, all other fields by value. *)
Definition isEqual (a b : DataQuery) : bool :=
  match a, b with
  | QEvent x, QEvent y =>
      JS.Set_isEqual (event_cameraIDs x) (event_cameraIDs y)
      && bool_decide (event_start x = event_start y)
      && bool_decide (event_end x = event_end y)
      && option_Set_isEqual (what x) (what y)
      && option_Set_isEqual (where_ x) (where_ y)
      && option_Set_isEqual (tags x) (tags y)
      && bool_decide (event_limit x = event_limit y)
      && bool_decide (hasClip x = hasClip y)
      && bool_decide (hasSnapshot x = hasSnapshot y)
      && bool_decide (favorite x = favorite y)
  | QRecording x, QRecording y =>
      JS.Set_isEqual (recording_cameraIDs x) (recording_cameraIDs y)
      && bool_decide (recording_start x = recording_start y)
      && bool_decide (recording_end x = recording_end y)
      && bool_decide (recording_limit x = recording_limit y)
  | QRecordingSegments x, QRecordingSegments y =>
      JS.Set_isEqual (segments_cameraIDs x) (segments_cameraIDs y)
      && bool_decide (segments_start x = segments_start y)
      && bool_decide (segments_end x = segments_end y)
  | QMediaMetadata x, QMediaMetadata y =>
      JS.Set_isEqual (metadata_cameraIDs x) (metadata_cameraIDs y)
  | _, _ => false
  end.

(** Modelled from the spec: the Keyed Result Cache ([RequestCache], absent
    from the sources): [get(key) -> value | null], [has(key) -> bool],
    [set(key, value, expiry) -> void], keyed by content equality of the
    query, each entry void once the current time has passed its expiry. *)
Record RequestCacheEntry := {
  entry_request : DataQuery;
  entry_response : QueryResults;
  entry_expires : Date;
}.

Definition RequestCache := list RequestCacheEntry.

Definition entry_matches (now : Date) (request : DataQuery) (entry : RequestCacheEntry) : bool :=
  isEqual (entry_request entry) request && (now <=? entry_expires entry).

Definition RequestCache_get (cache : RequestCache) (now : Date) (request : DataQuery)
  : option QueryResults :=
  entry_response <$> List.find (entry_matches now request) cache.

Definition RequestCache_has (cache : RequestCache) (now : Date) (request : DataQuery) : bool :=
  match RequestCache_get cache now request with Some _ => true | None => false end.

Definition RequestCache_set (cache : RequestCache) (request : DataQuery)
    (response : QueryResults) (expiry : Date) : RequestCache :=
  List.filter (fun entry => negb (isEqual (entry_request entry) request)) cache
  ++ [{| entry_request := request; entry_response := response; entry_expires := expiry |}].

(** Modelled from the spec: the Segment Cache ([RecordingSegmentsCache],
    absent from the sources).  [get] returns the cached segments of the
    camera if its coverage set reports the range covered, otherwise null;
    [add] stores the segments and records the range as covered;
    [getCameraIDs] enumerates the cameras with cached data; [expireMatches]
    removes the segments of the camera that satisfy the predicate and leaves
    the coverage record as it is. *)
Record RecordingSegmentsCache := {
  cache_segments : gmap string (list RecordingSegment);
  cache_ranges : gmap string Range.MemoryRangeSet;
}.

Definition segmentsOf (cache : RecordingSegmentsCache) (cameraID : string)
  : list RecordingSegment :=
  default [] (cache_segments cache !! cameraID).

Definition RecordingSegmentsCache_get (cache : RecordingSegmentsCache) (cameraID : string)
    (range : Range.Range) : option (list RecordingSegment) :=
  match cache_ranges cache !! cameraID with
  | Some ranges =>
      if Range.hasCoverage ranges range then Some (segmentsOf cache cameraID) else None
  | None => None
  end.

Definition RecordingSegmentsCache_add (cache : RecordingSegmentsCache) (cameraID : string)
    (range : Range.Range) (segments : list RecordingSegment) : RecordingSegmentsCache :=
  {| cache_segments := <[cameraID := segmentsOf cache cameraID ++ segments]> (cache_segments cache);
     cache_ranges :=
       <[cameraID := Range.add (default [] (cache_ranges cache !! cameraID)) range]>
         (cache_ranges cache) |}.

Definition getCameraIDs (cache : RecordingSegmentsCache) : list string :=
  elements (dom (cache_segments cache)).

Definition expireMatches (cache : RecordingSegmentsCache) (cameraID : string)
    (predicate : RecordingSegment -> bool) : RecordingSegmentsCache :=
  {| cache_segments :=
       alter (List.filter (fun segment => negb (predicate segment))) cameraID
         (cache_segments cache);
     cache_ranges := cache_ranges cache |}.

End Cache.

(** ** Requests to the backend and the effects of an engine call *)

Module Async.
Import Types Cache.

Record NativeFrigateRecordingSegmentsQuery := {
  segments_instance_id : string;
  camera : string;
  after : Z;
  before : Z;
}.

Record NativeFrigateEventQuery := {
  instance_id : option string;
  cameras : option (list string);
  labels : option (list string);
  zones : option (list string);
  sub_labels : option (list string);
  event_after : option Z;
  event_before : option Z;
  limit : option Z;
  native_has_clip : option bool;
  native_has_snapshot : option bool;
  favorites : option bool;
}.

(** The messages of requests.ts; the constructor is the message [type]. *)
Inductive WSRequest :=
| recordings_summary (instance_id camera timezone : string)
| recordings_get (params : NativeFrigateRecordingSegmentsQuery)
| event_retain (instance_id event_id : string) (retain : bool)
| events_get (params : NativeFrigateEventQuery)
| events_summary (instance_id timezone : string).

Inductive WSResponse :=
| RecordingSummaryPayload (summary : RecordingSummary)
| RecordingSegmentsPayload (segments : list RecordingSegment)
| RetainResultPayload (result : RetainResult)
| FrigateEventsPayload (events : list FrigateEvent)
| EventSummaryPayload (summary : EventSummary).

(** The Home Assistant connection: the configured time zone and the answer
    of the backend to a message, if any. *)
Record HomeAssistant := {
  time_zone : string;
  callWS : WSRequest -> option WSResponse;
}.

Inductive Error :=
| HomeAssistantError (request : WSRequest)
| FrigateCardError (message : string) (request : WSRequest) (response : RetainResult)
| TypeError.

(** What a call of the engine reads and changes: its two caches, the clock,
    and the messages sent to the backend so far (oldest first).  The clock
    stands still during a call: every [new Date()] of the call reads [now],
    also after the answer of the backend has been awaited.  An instant of
    expiry here is thus the one of the code less the time the answers
    took. *)
Record State := {
  _requestCache : RequestCache;
  _recordingSegmentsCache : RecordingSegmentsCache;
  now : Date;
  sent : list WSRequest;
}.

Inductive Outcome (A : Type) :=
| Returned (a : A)
| Thrown (e : Error).
Arguments Returned {A} a.
Arguments Thrown {A} e.

Definition Async (A : Type) : Type := State -> Outcome A * State.

Definition ret {A} (a : A) : Async A := fun s => (Returned a, s).

Definition throw {A} (e : Error) : Async A := fun s => (Thrown e, s).

Definition bind {A B} (c : Async A) (k : A -> Async B) : Async B :=
  fun s =>
    match c s with
    | (Returned a, s') => k a s'
    | (Thrown e, s') => (Thrown e, s')
    end.

Definition gets {A} (f : State -> A) : Async A := fun s => (Returned (f s), s).

Definition modify (f : State -> State) : Async unit := fun s => (Returned tt, f s).

Declare Scope async_scope.
Delimit Scope async_scope with async.
Notation "'let!' x ':=' c1 'in' c2" := (bind c1 (fun x => c2))
  (at level 10, x pattern, c1 at level 100, c2 at level 200) : async_scope.
Notation "c1 ';;' c2" := (bind c1 (fun _ => c2))
  (at level 100, c2 at level 200, right associativity) : async_scope.

(** The joint wait on the branches of a fan-out ([Promise.all] over the
    mapped array, and [allPromises] of utils/basic).  Every branch runs on
    the output left by the branches before it, and the answers of the
    backend arrive in the order the branches were issued.  The wait throws
    what the first failing branch threw, and the branches after it still
    run.  JavaScript runs every branch up to its remote call before the
    first answer arrives; a branch reads the caches under the key of its own
    sub-query, which no other branch of the call writes, so the reads see
    the same entries here as there.  A branch that is served from a cache
    sets its entry of the output during that first run, ahead of the
    branches that wait for an answer: when both kinds are mixed in one call,
    the map of the code has the entries of the map here, possibly in another
    order.  What is proved of such a map for every call is therefore stated
    of its entries and of its keys as a set, not of their order. *)
Fixpoint Promise_all {O} (branches : list (O -> Async O)) (output : O) : Async O :=
  match branches with
  | [] => ret output
  | branch :: rest =>
      fun s =>
        match branch output s with
        | (Returned output', s') => Promise_all rest output' s'
        | (Thrown e, s') => (Thrown e, snd (Promise_all rest output s'))
        end
  end.

Definition with_requestCache (f : RequestCache -> RequestCache) (s : State) : State :=
  {| _requestCache := f (_requestCache s);
     _recordingSegmentsCache := _recordingSegmentsCache s;
     now := now s; sent := sent s |}.

Definition with_recordingSegmentsCache
    (f : RecordingSegmentsCache -> RecordingSegmentsCache) (s : State) : State :=
  {| _requestCache := _requestCache s;
     _recordingSegmentsCache := f (_recordingSegmentsCache s);
     now := now s; sent := sent s |}.

Definition with_sent (request : WSRequest) (s : State) : State :=
  {| _requestCache := _requestCache s;
     _recordingSegmentsCache := _recordingSegmentsCache s;
     now := now s; sent := sent s ++ [request] |}.

(** [homeAssistantWSRequest(hass, schema, request)] of utils/ha: the message
    is sent, and the call throws if the backend fails or if the answer does
    not pass the schema. *)
Definition homeAssistantWSRequest {T} (hass : HomeAssistant)
    (schema : WSResponse -> option T) (request : WSRequest) : Async T :=
  (modify (with_sent request);;
   match callWS hass request with
   | Some response =>
       match schema response with
       | Some payload => ret payload
       | None => throw (HomeAssistantError request)
       end
   | None => throw (HomeAssistantError request)
   end)%async.

(** *** Notions the properties are stated with *)

(** From a state that satisfies [P], the call either returns a value and a
    state related by [Q], or throws in a state that satisfies [R]. *)
Definition triple {A} (P : State -> Prop) (c : Async A)
    (Q : A -> State -> Prop) (R : State -> Prop) : Prop :=
  forall s, P s ->
    match c s with
    | (Returned a, s') => Q a s'
    | (Thrown _, s') => R s'
    end.

(** The state after [s] has the messages of [s] and then messages that all
    satisfy [P]. *)
Definition sentSince (P : WSRequest -> Prop) (s0 s : State) : Prop :=
  exists new, sent s = sent s0 ++ new /\ Forall P new.

End Async.

(** ** frigate/requests.ts *)

Module Requests.
Import Types Cache Async.
Local Open Scope async_scope.

Definition recordingSummarySchema (response : WSResponse) : option RecordingSummary :=
  match response with RecordingSummaryPayload summary => Some summary | _ => None end.

Definition recordingSegmentsSchema (response : WSResponse) : option (list RecordingSegment) :=
  match response with RecordingSegmentsPayload segments => Some segments | _ => None end.

Definition retainResultSchema (response : WSResponse) : option RetainResult :=
  match response with RetainResultPayload result => Some result | _ => None end.

Definition frigateEventsSchema (response : WSResponse) : option (list FrigateEvent) :=
  match response with FrigateEventsPayload events => Some events | _ => None end.

Definition eventSummarySchema (response : WSResponse) : option EventSummary :=
  match response with EventSummaryPayload summary => Some summary | _ => None end.

Definition getRecordingsSummary (hass : HomeAssistant) (clientID camera_name : string)
  : Async RecordingSummary :=
  homeAssistantWSRequest hass recordingSummarySchema
    (recordings_summary clientID camera_name (time_zone hass)).

Definition getRecordingSegments (hass : HomeAssistant)
    (params : NativeFrigateRecordingSegmentsQuery) : Async (list RecordingSegment) :=
  homeAssistantWSRequest hass recordingSegmentsSchema (recordings_get params).

Section WithExternals.
Context `{!Externals}.

Definition retainEvent (hass : HomeAssistant) (clientID eventID : string) (retain : bool)
  : Async unit :=
  let retainRequest := event_retain clientID eventID retain in
  let! response := homeAssistantWSRequest hass retainResultSchema retainRequest in
  if negb (success response) then
    throw (FrigateCardError (localize "error.failed_retain") retainRequest response)
  else ret tt.

End WithExternals.

Definition getEvents (hass : HomeAssistant) (params : NativeFrigateEventQuery)
  : Async (list FrigateEvent) :=
  homeAssistantWSRequest hass frigateEventsSchema (events_get params).

Definition getEventSummary (hass : HomeAssistant) (clientID : string) : Async EventSummary :=
  homeAssistantWSRequest hass eventSummarySchema (events_summary clientID (time_zone hass)).

End Requests.

(** ** frigate/engine-frigate.ts *)

Module FrigateCameraManagerEngine.
Import Types Cache Async.
Local Open Scope async_scope.

Definition EVENT_REQUEST_CACHE_MAX_AGE_SECONDS : Z := 60.
Definition RECORDING_SUMMARY_REQUEST_CACHE_MAX_AGE_SECONDS : Z := 60.
Definition MEDIA_METADATA_REQUEST_CACHE_AGE_SECONDS : Z := 60.

(** [FrigateQueryResultsClassifier] *)
Definition isFrigateEventQueryResults (results : QueryResults) : bool :=
  match results with
  | EventQueryResults engine _ _ _ _ => bool_decide (engine = Frigate)
  | _ => false
  end.

Definition isFrigateRecordingQueryResults (results : QueryResults) : bool :=
  match results with
  | RecordingQueryResults engine _ _ _ _ => bool_decide (engine = Frigate)
  | _ => false
  end.

Definition isFrigateRecordingSegmentsResults (results : QueryResults) : bool :=
  match results with
  | RecordingSegmentsResults r => bool_decide (segments_engine r = Frigate)
  | _ => false
  end.

(** The field [recordings] of a result the classifier has accepted. *)
Definition recordingsOf (results : QueryResults) : list FrigateRecording :=
  match results with
  | RecordingQueryResults _ _ recordings _ _ => recordings
  | _ => []
  end.

Definition cameraIDsOf (query : DataQuery) : list string :=
  match query with
  | QEvent q => event_cameraIDs q
  | QRecording q => recording_cameraIDs q
  | QRecordingSegments q => segments_cameraIDs q
  | QMediaMetadata q => metadata_cameraIDs q
  end.

(** A flag of a query is set when it is present and true. *)
Definition isSet (flag : option bool) : bool := default false flag.

(** [...(flag && { field: flag })] *)
Definition ifSet (flag : option bool) : option bool :=
  if isSet flag then flag else None.

(** The cache operations of the engine on its own state. *)
Definition requestCache_get (useCache : bool) (request : DataQuery)
  : Async (option QueryResults) :=
  if useCache
  then gets (fun s => RequestCache_get (_requestCache s) (now s) request)
  else ret None.

Definition requestCache_set (useCache : bool) (request : DataQuery)
    (result : QueryResults) (expiry : Date) : Async unit :=
  if useCache
  then modify (with_requestCache (fun cache =>
         RequestCache_set cache request (with_cached_true result) expiry))
  else ret tt.

Section WithExternals.
Context `{!Externals}.

Definition _getQueryableCameraConfig (store : CameraManagerReadOnlyConfigStore)
    (cameraID : string) : option CameraConfig :=
  match getCameraConfig store cameraID with
  | Some cameraConfig => if isBirdseye cameraConfig then None else Some cameraConfig
  | None => None
  end.

(** The queryable configuration of a camera that also names its Frigate
    camera: [!cameraConfig || !cameraConfig.frigate.camera_name] fails. *)
Definition namedCameraConfig (store : CameraManagerReadOnlyConfigStore)
    (cameraID : string) : option (CameraConfig * string) :=
  match _getQueryableCameraConfig store cameraID with
  | Some cameraConfig =>
      match camera_name cameraConfig with
      | Some name => if JS.truthy name then Some (cameraConfig, name) else None
      | None => None
      end
  | None => None
  end.

Definition _buildInstanceToCameraIDMapFromQuery (store : CameraManagerReadOnlyConfigStore)
    (cameraIDs : list string) : JS.Map string (list string) :=
  foldl (fun output cameraID =>
    match _getQueryableCameraConfig store cameraID with
    | Some cameraConfig =>
        let clientID := client_id cameraConfig in
        if JS.truthy clientID then
          let output :=
            if JS.Map_has output clientID then output else JS.Map_set output clientID [] in
          match JS.Map_get output clientID with
          | Some cameras => JS.Map_set output clientID (JS.Set_add cameras cameraID)
          | None => output
          end
        else output
    | None => output
    end) [] cameraIDs.

Definition _getFrigateCameraNamesForCameraIDs (store : CameraManagerReadOnlyConfigStore)
    (cameraIDs : list string) : list string :=
  foldl (fun output cameraID =>
    match namedCameraConfig store cameraID with
    | Some (_, name) => JS.Set_add output name
    | None => output
    end) [] cameraIDs.

(** *** getEvents *)

(** The native query of a branch.  The last property, [limit], replaces the
    one spread before it. *)
Definition nativeEventQuery (store : CameraManagerReadOnlyConfigStore) (query : EventQuery)
    (instanceID : string) (cameraIDs : list string) : NativeFrigateEventQuery :=
  {| instance_id := Some instanceID;
     cameras := Some (_getFrigateCameraNamesForCameraIDs store cameraIDs);
     labels := what query;
     zones := where_ query;
     sub_labels := tags query;
     event_before := (fun date => date / 1000) <$> event_end query;
     event_after := (fun date => date / 1000) <$> event_start query;
     native_has_clip := ifSet (hasClip query);
     native_has_snapshot := ifSet (hasSnapshot query);
     favorites := ifSet (favorite query);
     limit := Some (default CAMERA_MANAGER_ENGINE_EVENT_LIMIT_DEFAULT (event_limit query)) |}.

Definition processInstanceQuery (hass : HomeAssistant)
    (store : CameraManagerReadOnlyConfigStore) (query : EventQuery)
    (engineOptions : option EngineOptions)
    (instanceID : string) (cameraIDs : option (list string))
    (output : EventQueryResultsMap) : Async EventQueryResultsMap :=
  match cameraIDs with
  | None => ret output
  | Some [] => ret output
  | Some cameraIDs =>
      let instanceQuery := event_with_cameraIDs query cameraIDs in
      let! cachedResult :=
        requestCache_get (useCacheOrDefault engineOptions) (QEvent instanceQuery) in
      match cachedResult with
      | Some cachedResult => ret (JS.Map_set output query cachedResult)
      | None =>
          let nativeQuery := nativeEventQuery store query instanceID cameraIDs in
          let! events := Requests.getEvents hass nativeQuery in
          let! date := gets now in
          let expiry := add_seconds date EVENT_REQUEST_CACHE_MAX_AGE_SECONDS in
          let result := EventQueryResults Frigate instanceID events expiry false in
          requestCache_set (useCacheOrDefault engineOptions) (QEvent query) result expiry;;
          ret (JS.Map_set output instanceQuery result)
      end
  end.

(** The map [output] once the joint wait on the branches is over. *)
Definition eventsOutput (hass : HomeAssistant) (store : CameraManagerReadOnlyConfigStore)
    (query : EventQuery) (engineOptions : option EngineOptions)
  : Async EventQueryResultsMap :=
  let instances := _buildInstanceToCameraIDMapFromQuery store (event_cameraIDs query) in
  Promise_all
    ((fun instanceID =>
        processInstanceQuery hass store query engineOptions instanceID
          (JS.Map_get instances instanceID)) <$> JS.Map_keys instances)
    [].

Definition getEvents (hass : HomeAssistant) (store : CameraManagerReadOnlyConfigStore)
    (query : EventQuery) (engineOptions : option EngineOptions)
  : Async (option EventQueryResultsMap) :=
  let! output := eventsOutput hass store query engineOptions in
  ret (JS.nonEmptyOrNull output).

(** *** getRecordings *)

(** The recordings of a summary, hour by hour, that lie within the bounds
    of the query. *)
Definition expandRecordingSummary (cameraID : string) (query : RecordingQuery)
    (recordingSummary : RecordingSummary) : list FrigateRecording :=
  flat_map (fun dayData =>
    flat_map (fun hourData =>
      let hour := add_hours (day dayData) (hour hourData) in
      let startHour := startOfHour utcOffset hour in
      let endHour := endOfHour utcOffset hour in
      if match recording_start query with Some start => start <=? startHour | None => true end
         && match recording_end query with Some end_ => endHour <=? end_ | None => true end
      then [{| cameraID := cameraID; startTime := startHour; endTime := endHour;
               events := hour_events hourData |}]
      else []) (hours dayData)) recordingSummary.

(** [query.limit !== undefined]: sort by start time, youngest first, and cut. *)
Definition limitRecordings (query : RecordingQuery) (recordings : list FrigateRecording)
  : list FrigateRecording :=
  match recording_limit query with
  | Some limit => JS.slice0 (Lodash.orderBy_desc startTime recordings) limit
  | None => recordings
  end.

Definition processRecordingQuery (hass : HomeAssistant)
    (store : CameraManagerReadOnlyConfigStore) (engineOptions : option EngineOptions)
    (baseQuery : RecordingQuery) (cameraID : string)
    (output : RecordingQueryResultsMap) : Async RecordingQueryResultsMap :=
  let query := recording_with_cameraIDs baseQuery [cameraID] in
  let! cachedResult := requestCache_get (useCacheOrDefault engineOptions) (QRecording query) in
  match cachedResult with
  | Some cachedResult => ret (JS.Map_set output query cachedResult)
  | None =>
      match namedCameraConfig store cameraID with
      | None => ret output
      | Some (cameraConfig, name) =>
          let! recordingSummary :=
            Requests.getRecordingsSummary hass (client_id cameraConfig) name in
          let recordings :=
            limitRecordings query (expandRecordingSummary cameraID query recordingSummary) in
          let! date := gets now in
          let expiry := add_seconds date RECORDING_SUMMARY_REQUEST_CACHE_MAX_AGE_SECONDS in
          let result :=
            RecordingQueryResults Frigate (client_id cameraConfig) recordings expiry false in
          requestCache_set (useCacheOrDefault engineOptions) (QRecording query) result expiry;;
          ret (JS.Map_set output query result)
      end
  end.

Definition recordingsOutput (hass : HomeAssistant)
    (store : CameraManagerReadOnlyConfigStore) (query : RecordingQuery)
    (engineOptions : option EngineOptions) : Async RecordingQueryResultsMap :=
  Promise_all
    (processRecordingQuery hass store engineOptions query <$> recording_cameraIDs query)
    [].

Definition getRecordings (hass : HomeAssistant) (store : CameraManagerReadOnlyConfigStore)
    (query : RecordingQuery) (engineOptions : option EngineOptions)
  : Async (option RecordingQueryResultsMap) :=
  let! output := recordingsOutput hass store query engineOptions in
  ret (JS.nonEmptyOrNull output).

(** *** getRecordingSegments

    The garbage collector that the operation schedules for an idle moment
    runs after the operation has returned; it is [_garbageCollectSegments]
    below. *)

Definition processRecordingSegmentsQuery (hass : HomeAssistant)
    (store : CameraManagerReadOnlyConfigStore) (engineOptions : option EngineOptions)
    (baseQuery : RecordingSegmentsQuery) (cameraID : string)
    (output : RecordingSegmentsQueryResultsMap) : Async RecordingSegmentsQueryResultsMap :=
  let query := segments_with_cameraIDs baseQuery [cameraID] in
  match namedCameraConfig store cameraID with
  | None => ret output
  | Some (cameraConfig, name) =>
      let range := {| Range.start := segments_start query; Range.end_ := segments_end query |} in
      let! cachedSegments :=
        if useCacheOrDefault engineOptions
        then gets (fun s => RecordingSegmentsCache_get (_recordingSegmentsCache s) cameraID range)
        else ret None in
      match cachedSegments with
      | Some cachedSegments =>
          ret (JS.Map_set output query
                 {| segments_engine := Frigate; segments_instanceID := client_id cameraConfig;
                    segments := cachedSegments; segments_cached := true |})
      | None =>
          let request :=
            {| segments_instance_id := client_id cameraConfig; camera := name;
               after := segments_start query / 1000; before := segments_end query / 1000 |} in
          let! segments := Requests.getRecordingSegments hass request in
          (if useCacheOrDefault engineOptions
           then modify (with_recordingSegmentsCache (fun cache =>
                  RecordingSegmentsCache_add cache cameraID range segments))
           else ret tt);;
          ret (JS.Map_set output query
                 {| segments_engine := Frigate; segments_instanceID := client_id cameraConfig;
                    segments := segments; segments_cached := false |})
      end
  end.

Definition recordingSegmentsOutput (hass : HomeAssistant)
    (store : CameraManagerReadOnlyConfigStore) (query : RecordingSegmentsQuery)
    (engineOptions : option EngineOptions) : Async RecordingSegmentsQueryResultsMap :=
  Promise_all
    (processRecordingSegmentsQuery hass store engineOptions query <$> segments_cameraIDs query)
    [].

Definition getRecordingSegments (hass : HomeAssistant)
    (store : CameraManagerReadOnlyConfigStore) (query : RecordingSegmentsQuery)
    (engineOptions : option EngineOptions)
  : Async (option RecordingSegmentsQueryResultsMap) :=
  let! output := recordingSegmentsOutput hass store query engineOptions in
  ret (JS.nonEmptyOrNull output).

(** *** Projection of events to media *)

Definition _getCameraIDMatch (store : CameraManagerReadOnlyConfigStore) (query : DataQuery)
    (instanceID cameraName : string) : option string :=
  match cameraIDsOf query with
  | [cameraID] => Some cameraID
  | _ =>
      fst <$> List.find (fun entry =>
        bool_decide (client_id (snd entry) = instanceID)
        && bool_decide (camera_name (snd entry) = Some cameraName))
        (getCameraConfigEntries store)
  end.

Definition _splitSubLabels (input : string) : list string :=
  JS.trim <$> JS.split_comma input.

(** The media type of an event under a query: lines 594 to 605 of
    [generateMediaFromEvents]. *)
Definition resolveMediaType (query : EventQuery) (event : FrigateEvent) : option MediaType :=
  if negb (isSet (hasClip query)) && negb (isSet (hasSnapshot query))
     && (has_clip event || has_snapshot event)
  then Some (if has_clip event then clip else snapshot)
  else if isSet (hasSnapshot query) && has_snapshot event then Some snapshot
  else if isSet (hasClip query) && has_clip event then Some clip
  else None.

(** One turn of the loop: the media pushed for the event, if any. *)
Definition mediaFromEvent (store : CameraManagerReadOnlyConfigStore) (query : EventQuery)
    (instanceID : string) (event : FrigateEvent) : option ViewMedia :=
  match _getCameraIDMatch store (QEvent query) instanceID (event_camera event) with
  | None => None
  | Some cameraID =>
      if negb (JS.truthy cameraID) then None else
      match _getQueryableCameraConfig store cameraID with
      | None => None
      | Some cameraConfig =>
          match resolveMediaType query event with
          | None => None
          | Some mediaType =>
              createEventViewMedia mediaType cameraID cameraConfig event
                (match sub_label event with
                 | Some s => if JS.truthy s then Some (_splitSubLabels s) else None
                 | None => None
                 end)
          end
      end
  end.

Definition generateMediaFromEvents (store : CameraManagerReadOnlyConfigStore)
    (query : EventQuery) (results : QueryResults) : option (list ViewMedia) :=
  if isFrigateEventQueryResults results then
    match results with
    | EventQueryResults _ instanceID events _ _ =>
        Some (omap (mediaFromEvent store query instanceID) events)
    | _ => None
    end
  else None.

(** *** Seek time *)

(** The loop of [_getSeekTimeInSegments], with [seekMilliseconds] the
    running sum; [break] returns it. *)
Fixpoint seekLoop (startTime targetTime : Date) (segments : list RecordingSegment)
    (seekMilliseconds : Z) : Z :=
  match segments with
  | [] => seekMilliseconds
  | segment :: rest =>
      let segmentStart := fromUnixTime (start_time segment) in
      if targetTime <? segmentStart then seekMilliseconds
      else
        let segmentEnd := fromUnixTime (end_time segment) in
        let start := if segmentStart <? startTime then startTime else segmentStart in
        let end_ := if targetTime <? segmentEnd then targetTime else segmentEnd in
        seekLoop startTime targetTime rest (seekMilliseconds + (end_ - start))
  end.

(** The result is [seekMilliseconds / 1000], a number of seconds. *)
Definition _getSeekTimeInSegments (startTime targetTime : Date)
    (segments : list RecordingSegment) : option Q :=
  match segments with
  | [] => None
  | _ => Some (seekLoop startTime targetTime segments 0 # 1000)%Q
  end.

Definition getMediaSeekTime (hass : HomeAssistant) (store : CameraManagerReadOnlyConfigStore)
    (media : ViewMedia) (target : Date) (engineOptions : option EngineOptions)
  : Async (option Q) :=
  match getStartTime media, getEndTime media with
  | Some start, Some end_ =>
      if (target <? start) || (end_ <? target) then ret None
      else
        let cameraID := getCameraID media in
        let query :=
          {| segments_cameraIDs := [cameraID]; segments_start := start;
             segments_end := end_ |} in
        let! results := getRecordingSegments hass store query engineOptions in
        match results with
        | Some results =>
            match JS.Map_values results with
            | result :: _ => ret (_getSeekTimeInSegments start target (segments result))
            | [] => throw TypeError
            end
        | None => ret None
        end
  | _, _ => ret None
  end.

(** *** getMediaMetadata

    The sets [what], [where], [days] and [tags] that the branches add to
    are the output of the joint wait. *)

(** The four sets the branches of [getMediaMetadata] add to. *)
Record MetadataSets := {
  set_what : gset string;
  set_where : gset string;
  set_days : gset string;
  set_tags : gset string;
}.

Definition addAll (xs : list string) (s : gset string) : gset string :=
  foldl (fun s x => {[x]} ∪ s) s xs.

Definition addEventSummaryEntry (cameraNames : list string) (sets : MetadataSets)
    (entry : EventSummaryEntry) : MetadataSets :=
  if negb (JS.Set_has cameraNames (summary_camera entry)) then sets
  else
    {| set_what :=
         if JS.truthy (summary_label entry)
         then {[summary_label entry]} ∪ set_what sets else set_what sets;
       set_where := addAll (summary_zones entry) (set_where sets);
       set_days :=
         if JS.truthy (summary_day entry)
         then {[summary_day entry]} ∪ set_days sets else set_days sets;
       set_tags :=
         match summary_sub_label entry with
         | Some s =>
             if JS.truthy s then addAll (_splitSubLabels s) (set_tags sets)
             else set_tags sets
         | None => set_tags sets
         end |}.

Definition processEventSummary (hass : HomeAssistant)
    (store : CameraManagerReadOnlyConfigStore) (instanceID : string)
    (cameraIDs : list string) (sets : MetadataSets) : Async MetadataSets :=
  let cameraNames := _getFrigateCameraNamesForCameraIDs store cameraIDs in
  let! summary := Requests.getEventSummary hass instanceID in
  ret (foldl (addEventSummaryEntry cameraNames) sets summary).

Definition addRecordingDays (sets : MetadataSets) (result : QueryResults) : MetadataSets :=
  if isFrigateRecordingQueryResults result then
    {| set_what := set_what sets; set_where := set_where sets;
       set_days := addAll (formatDate ∘ startTime <$> recordingsOf result) (set_days sets);
       set_tags := set_tags sets |}
  else sets.

Definition processRecordings (hass : HomeAssistant)
    (store : CameraManagerReadOnlyConfigStore) (engineOptions : option EngineOptions)
    (cameraIDs : list string) (sets : MetadataSets) : Async MetadataSets :=
  let! recordings :=
    getRecordings hass store
      {| recording_cameraIDs := cameraIDs; recording_start := None;
         recording_end := None; recording_limit := None |}
      engineOptions in
  match recordings with
  | None => ret sets
  | Some recordings => ret (foldl addRecordingDays sets (JS.Map_values recordings))
  end.

(** [...(set.size && { field: set })] *)
Definition ifNonEmpty (s : gset string) : option (gset string) :=
  if bool_decide (size s = 0%nat) then None else Some s.

Definition getMediaMetadata (hass : HomeAssistant) (store : CameraManagerReadOnlyConfigStore)
    (query : MediaMetadataQuery) (engineOptions : option EngineOptions)
  : Async (option MediaMetadataQueryResultsMap) :=
  let output : MediaMetadataQueryResultsMap := [] in
  let! cachedResult :=
    if useCacheOrDefault engineOptions then
      let! has := gets (fun s => RequestCache_has (_requestCache s) (now s) (QMediaMetadata query)) in
      if has then requestCache_get true (QMediaMetadata query) else ret None
    else ret None in
  match cachedResult with
  | Some cachedResult => ret (Some (JS.Map_set output query cachedResult))
  | None =>
      let instances := _buildInstanceToCameraIDMapFromQuery store (metadata_cameraIDs query) in
      let! sets :=
        Promise_all
          ((fun '(instanceID, cameraIDs) =>
              Promise_all
                [processEventSummary hass store instanceID cameraIDs;
                 processRecordings hass store engineOptions cameraIDs]) <$> instances)
          {| set_what := ∅; set_where := ∅; set_days := ∅; set_tags := ∅ |} in
      let! date := gets now in
      let expiry := add_seconds date MEDIA_METADATA_REQUEST_CACHE_AGE_SECONDS in
      let result :=
        MediaMetadataQueryResults Frigate
          {| metadata_what := ifNonEmpty (set_what sets);
             metadata_where := ifNonEmpty (set_where sets);
             metadata_days := ifNonEmpty (set_days sets);
             metadata_tags := ifNonEmpty (set_tags sets) |}
          expiry false in
      requestCache_set (useCacheOrDefault engineOptions) (QMediaMetadata query) result expiry;;
      ret (Some (JS.Map_set output query result))
  end.

(** *** Garbage collection of segments *)

Definition getHourID (cameraID : string) (startTime : Date) : string :=
  cameraID +:+ "/" +:+ pretty (getDate utcOffset startTime)
           +:+ "/" +:+ pretty (getHours utcOffset startTime).

Definition goodHoursOf (result : QueryResults) : gset string :=
  foldl (fun goodHours recording =>
           {[getHourID (cameraID recording) (startTime recording)]} ∪ goodHours)
        ∅ (recordingsOf result).

(** The predicate handed to [expireMatches]. *)
Definition segmentExpired (cameraID : string) (goodHours : gset string)
    (segment : RecordingSegment) : bool :=
  let hourID := getHourID cameraID (fromUnixTime (start_time segment)) in
  negb (bool_decide (hourID ∈ goodHours)).

(** One turn of the loop over the results. *)
Definition collectResult (cache : RecordingSegmentsCache)
    (entry : RecordingQuery * QueryResults) : RecordingSegmentsCache :=
  let '(query, result) := entry in
  if negb (isFrigateRecordingQueryResults result) then cache
  else
    let goodHours := goodHoursOf result in
    match recording_cameraIDs query with
    | cameraID :: _ => expireMatches cache cameraID (segmentExpired cameraID goodHours)
    | [] => cache
    end.

Definition _garbageCollectSegments (hass : HomeAssistant)
    (store : CameraManagerReadOnlyConfigStore) : Async unit :=
  let! cameraIDs := gets (fun s => getCameraIDs (_recordingSegmentsCache s)) in
  let recordingQuery :=
    {| recording_cameraIDs := JS.Set_of cameraIDs; recording_start := None;
       recording_end := None; recording_limit := None |} in
  let! results := getRecordings hass store recordingQuery None in
  match results with
  | None => ret tt
  | Some results =>
      modify (with_recordingSegmentsCache (fun cache => foldl collectResult cache results))
  end.

(** *** favoriteMedia

    The media object is passed in and out: the second component is the
    object as the call leaves it, also when the call throws. *)
Definition favoriteMedia (hass : HomeAssistant) (cameraConfig : CameraConfig)
    (media : ViewMedia) (favorite : bool) (s : State)
  : Outcome unit * ViewMedia * State :=
  if negb (isFrigateEvent media) then (Returned tt, media, s)
  else
    match Requests.retainEvent hass (client_id cameraConfig) (getID media) favorite s with
    | (Returned _, s') => (Returned tt, setFavorite media favorite, s')
    | (Thrown e, s') => (Thrown e, media, s')
    end.

(** *** Notions the properties are stated with *)

(** The message is a native event query whose [limit] is the limit of
    [query], or the default of the engine when [query] has none. *)
Definition carriesLimit (query : EventQuery) (request : WSRequest) : Prop :=
  exists params, request = events_get params
    /\ limit params = Some (match event_limit query with
                            | Some requested => requested
                            | None => CAMERA_MANAGER_ENGINE_EVENT_LIMIT_DEFAULT
                            end).

(** [operation] returns whenever the wait for [merged] returns, in the same
    state; it returns null exactly when the merged map is empty, and a map
    it returns is the merged map and is not empty. *)
Definition nullIffEmpty {K V} (merged : Async (JS.Map K V))
    (operation : Async (option (JS.Map K V))) : Prop :=
  (forall s output s', merged s = (Returned output, s') ->
     operation s = (Returned (JS.nonEmptyOrNull output), s'))
  /\ (forall s r s', operation s = (Returned r, s') ->
        exists output, merged s = (Returned output, s')
          /\ (r = None <-> output = [])
          /\ (forall m, r = Some m -> m = output /\ m <> [])).

(** The seek offset the specification describes, in milliseconds: the
    length of the overlap of a segment with the window from the start of the
    media to the target, which is 0 when they do not meet ... *)
Definition overlapMilliseconds (mediaStart target : Date) (segment : RecordingSegment) : Z :=
  Z.max 0 (Z.min (fromUnixTime (end_time segment)) target
           - Z.max (fromUnixTime (start_time segment)) mediaStart).

(** ... summed over the segments up to the first one that starts after the
    target. *)
Fixpoint overlapSum (mediaStart target : Date) (segments : list RecordingSegment) : Z :=
  match segments with
  | [] => 0
  | segment :: rest =>
      if target <? fromUnixTime (start_time segment) then 0
      else overlapMilliseconds mediaStart target segment + overlapSum mediaStart target rest
  end.

(** The segment is well formed and does not end before the media starts. *)
Definition reachesMedia (mediaStart : Date) (segment : RecordingSegment) : Prop :=
  start_time segment <= end_time segment /\ mediaStart <= fromUnixTime (end_time segment).

(** The recording of one hour of the summary. *)
Definition hourRecording (cameraID : string) (dayData : RecordingSummaryDay)
    (hourData : RecordingSummaryHour) : FrigateRecording :=
  let hour := add_hours (day dayData) (hour hourData) in
  {| cameraID := cameraID; startTime := startOfHour utcOffset hour;
     endTime := endOfHour utcOffset hour; events := hour_events hourData |}.

(** The whole hour of the recording lies within the bounds the query has. *)
Definition withinBounds (query : RecordingQuery) (recording : FrigateRecording) : Prop :=
  (forall start, recording_start query = Some start -> start <= startTime recording)
  /\ (forall end_, recording_end query = Some end_ -> endTime recording <= end_).

(** The keys of a map built by [set] are distinct, and each of them
    satisfies what every key that was set satisfies. *)
Definition keysAre {K V} (P : K -> Prop) (m : JS.Map K V) : Prop :=
  NoDup (JS.Map_keys m) /\ Forall P (JS.Map_keys m).

(** The sub-query of [query] for one of its cameras. *)
Definition subQueryOf (query : RecordingQuery) (key : RecordingQuery) : Prop :=
  exists cameraID, key = recording_with_cameraIDs query [cameraID].

End WithExternals.
End FrigateCameraManagerEngine.

(** ** A concrete installation

    Two Frigate instances with one camera each, a third camera that is not
    queryable, and a backend that answers every message.  Local time is
    UTC. *)

Module Installation.
Import Types Cache Async.

Definition externals : Externals :=
  {| isBirdseye := fun cameraConfig => bool_decide (camera_name cameraConfig = Some "birdseye");
     CAMERA_MANAGER_ENGINE_EVENT_LIMIT_DEFAULT := 10000;
     utcOffset := 0;
     formatDate := fun date => pretty (date / MS_PER_DAY);
     createEventViewMedia := fun mediaType cameraID _ event _ =>
       Some {| media_type := mediaType; media_cameraID := cameraID;
               media_id := event_id event; media_startTime := None;
               media_endTime := None; media_favorite := None;
               media_isFrigateEvent := true |};
     localize := fun key => key |}.

Definition store : CameraManagerReadOnlyConfigStore :=
  [("front", {| client_id := "frigate1"; camera_name := Some "front_door" |});
   ("back", {| client_id := "frigate2"; camera_name := Some "back_yard" |});
   ("overview", {| client_id := "frigate1"; camera_name := Some "birdseye" |})].

Definition person : FrigateEvent :=
  {| event_id := "1700000000.1-abc"; event_camera := "front_door";
     has_clip := true; has_snapshot := true; sub_label := None |}.

(** 2023-11-14 is day 19675 of the epoch. *)
Definition midnight : Date := 19675 * MS_PER_DAY.

Definition summaryOf (hoursOfDay : list Z) : RecordingSummary :=
  [{| day := midnight;
      hours := (fun h => {| hour := h; hour_events := 0 |}) <$> hoursOfDay |}].

Definition segmentAt (id : string) (hour minute : Z) : RecordingSegment :=
  {| segment_id := id;
     start_time := 19675 * 86400 + hour * 3600 + minute * 60;
     end_time := 19675 * 86400 + hour * 3600 + minute * 60 + 10 |}.

Definition hass (retained : bool) (hoursOfDay : list Z) : HomeAssistant :=
  {| time_zone := "UTC";
     callWS := fun request =>
       match request with
       | recordings_summary _ _ _ => Some (RecordingSummaryPayload (summaryOf hoursOfDay))
       | recordings_get _ => Some (RecordingSegmentsPayload [segmentAt "s" 2 0])
       | event_retain _ _ _ =>
           Some (RetainResultPayload {| success := retained; retain_message := "" |})
       | events_get _ => Some (FrigateEventsPayload [person])
       | events_summary _ _ => Some (EventSummaryPayload [])
       end |}.

Definition emptyCaches (date : Date) : State :=
  {| _requestCache := [];
     _recordingSegmentsCache := {| cache_segments := ∅; cache_ranges := ∅ |};
     now := date; sent := [] |}.

Definition eventQuery (cameraIDs : list string) : EventQuery :=
  {| event_cameraIDs := cameraIDs; event_start := None; event_end := None;
     what := None; where_ := None; tags := None; event_limit := None;
     hasClip := None; hasSnapshot := None; favorite := None |}.

Definition recordingQuery (cameraIDs : list string) (limit : option Z) : RecordingQuery :=
  {| recording_cameraIDs := cameraIDs; recording_start := None; recording_end := None;
     recording_limit := limit |}.

Definition frontConfig : CameraConfig :=
  {| client_id := "frigate1"; camera_name := Some "front_door" |}.

(** The media of the event [person], a clip. *)
Definition personClip : ViewMedia :=
  {| media_type := clip; media_cameraID := "front"; media_id := event_id person;
     media_startTime := Some 1700000000000; media_endTime := Some 1700000030000;
     media_favorite := None; media_isFrigateEvent := true |}.

(** One segment in each of the hours 1 to 5 of the day. *)
Definition hourSegments : list RecordingSegment :=
  [segmentAt "h1" 1 10; segmentAt "h2" 2 10; segmentAt "h3" 3 10;
   segmentAt "h4" 4 10; segmentAt "h5" 5 10].

(** The state after these segments were fetched for the camera [front]. *)
Definition cachedHours (date : Date) : State :=
  with_recordingSegmentsCache (fun cache =>
    RecordingSegmentsCache_add cache "front"
      {| Range.start := midnight; Range.end_ := midnight + 6 * MS_PER_HOUR |} hourSegments)
    (emptyCaches date).

(** A media of one hour that starts at [T0], and three of its segments,
    with a gap between the second and the third. *)
Definition T0 : Z := 1700000000.

Definition seekSegments : list RecordingSegment :=
  [{| segment_id := "a"; start_time := T0; end_time := T0 + 600 |};
   {| segment_id := "b"; start_time := T0 + 600; end_time := T0 + 1200 |};
   {| segment_id := "c"; start_time := T0 + 2000; end_time := T0 + 2600 |}].

End Installation.

(** ** range.ts: the expiring range set

    An [ExpiringRange] is a range with the instant it expires at.  The two
    methods that read the clock ([new Date()]) take the instant [now]. *)

Module ExpiringRange.
Import Range.

Record ExpiringRange := {
  bounds : Range;
  expires : Z;
}.

Definition ExpiringMemoryRangeSet := list ExpiringRange.

Definition hasCoverage (now : Z) (ranges : ExpiringMemoryRangeSet) (range : Range) : bool :=
  existsb (fun cachedRange =>
    (now <? expires cachedRange) && rangeIsEntirelyContained (bounds cachedRange) range) ranges.

Definition _expireOldRanges (now : Z) (ranges : ExpiringMemoryRangeSet)
  : ExpiringMemoryRangeSet :=
  List.filter (fun range => now <? expires range) ranges.

Definition add (now : Z) (ranges : ExpiringMemoryRangeSet) (range : ExpiringRange)
  : ExpiringMemoryRangeSet :=
  _expireOldRanges now (ranges ++ [range]).

Definition clear (_ : ExpiringMemoryRangeSet) : ExpiringMemoryRangeSet := [].

End ExpiringRange.

(** ** Notions the further properties are stated with *)

Module CalendarNotions.
Import DateFns.

(** The days of the month of [n] days in a row, from the day [day] on. *)
Fixpoint daysFrom (n : nat) (day : Z) : list Z :=
  match n with
  | O => []
  | S n => day_of_month day :: daysFrom n (day + 1)
  end.

(** No number of the list comes again among the 27 numbers after it. *)
Fixpoint distinctAhead (l : list Z) : bool :=
  match l with
  | [] => true
  | x :: l' => forallb (fun y => negb (x =? y)) (take 27 l') && distinctAhead l'
  end.

(** The string has no slash. *)
Fixpoint slashFree (s : string) : bool :=
  match s with
  | EmptyString => true
  | String c s' => negb (Ascii.eqb c (Ascii.ascii_of_nat 47)) && slashFree s'
  end.

End CalendarNotions.

Module RangeNotions.
Import Range.

(** The range [o] contains the range [r]. *)
Definition contains (o r : Range) : Prop := start o <= start r /\ end_ r <= end_ o.

(** The integers that a number of JavaScript holds exactly, whatever their
    sign: those of magnitude at most 2^53. *)
Definition safeInteger (x : Z) : Prop := - 2 ^ 53 <= x <= 2 ^ 53.

(** The arithmetic of [compressRanges] is exact for these ranges and this
    tolerance: the bounds, the tolerance in milliseconds and every sum
    [end + toleranceSeconds * 1000] the loop can form are such integers, so
    that no sum is rounded.  Every instant of a [Date] is one (its magnitude
    is at most 8.64e15), and so is every sum for a tolerance of 0. *)
Definition exactFor (toleranceSeconds : Z) (ranges : list Range) : Prop :=
  safeInteger (toleranceSeconds * 1000)
  /\ Forall (fun r => safeInteger (start r) /\ safeInteger (end_ r)
                      /\ safeInteger (end_ r + toleranceSeconds * 1000)) ranges.

End RangeNotions.

Module EngineNotions.
Import Types Cache Async FrigateCameraManagerEngine.

Section WithExternals.
Context `{!Externals}.

(** One turn of the loop of [_buildInstanceToCameraIDMapFromQuery]. *)
Definition instanceStep (store : CameraManagerReadOnlyConfigStore)
    (output : JS.Map string (list string)) (cameraID : string)
  : JS.Map string (list string) :=
  match _getQueryableCameraConfig store cameraID with
  | Some cameraConfig =>
      let clientID := client_id cameraConfig in
      if JS.truthy clientID then
        let output :=
          if JS.Map_has output clientID then output else JS.Map_set output clientID [] in
        match JS.Map_get output clientID with
        | Some cameras => JS.Map_set output clientID (JS.Set_add cameras cameraID)
        | None => output
        end
      else output
  | None => output
  end.

(** The camera is queryable and its configuration names the instance. *)
Definition servedBy (store : CameraManagerReadOnlyConfigStore) (clientID cameraID : string)
  : Prop :=
  exists cameraConfig,
    _getQueryableCameraConfig store cameraID = Some cameraConfig
    /\ client_id cameraConfig = clientID /\ JS.truthy clientID = true.

(** What the map holds once the cameras [seen] went through the loop. *)
Definition partitions (store : CameraManagerReadOnlyConfigStore) (seen : list string)
    (output : JS.Map string (list string)) : Prop :=
  NoDup (JS.Map_keys output)
  /\ forall clientID,
       match JS.Map_get output clientID with
       | Some cameras =>
           cameras <> [] /\ NoDup cameras
           /\ forall cameraID,
                cameraID ∈ cameras <-> cameraID ∈ seen /\ servedBy store clientID cameraID
       | None => forall cameraID, cameraID ∈ seen -> ~ servedBy store clientID cameraID
       end.

(** The segment ends before the next one starts. *)
Definition precedes (a b : RecordingSegment) : Prop := end_time a <= start_time b.

(** The caches and the clock of [s] are those of [s0]. *)
Definition sameCaches (s0 s : State) : Prop :=
  _requestCache s = _requestCache s0
  /\ _recordingSegmentsCache s = _recordingSegmentsCache s0
  /\ now s = now s0.

(** The string is one white space character, as [trim] knows them. *)
Definition whitespace (w : string) : Prop :=
  match w with
  | String c EmptyString => JS.isWhitespace c = true
  | String c1 (String c2 EmptyString) => JS.isWhitespace2 c1 c2 = true
  | String c1 (String c2 (String c3 EmptyString)) => JS.isWhitespace3 c1 c2 c3 = true
  | _ => False
  end.

(** A white space character by its bytes, read forwards or backwards. *)
Definition whitespaceBytes (backwards : bool) (w : list Ascii.ascii) : Prop :=
  match w with
  | [c] => JS.isWhitespace c = true
  | [c1; c2] =>
      (if backwards then JS.isWhitespace2 c2 c1 else JS.isWhitespace2 c1 c2) = true
  | [c1; c2; c3] =>
      (if backwards then JS.isWhitespace3 c3 c2 c1 else JS.isWhitespace3 c1 c2 c3) = true
  | _ => False
  end.

(** The string starts, or ends, with a white space character. *)
Definition startsWithWhitespace (s : string) : Prop :=
  exists w rest, whitespace w /\ s = w +:+ rest.

Definition endsWithWhitespace (s : string) : Prop :=
  exists w rest, whitespace w /\ s = rest +:+ w.

(** The number of commas of the string. *)
Fixpoint commas (s : string) : nat :=
  match s with
  | EmptyString => 0
  | String c s' => (if Ascii.eqb c (Ascii.ascii_of_nat 44) then 1 else 0) + commas s'
  end.

(** Every entry of the map satisfies [P], and the keys are distinct. *)
Definition entriesAre {K V} (P : K -> V -> Prop) (m : JS.Map K V) : Prop :=
  NoDup (JS.Map_keys m) /\ forall k v, (k, v) ∈ m -> P k v.

(** The entry is the fresh result for one camera of the query: the
    recordings of the summary the backend answered with, within the bounds
    and the limit of the query, not flagged as cached.  The instant of expiry
    is left open. *)
Definition freshRecordingResult (hass : HomeAssistant)
    (store : CameraManagerReadOnlyConfigStore) (query : RecordingQuery)
    (key : RecordingQuery) (result : QueryResults) : Prop :=
  exists cameraID cameraConfig name summary expiry,
    cameraID ∈ recording_cameraIDs query
    /\ key = recording_with_cameraIDs query [cameraID]
    /\ namedCameraConfig store cameraID = Some (cameraConfig, name)
    /\ callWS hass (recordings_summary (client_id cameraConfig) name (time_zone hass))
       = Some (RecordingSummaryPayload summary)
    /\ result = RecordingQueryResults Frigate (client_id cameraConfig)
                  (limitRecordings key (expandRecordingSummary cameraID key summary))
                  expiry false.

(** The entry is the fresh result for one instance: keyed by the query
    restricted to the cameras of the instance, with the events the backend
    answered the native query with, not flagged as cached.  The instant of
    expiry is left open. *)
Definition freshEventResult (hass : HomeAssistant)
    (store : CameraManagerReadOnlyConfigStore) (query : EventQuery)
    (key : EventQuery) (result : QueryResults) : Prop :=
  exists instanceID cameraIDs events expiry,
    JS.Map_get (_buildInstanceToCameraIDMapFromQuery store (event_cameraIDs query)) instanceID
      = Some cameraIDs
    /\ key = event_with_cameraIDs query cameraIDs
    /\ callWS hass (events_get (nativeEventQuery store query instanceID cameraIDs))
       = Some (FrigateEventsPayload events)
    /\ result = EventQueryResults Frigate instanceID events expiry false.

(** The entry is the result for one camera of the query, from the instance
    of that camera; if it is not flagged as cached, its segments are those
    the backend answered with for the camera and the bounds of the query in
    whole seconds. *)
Definition segmentsResult (hass : HomeAssistant)
    (store : CameraManagerReadOnlyConfigStore) (query : RecordingSegmentsQuery)
    (key : RecordingSegmentsQuery) (result : RecordingSegmentsQueryResults) : Prop :=
  exists cameraID cameraConfig name,
    cameraID ∈ segments_cameraIDs query
    /\ key = segments_with_cameraIDs query [cameraID]
    /\ namedCameraConfig store cameraID = Some (cameraConfig, name)
    /\ segments_engine result = Frigate
    /\ segments_instanceID result = client_id cameraConfig
    /\ (segments_cached result = false ->
        callWS hass (recordings_get
          {| segments_instance_id := client_id cameraConfig; camera := name;
             after := segments_start query / 1000; before := segments_end query / 1000 |})
        = Some (RecordingSegmentsPayload (segments result))).

(** The segment cache reports the range covered for the camera. *)
Definition coveredFor (cache : RecordingSegmentsCache) (cameraID : string)
    (range : Range.Range) : Prop :=
  is_Some (RecordingSegmentsCache_get cache cameraID range).

(** The range and the native query of a segments query. *)
Definition rangeOf (query : RecordingSegmentsQuery) : Range.Range :=
  {| Range.start := segments_start query; Range.end_ := segments_end query |}.

Definition nativeSegmentsQuery (query : RecordingSegmentsQuery)
    (cameraConfig : CameraConfig) (name : string) : NativeFrigateRecordingSegmentsQuery :=
  {| segments_instance_id := client_id cameraConfig; camera := name;
     after := segments_start query / 1000; before := segments_end query / 1000 |}.

(** The keys of the output of the fan-out, which depend on the cameras and
    their configuration only. *)
Definition segmentKeys (store : CameraManagerReadOnlyConfigStore)
    (query : RecordingSegmentsQuery) (keys : list RecordingSegmentsQuery)
    (cameraIDs : list string) : list RecordingSegmentsQuery :=
  foldl (fun keys cameraID =>
    match namedCameraConfig store cameraID with
    | Some _ =>
        let key := segments_with_cameraIDs query [cameraID] in
        if bool_decide (key ∈ keys) then keys else keys ++ [key]
    | None => keys
    end) keys cameraIDs.

(** The entry is in the event summary the backend answers an instance of the
    query with, and names a configured camera of that instance. *)
Definition summaryEntryOf (hass : HomeAssistant) (store : CameraManagerReadOnlyConfigStore)
    (cameraIDs : list string) (entry : EventSummaryEntry) : Prop :=
  exists instanceID cameras summary,
    JS.Map_get (_buildInstanceToCameraIDMapFromQuery store cameraIDs) instanceID
      = Some cameras
    /\ callWS hass (events_summary instanceID (time_zone hass))
       = Some (EventSummaryPayload summary)
    /\ entry ∈ summary
    /\ summary_camera entry ∈ _getFrigateCameraNamesForCameraIDs store cameras.

(** Every label, zone and tag comes from such an entry. *)
Definition fromSummaries (hass : HomeAssistant) (store : CameraManagerReadOnlyConfigStore)
    (cameraIDs : list string) (what where_ tags : gset string) : Prop :=
  (forall label, label ∈ what ->
     label <> ""
     /\ exists entry, summaryEntryOf hass store cameraIDs entry /\ summary_label entry = label)
  /\ (forall zone, zone ∈ where_ ->
        exists entry, summaryEntryOf hass store cameraIDs entry /\ zone ∈ summary_zones entry)
  /\ (forall tag, tag ∈ tags ->
        exists entry sub_label,
          summaryEntryOf hass store cameraIDs entry
          /\ summary_sub_label entry = Some sub_label
          /\ tag ∈ _splitSubLabels sub_label).

(** The field of the metadata is left out or holds a set with an element. *)
Definition absentOrNonEmpty (field : option (gset string)) : Prop := field <> Some ∅.

(** The media has no start or no end, or the target lies outside it. *)
Definition outsideMedia (media : ViewMedia) (target : Date) : Prop :=
  match getStartTime media, getEndTime media with
  | Some start, Some end_ => target < start \/ end_ < target
  | _, _ => True
  end.

(** The message asks the instance of the camera of the media for the
    segments between the start and the end of the media, in whole seconds. *)
Definition segmentsRequestFor (store : CameraManagerReadOnlyConfigStore) (media : ViewMedia)
    (request : WSRequest) : Prop :=
  exists cameraConfig name start end_,
    namedCameraConfig store (getCameraID media) = Some (cameraConfig, name)
    /\ getStartTime media = Some start /\ getEndTime media = Some end_
    /\ request = recordings_get
                   {| segments_instance_id := client_id cameraConfig; camera := name;
                      after := start / 1000; before := end_ / 1000 |}.

(** The last argument of [createEventViewMedia]: the labels of the sub label
    of the event, if it has one that is not empty. *)
Definition subLabelsOf (event : FrigateEvent) : option (list string) :=
  match sub_label event with
  | Some s => if JS.truthy s then Some (_splitSubLabels s) else None
  | None => None
  end.

(** The media item of the event is the one [createEventViewMedia] makes with
    this media type, whatever configured camera the event is matched to. *)
Definition createdAs (store : CameraManagerReadOnlyConfigStore) (query : EventQuery)
    (instanceID : string) (event : FrigateEvent) (mediaType : MediaType) : Prop :=
  forall cameraID cameraConfig,
    _getCameraIDMatch store (QEvent query) instanceID (event_camera event) = Some cameraID ->
    JS.truthy cameraID = true ->
    _getQueryableCameraConfig store cameraID = Some cameraConfig ->
    mediaFromEvent store query instanceID event
    = createEventViewMedia mediaType cameraID cameraConfig event (subLabelsOf event).

(** The recording is of the camera and starts on the day of the month and in
    the hour of the day in which the segment starts, in local time: what the
    hour identities of the two compare. *)
Definition sameHourOfMonth (camera : string) (segment : RecordingSegment)
    (recording : FrigateRecording) : Prop :=
  cameraID recording = camera
  /\ getDate utcOffset (startTime recording)
     = getDate utcOffset (fromUnixTime (start_time segment))
  /\ getHours utcOffset (startTime recording)
     = getHours utcOffset (fromUnixTime (start_time segment)).

(** The recording is of the camera and is the hour in which the segment
    starts. *)
Definition listsHourOf (camera : string) (segment : RecordingSegment)
    (recording : FrigateRecording) : Prop :=
  cameraID recording = camera
  /\ startTime recording = startOfHour utcOffset (fromUnixTime (start_time segment)).

(** The recording starts with an hour, less than 27 days before or after
    the start of the segment. *)
Definition wholeHourNear (segment : RecordingSegment) (recording : FrigateRecording)
  : Prop :=
  startOfHour utcOffset (startTime recording) = startTime recording
  /\ - (27 * MS_PER_DAY) < startTime recording - fromUnixTime (start_time segment)
     < 27 * MS_PER_DAY.

End WithExternals.
End EngineNotions.

(** ** A backend with an event summary *)

Module InstallationMore.
Import Types Cache Async Installation.

(** A segment of ten seconds that starts on 14 October 2023 at 02:10, 31
    days before the day of [midnight], and the state after it was fetched
    for the camera [front]. *)
Definition octoberSegment : RecordingSegment :=
  {| segment_id := "october";
     start_time := 19644 * 86400 + 2 * 3600 + 600;
     end_time := 19644 * 86400 + 2 * 3600 + 610 |}.

(** A no-break space (U+00A0) and a line separator (U+2028), encoded. *)
Definition noBreakSpace : string :=
  String (Ascii.ascii_of_nat 194) (String (Ascii.ascii_of_nat 160) EmptyString).

Definition lineSeparator : string :=
  String (Ascii.ascii_of_nat 226)
    (String (Ascii.ascii_of_nat 128) (String (Ascii.ascii_of_nat 168) EmptyString)).

Definition cachedOctober : State :=
  with_recordingSegmentsCache (fun cache =>
    RecordingSegmentsCache_add cache "front"
      {| Range.start := midnight - 31 * MS_PER_DAY;
         Range.end_ := midnight - 31 * MS_PER_DAY + 6 * MS_PER_HOUR |} [octoberSegment])
    (emptyCaches 0).

(** The event summary of an instance: the front door saw a person with two
    sub labels in the porch zone, and a camera the card does not configure
    saw a car. *)
Definition eventSummary : EventSummary :=
  [{| summary_camera := "front_door"; summary_day := "2023-11-14";
      summary_label := "person"; summary_sub_label := Some "alice, bob ";
      summary_zones := ["porch"] |};
   {| summary_camera := "garage"; summary_day := "2023-11-13";
      summary_label := "car"; summary_sub_label := None;
      summary_zones := ["drive"] |}].

Definition hassWithSummary : HomeAssistant :=
  {| time_zone := "UTC";
     callWS := fun request =>
       match request with
       | events_summary _ _ => Some (EventSummaryPayload eventSummary)
       | _ => callWS (hass true []) request
       end |}.

End InstallationMore.

(** * Properties *)

(** ** The sorts of lodash *)

Module LodashFacts.
Import Lodash.

Section Sorting.
Context {A : Type} (key : A -> Z).

Lemma insert_asc_perm x l : insert_asc key x l ≡ₚ x :: l.
Proof.
  induction l as [|y l IH]; simpl; [done|].
  destruct (key x <=? key y); [done|].
  rewrite IH. apply Permutation_swap.
Qed.

Lemma orderBy_asc_perm l : orderBy_asc key l ≡ₚ l.
Proof.
  induction l as [|x l IH]; simpl; [done|].
  unfold orderBy_asc in *. simpl. rewrite insert_asc_perm. by rewrite IH.
Qed.

Lemma insert_asc_sorted x l :
  StronglySorted (ascending key) l -> StronglySorted (ascending key) (insert_asc key x l).
Proof.
  induction 1 as [|y l Hl IH Hy]; simpl.
  - repeat constructor.
  - destruct (Z.leb_spec (key x) (key y)) as [Hxy|Hxy].
    + constructor; [by constructor|].
      constructor; [done|].
      eapply Forall_impl; [exact Hy|]. unfold ascending. intros; lia.
    + constructor; [done|].
      rewrite insert_asc_perm. constructor; [unfold ascending; lia | done].
Qed.

Lemma orderBy_asc_sorted l : StronglySorted (ascending key) (orderBy_asc key l).
Proof.
  induction l as [|x l IH]; [constructor|].
  unfold orderBy_asc in *. simpl. by apply insert_asc_sorted.
Qed.

(** A list that is in ascending order already is left as it is. *)
Lemma orderBy_asc_id l : StronglySorted (ascending key) l -> orderBy_asc key l = l.
Proof.
  induction 1 as [|x l Hl IH Hx]; [done|].
  unfold orderBy_asc in *. simpl. rewrite IH.
  destruct l as [|y l']; [done|]. simpl.
  apply Forall_cons in Hx as [Hxy _]. unfold ascending in Hxy.
  destruct (Z.leb_spec (key x) (key y)); [done|lia].
Qed.

Lemma insert_desc_perm x l : insert_desc key x l ≡ₚ x :: l.
Proof.
  induction l as [|y l IH]; simpl; [done|].
  destruct (key y <=? key x); [done|].
  rewrite IH. apply Permutation_swap.
Qed.

Lemma orderBy_desc_perm l : orderBy_desc key l ≡ₚ l.
Proof.
  induction l as [|x l IH]; simpl; [done|].
  unfold orderBy_desc in *. simpl. rewrite insert_desc_perm. by rewrite IH.
Qed.

Lemma insert_desc_sorted x l :
  StronglySorted (descending key) l -> StronglySorted (descending key) (insert_desc key x l).
Proof.
  induction 1 as [|y l Hl IH Hy]; simpl.
  - repeat constructor.
  - destruct (Z.leb_spec (key y) (key x)) as [Hxy|Hxy].
    + constructor; [by constructor|].
      constructor; [done|].
      eapply Forall_impl; [exact Hy|]. unfold descending. intros; lia.
    + constructor; [done|].
      rewrite insert_desc_perm. constructor; [unfold descending; lia | done].
Qed.

Lemma orderBy_desc_sorted l : StronglySorted (descending key) (orderBy_desc key l).
Proof.
  induction l as [|x l IH]; [constructor|].
  unfold orderBy_desc in *. simpl. by apply insert_desc_sorted.
Qed.

End Sorting.
End LodashFacts.

(** ** The range algebra *)

Module RangeFacts.
Import Lodash Range LodashFacts.

Abbreviation by_start := (ascending start).

Lemma extend_start (c r : Range) :
  start (if end_ c <? end_ r then {| start := start c; end_ := end_ r |} else c) = start c.
Proof. by destruct (end_ c <? end_ r). Qed.

Lemma by_start_extend (c r : Range) rs :
  Forall (by_start c) rs ->
  Forall (by_start (if end_ c <? end_ r
                    then {| start := start c; end_ := end_ r |} else c)) rs.
Proof. destruct (end_ c <? end_ r); [|done]. intros H. eapply Forall_impl; [exact H|done]. Qed.

Lemma compress_loop_merge t rs c acc :
  compress_loop t rs (Some c) acc = acc ++ merge t c rs.
Proof.
  revert c acc. induction rs as [|r rs IH]; intros c acc; simpl; [done|].
  destruct (start r <=? end_ c + t * 1000).
  - apply IH.
  - rewrite IH. by rewrite <- app_assoc.
Qed.

Lemma compressRanges_merge ranges t :
  compressRanges ranges t =
  match Lodash.orderBy_asc start ranges with
  | [] => []
  | c :: rs => merge t c rs
  end.
Proof.
  unfold compressRanges. destruct (Lodash.orderBy_asc start ranges) as [|c rs]; [done|].
  simpl. by rewrite compress_loop_merge.
Qed.

(** Every range of the output starts at or after the accumulator. *)
Lemma merge_starts t c rs :
  Forall (by_start c) rs -> StronglySorted by_start rs ->
  Forall (by_start c) (merge t c rs).
Proof.
  revert c. induction rs as [|r rs IH]; intros c Hc Hs; simpl.
  - repeat constructor. unfold ascending; lia.
  - apply Forall_cons in Hc as [Hcr Hc]. apply StronglySorted_inv in Hs as [Hs Hr].
    destruct (start r <=? end_ c + t * 1000).
    + eapply Forall_impl; [apply IH; [by apply by_start_extend|done]|].
      unfold ascending. intros x. by rewrite extend_start.
    + constructor; [unfold ascending; lia|].
      eapply Forall_impl; [apply IH; done|].
      unfold ascending in *. intros; lia.
Qed.

Lemma merge_sorted t c rs :
  Forall (by_start c) rs -> StronglySorted by_start rs ->
  StronglySorted by_start (merge t c rs).
Proof.
  revert c. induction rs as [|r rs IH]; intros c Hc Hs; simpl.
  - repeat constructor.
  - apply Forall_cons in Hc as [Hcr Hc]. apply StronglySorted_inv in Hs as [Hs Hr].
    destruct (start r <=? end_ c + t * 1000).
    + apply IH; [by apply by_start_extend|done].
    + constructor; [by apply IH|].
      eapply Forall_impl; [apply merge_starts; done|].
      unfold ascending in *. intros; lia.
Qed.

Lemma merge_apart t c rs :
  Forall (by_start c) rs -> StronglySorted by_start rs ->
  StronglySorted (apart t) (merge t c rs).
Proof.
  revert c. induction rs as [|r rs IH]; intros c Hc Hs; simpl.
  - repeat constructor.
  - apply Forall_cons in Hc as [Hcr Hc]. apply StronglySorted_inv in Hs as [Hs Hr].
    destruct (Z.leb_spec (start r) (end_ c + t * 1000)).
    + apply IH; [by apply by_start_extend|done].
    + constructor; [by apply IH|].
      eapply Forall_impl; [apply merge_starts; done|].
      unfold ascending, apart in *. intros; lia.
Qed.

Lemma merge_valid t c rs :
  valid c -> Forall valid rs -> Forall valid (merge t c rs).
Proof.
  revert c. induction rs as [|r rs IH]; intros c Hc Hv; simpl.
  - by repeat constructor.
  - apply Forall_cons in Hv as [Hr Hv].
    destruct (start r <=? end_ c + t * 1000).
    + apply IH; [|done].
      destruct (Z.ltb_spec (end_ c) (end_ r)); [|done].
      unfold valid in *; simpl; lia.
    + constructor; [done|]. by apply IH.
Qed.

(** Without tolerance the output covers what the accumulator and the
    remaining ranges cover, and nothing else. *)
Lemma merge_covered c rs p :
  Forall (by_start c) rs -> StronglySorted by_start rs ->
  covered (merge 0 c rs) p <-> covered (c :: rs) p.
Proof.
  unfold covered. revert c. induction rs as [|r rs IH]; intros c Hc Hs; simpl; [done|].
  apply Forall_cons in Hc as [Hcr Hc]. apply StronglySorted_inv in Hs as [Hs Hr].
  unfold ascending in Hcr.
  destruct (Z.leb_spec (start r) (end_ c + 0 * 1000)) as [Hm|Hm].
  - rewrite IH by (by apply by_start_extend || done).
    rewrite !Exists_cons.
    destruct (Z.ltb_spec (end_ c) (end_ r)); unfold covers; simpl; intuition lia.
  - rewrite Exists_cons, IH by done. by rewrite !Exists_cons.
Qed.

(** A list whose ranges are apart is its own compression. *)
Lemma merge_id t c rs :
  StronglySorted (apart t) (c :: rs) -> merge t c rs = c :: rs.
Proof.
  revert c. induction rs as [|r rs IH]; intros c Hs; simpl; [done|].
  apply StronglySorted_inv in Hs as [Hs Hc].
  pose proof Hc as Hc'. apply Forall_cons in Hc' as [Hcr _]. unfold apart in Hcr.
  destruct (Z.leb_spec (start r) (end_ c + t * 1000)); [lia|].
  by rewrite IH.
Qed.

Lemma compressRanges_sorted ranges t : StronglySorted by_start (compressRanges ranges t).
Proof.
  rewrite compressRanges_merge.
  pose proof (orderBy_asc_sorted start ranges) as Hs.
  destruct (Lodash.orderBy_asc start ranges) as [|c rs]; [constructor|].
  apply StronglySorted_inv in Hs as [Hs Hc]. by apply merge_sorted.
Qed.

Lemma compressRanges_apart ranges t : StronglySorted (apart t) (compressRanges ranges t).
Proof.
  rewrite compressRanges_merge.
  pose proof (orderBy_asc_sorted start ranges) as Hs.
  destruct (Lodash.orderBy_asc start ranges) as [|c rs]; [constructor|].
  apply StronglySorted_inv in Hs as [Hs Hc]. by apply merge_apart.
Qed.

Lemma compressRanges_valid ranges t :
  Forall valid ranges -> Forall valid (compressRanges ranges t).
Proof.
  intros Hv. rewrite compressRanges_merge.
  rewrite <- (orderBy_asc_perm start ranges) in Hv.
  destruct (Lodash.orderBy_asc start ranges) as [|c rs]; [constructor|].
  apply Forall_cons in Hv as [Hc Hv]. by apply merge_valid.
Qed.

Lemma compressRanges_covered ranges p :
  covered (compressRanges ranges 0) p <-> covered ranges p.
Proof.
  transitivity (covered (Lodash.orderBy_asc start ranges) p).
  - rewrite compressRanges_merge.
    pose proof (orderBy_asc_sorted start ranges) as Hs.
    destruct (Lodash.orderBy_asc start ranges) as [|c rs]; [done|].
    apply StronglySorted_inv in Hs as [Hs Hc]. by apply merge_covered.
  - unfold covered. by rewrite (orderBy_asc_perm start ranges).
Qed.

(** Valid ranges that are apart are in strictly ascending order and
    pairwise disjoint. *)
Lemma apart_lookup rs i j a b :
  StronglySorted (apart 0) rs -> (i < j)%nat ->
  rs !! i = Some a -> rs !! j = Some b -> end_ a < start b.
Proof.
  intros Hs. revert i j. induction Hs as [|r rs Hs IH Hr]; intros i j Hij Hi Hj; [done|].
  destruct i as [|i], j as [|j]; try lia; simpl in *.
  - injection Hi as <-. rewrite Forall_forall in Hr.
    apply list_elem_of_lookup_2 in Hj. specialize (Hr _ Hj). unfold apart in Hr. lia.
  - eapply IH; [|done..]. lia.
Qed.

Lemma apart_valid_disjoint rs :
  StronglySorted (apart 0) rs -> Forall valid rs -> pairwise_disjoint rs.
Proof.
  intros Hs Hv i j a b Hij Hi Hj.
  pose proof (apart_lookup _ _ _ _ _ Hs Hij Hi Hj) as Hab.
  rewrite Forall_forall in Hv.
  pose proof (Hv _ (list_elem_of_lookup_2 _ _ _ Hi)) as Ha.
  pose proof (Hv _ (list_elem_of_lookup_2 _ _ _ Hj)) as Hb.
  unfold valid, rangesOverlap, covers in *.
  split; [|split].
  - rewrite !orb_false_iff, !andb_false_iff, !Z.leb_gt. lia.
  - rewrite !orb_false_iff, !andb_false_iff, !Z.leb_gt. lia.
  - intros p. lia.
Qed.

Lemma apart_valid_strict rs :
  StronglySorted (apart 0) rs -> Forall valid rs ->
  StronglySorted (fun a b => start a < start b) rs.
Proof.
  induction 1 as [|r rs Hs IH Hr]; intros Hv; [constructor|].
  apply Forall_cons in Hv as [Hvr Hv]. constructor; [by apply IH|].
  eapply Forall_impl; [exact Hr|]. unfold apart, valid in *. intros; lia.
Qed.

Example compressRanges_overlapping :
  compressRanges [mkRange 5 9; mkRange 0 3; mkRange 2 6; mkRange 20 30; mkRange 9 9] 0
  = [mkRange 0 9; mkRange 20 30].
Proof. reflexivity. Qed.

Example compressRanges_tolerance :
  compressRanges [mkRange 0 1000; mkRange 1500 2000; mkRange 9000 9500] 1
  = [mkRange 0 2000; mkRange 9000 9500].
Proof. reflexivity. Qed.

(** C5: for every list of valid ranges, [compressRanges] with tolerance 0
    returns ranges in strictly ascending order that are pairwise
    non-overlapping and whose union is exactly the union of the input: an
    instant lies in some range of the output if and only if it lies in some
    range of the input. *)
Theorem compressRanges_exact_cover (ranges : list Range) :
  Forall valid ranges ->
  StronglySorted (fun a b => start a < start b) (compressRanges ranges 0)
  /\ pairwise_disjoint (compressRanges ranges 0)
  /\ forall p, covered (compressRanges ranges 0) p <-> covered ranges p.
Proof.
  intros Hv.
  pose proof (compressRanges_apart ranges 0) as Ha.
  pose proof (compressRanges_valid ranges 0 Hv) as Hv'.
  split; [by apply apart_valid_strict|].
  split; [by apply apart_valid_disjoint|].
  intros p. apply compressRanges_covered.
Qed.

Lemma compressRanges_exact_cover_witness :
  Forall valid [mkRange 5 9; mkRange 0 3; mkRange 2 6; mkRange 20 30]
  /\ (StronglySorted (fun a b => start a < start b)
        (compressRanges [mkRange 5 9; mkRange 0 3; mkRange 2 6; mkRange 20 30] 0)
      /\ pairwise_disjoint
           (compressRanges [mkRange 5 9; mkRange 0 3; mkRange 2 6; mkRange 20 30] 0)
      /\ forall p,
           covered (compressRanges [mkRange 5 9; mkRange 0 3; mkRange 2 6; mkRange 20 30] 0) p
           <-> covered [mkRange 5 9; mkRange 0 3; mkRange 2 6; mkRange 20 30] p).
Proof.
  assert (Hv : Forall valid [mkRange 5 9; mkRange 0 3; mkRange 2 6; mkRange 20 30]).
  { repeat constructor; unfold valid; simpl; lia. }
  split; [exact Hv|].
  exact (compressRanges_exact_cover _ Hv).
Defined.

(** C6: [compressRanges] is idempotent: compressing its own output again,
    with the same tolerance, returns that output unchanged, range by range;
    this holds for every list of ranges, valid or not, in any order. *)
Theorem compressRanges_idempotent (ranges : list Range) (toleranceSeconds : Z) :
  compressRanges (compressRanges ranges toleranceSeconds) toleranceSeconds
  = compressRanges ranges toleranceSeconds.
Proof.
  pose proof (compressRanges_sorted ranges toleranceSeconds) as Hs.
  pose proof (compressRanges_apart ranges toleranceSeconds) as Ha.
  rewrite (compressRanges_merge (compressRanges ranges toleranceSeconds)).
  rewrite (orderBy_asc_id start _ Hs).
  destruct (compressRanges ranges toleranceSeconds) as [|c rs]; [done|].
  by apply merge_id.
Qed.

End RangeFacts.

(** ** Reasoning about calls of the engine *)

Module AsyncFacts.
Import Types Cache Async.
Local Open Scope async_scope.

Lemma triple_ret {A} (P : State -> Prop) (a : A) Q R :
  (forall s, P s -> Q a s) -> triple P (ret a) Q R.
Proof. intros H s Hs. simpl. auto. Qed.

Lemma triple_throw {A} (P : State -> Prop) e (Q : A -> State -> Prop) (R : State -> Prop) :
  (forall s, P s -> R s) -> triple P (throw e) Q R.
Proof. intros H s Hs. simpl. auto. Qed.

Lemma triple_gets {A} (P : State -> Prop) (f : State -> A) Q R :
  (forall s, P s -> Q (f s) s) -> triple P (gets f) Q R.
Proof. intros H s Hs. simpl. auto. Qed.

Lemma triple_modify (P : State -> Prop) (f : State -> State) Q R :
  (forall s, P s -> Q tt (f s)) -> triple P (modify f) Q R.
Proof. intros H s Hs. simpl. auto. Qed.

Lemma triple_bind {A B} (P : State -> Prop) (c : Async A) (k : A -> Async B)
    (Q1 : A -> State -> Prop) Q R :
  triple P c Q1 R -> (forall a, triple (Q1 a) (k a) Q R) -> triple P (bind c k) Q R.
Proof.
  intros Hc Hk s Hs. unfold bind. specialize (Hc s Hs).
  destruct (c s) as [[a|e] s']; [|done]. by apply Hk.
Qed.

Lemma triple_weaken {A} (P P' : State -> Prop) (c : Async A)
    (Q Q' : A -> State -> Prop) (R R' : State -> Prop) :
  triple P' c Q' R' ->
  (forall s, P s -> P' s) -> (forall a s, Q' a s -> Q a s) -> (forall s, R' s -> R s) ->
  triple P c Q R.
Proof.
  intros Hc HP HQ HR s Hs. specialize (Hc s (HP s Hs)).
  destruct (c s) as [[a|e] s']; auto.
Qed.

(** A property [I] of the output and a property [J] of the state that every
    branch maintains are maintained by the joint wait. *)
Lemma triple_Promise_all {O} (I : O -> Prop) (J : State -> Prop)
    (branches : list (O -> Async O)) (output : O) :
  Forall (fun branch =>
    forall o, I o -> triple J (branch o) (fun o' s => I o' /\ J s) J) branches ->
  I output ->
  triple J (Promise_all branches output) (fun o' s => I o' /\ J s) J.
Proof.
  intros Hbs. revert output.
  induction Hbs as [|branch rest Hb Hrest IH]; intros output Ho s Hs; simpl; [done|].
  specialize (Hb output Ho s Hs).
  destruct (branch output s) as [[o'|e] s'].
  - destruct Hb as [Ho' Hs']. by apply IH.
  - specialize (IH output Ho s' Hb).
    destruct (Promise_all rest output s') as [[o''|e'] s'']; simpl; [tauto|done].
Qed.

(** What the call returned and the state it left, when it did return. *)
Lemma bind_returned {A B} (c : Async A) (k : A -> Async B) s b s' :
  bind c k s = (Returned b, s') <->
  exists a s1, c s = (Returned a, s1) /\ k a s1 = (Returned b, s').
Proof.
  unfold bind. destruct (c s) as [[a|e] s1]; split.
  - eauto.
  - by intros (? & ? & [= <- <-] & ?).
  - done.
  - by intros (? & ? & [=] & ?).
Qed.

Lemma sentSince_refl P s : sentSince P s s.
Proof. exists []. by rewrite app_nil_r. Qed.

Lemma sentSince_with_sent P s0 s request :
  sentSince P s0 s -> P request -> sentSince P s0 (with_sent request s).
Proof.
  intros (new & Hnew & HP) Hr. exists (new ++ [request]). simpl.
  rewrite Hnew, app_assoc. split; [done|].
  apply Forall_app. by repeat constructor.
Qed.

Lemma triple_request {T} P s0 hass (schema : WSResponse -> option T) request :
  P request ->
  triple (sentSince P s0) (homeAssistantWSRequest hass schema request)
    (fun _ => sentSince P s0) (sentSince P s0).
Proof.
  intros Hr s Hs. unfold homeAssistantWSRequest, bind, modify.
  pose proof (sentSince_with_sent _ _ _ _ Hs Hr) as Hs'.
  destruct (callWS hass request) as [response|]; [|done].
  destruct (schema response); done.
Qed.

(** The answer of the backend decides the call. *)
Lemma request_answered {T} hass (schema : WSResponse -> option T) request response payload s :
  callWS hass request = Some response -> schema response = Some payload ->
  homeAssistantWSRequest hass schema request s = (Returned payload, with_sent request s).
Proof.
  intros Hc Hp. unfold homeAssistantWSRequest, bind, modify. by rewrite Hc, Hp.
Qed.

End AsyncFacts.

(** ** Days of the month and hour identities *)

Module CalendarFacts.
Import DateFns CalendarNotions.

Lemma day_of_month_period z n : day_of_month (z + n * 146097) = day_of_month z.
Proof.
  unfold day_of_month. cbv zeta.
  replace (z + n * 146097 + 719468) with (z + 719468 + n * 146097) by lia.
  rewrite Z.div_add by lia.
  replace (z + 719468 + n * 146097 - ((z + 719468) / 146097 + n) * 146097)
    with (z + 719468 - (z + 719468) / 146097 * 146097) by lia.
  reflexivity.
Qed.

Lemma daysFrom_lookup n day i :
  (i < n)%nat -> daysFrom n day !! i = Some (day_of_month (day + Z.of_nat i)).
Proof.
  revert day i. induction n as [|n IH]; intros day i Hi; [lia|].
  destruct i as [|i]; simpl.
  - by rewrite Z.add_0_r.
  - rewrite IH by lia. do 2 f_equal. lia.
Qed.

Lemma distinctAhead_spec l i k x y :
  distinctAhead l = true -> (1 <= k <= 27)%nat ->
  l !! i = Some x -> l !! (i + k)%nat = Some y -> x <> y.
Proof.
  revert i. induction l as [|z l IH]; intros i Hl Hk Hx Hy; [done|].
  simpl in Hl. apply andb_true_iff in Hl as [Hz Hl].
  destruct i as [|i]; simpl in *.
  - injection Hx as ->. destruct k as [|k]; [lia|]. simpl in Hy.
    rewrite forallb_forall in Hz.
    assert (Hin : y ∈ take 27 l).
    { apply elem_of_take. exists k. split; [done|lia]. }
    apply list_elem_of_In, Hz, negb_true_iff, Z.eqb_neq in Hin. done.
  - by apply (IH i).
Qed.

(** The days of the month of the 146097 days of a cycle of 400 years, and
    of the 27 days after it. *)
Lemma era_distinct : distinctAhead (daysFrom (Z.to_nat (146097 + 27)) (-719468)) = true.
Proof. vm_compute. reflexivity. Qed.

Lemma day_of_month_later z k : 1 <= k <= 27 -> day_of_month z <> day_of_month (z + k).
Proof.
  intros Hk.
  pose proof (Z.div_mod (z + 719468) 146097 ltac:(lia)) as Hdm.
  pose proof (Z.mod_pos_bound (z + 719468) 146097 ltac:(lia)) as Hb.
  set (era := (z + 719468) / 146097) in *. set (doe := (z + 719468) mod 146097) in *.
  replace z with (-719468 + doe + era * 146097) by lia.
  replace (-719468 + doe + era * 146097 + k) with (-719468 + (doe + k) + era * 146097)
    by lia.
  rewrite !day_of_month_period.
  apply (distinctAhead_spec _ (Z.to_nat doe) (Z.to_nat k) _ _ era_distinct); [lia|..].
  - rewrite daysFrom_lookup by lia. do 2 f_equal. lia.
  - rewrite daysFrom_lookup by lia. do 2 f_equal. lia.
Qed.

(** Two days less than 28 days apart that have the same day of the month are
    the same day. *)
Lemma day_of_month_apart z1 z2 :
  day_of_month z1 = day_of_month z2 -> -28 < z1 - z2 < 28 -> z1 = z2.
Proof.
  intros Hd Hz. destruct (Z.lt_trichotomy z1 z2) as [Hlt|[Heq|Hgt]]; [|done|].
  - destruct (day_of_month_later z1 (z2 - z1)); [lia|].
    by replace (z1 + (z2 - z1)) with z2 by lia.
  - destruct (day_of_month_later z2 (z1 - z2)); [lia|].
    by replace (z2 + (z1 - z2)) with z1 by lia.
Qed.

Lemma app_String x a b : String x a +:+ b = String x (a +:+ b).
Proof. reflexivity. Qed.

Lemma app_EmptyString b : EmptyString +:+ b = b.
Proof. reflexivity. Qed.

Lemma string_app_assoc a b c : (a +:+ b) +:+ c = a +:+ (b +:+ c).
Proof.
  induction a as [|x a IH]; [by rewrite !app_EmptyString|].
  by rewrite !app_String, IH.
Qed.

Lemma slashFree_app a b : slashFree (a +:+ b) = slashFree a && slashFree b.
Proof.
  induction a as [|x a IH]; [by rewrite app_EmptyString|].
  rewrite app_String. cbn [slashFree]. by rewrite IH, andb_assoc.
Qed.

Lemma pretty_N_go_slashFree x s :
  slashFree s = true -> slashFree (pretty_N_go x s) = true.
Proof.
  revert s. induction (N.lt_wf_0 x) as [x _ IH]; intros s Hs.
  destruct (decide (x = 0%N)) as [->|Hx]; [by rewrite pretty_N_go_0|].
  rewrite pretty_N_go_step by lia. apply IH; [apply N.div_lt; lia|].
  cbn [slashFree]. rewrite Hs, andb_true_r. unfold pretty_N_char. by repeat case_match.
Qed.

Lemma pretty_Z_slashFree (z : Z) : slashFree (pretty z) = true.
Proof.
  assert (Hp : forall p : positive, slashFree (pretty p) = true).
  { intros p. unfold pretty, pretty_positive, pretty, pretty_N.
    destruct (decide (N.pos p = 0%N)); [done|]. by apply pretty_N_go_slashFree. }
  destruct z as [|p|p]; [done|apply Hp|].
  unfold pretty, pretty_Z. rewrite slashFree_app. by rewrite Hp.
Qed.

(** A string is cut in one way at its last slash. *)
Lemma last_slash_inj a b p q :
  slashFree p = true -> slashFree q = true ->
  a +:+ String (Ascii.ascii_of_nat 47) p = b +:+ String (Ascii.ascii_of_nat 47) q ->
  a = b /\ p = q.
Proof.
  intros Hp Hq.
  assert (Hno : forall c r, slashFree (c +:+ String (Ascii.ascii_of_nat 47) r) = false).
  { intros c r. rewrite slashFree_app. cbn [slashFree]. simpl. by rewrite andb_false_r. }
  revert b. induction a as [|x a IH]; intros [|y b];
    rewrite ?app_EmptyString, ?app_String; intros Heq.
  - by injection Heq as <-.
  - injection Heq as <- ->. by rewrite Hno in Hp.
  - injection Heq as -> <-. by rewrite Hno in Hq.
  - injection Heq as -> Heq. by destruct (IH b Heq) as [-> ->].
Qed.

End CalendarFacts.

(** ** The federation engine *)

Module EngineFacts.
Import Types Cache Async AsyncFacts FrigateCameraManagerEngine.
Local Open Scope async_scope.

Lemma nonEmptyOrNull_None {K V} (m : JS.Map K V) : JS.nonEmptyOrNull m = None <-> m = [].
Proof. by destruct m. Qed.

Lemma nonEmptyOrNull_Some {K V} (m m' : JS.Map K V) :
  JS.nonEmptyOrNull m = Some m' -> m' = m /\ m' <> [].
Proof. destruct m; [done|]. by intros [= <-]. Qed.

Section WithExternals.
Context `{!Externals}.

(** *** The limit of native event queries *)

Lemma nativeEventQuery_limit store query instanceID cameraIDs :
  carriesLimit query (events_get (nativeEventQuery store query instanceID cameraIDs)).
Proof. eexists. split; [done|]. simpl. by destruct (event_limit query). Qed.

Lemma requestCache_get_sends P s0 useCache request :
  triple (sentSince P s0) (requestCache_get useCache request)
    (fun _ => sentSince P s0) (sentSince P s0).
Proof. destruct useCache; [by apply triple_gets | by apply triple_ret]. Qed.

Lemma requestCache_set_sends P s0 useCache request result expiry :
  triple (sentSince P s0) (requestCache_set useCache request result expiry)
    (fun _ => sentSince P s0) (sentSince P s0).
Proof. destruct useCache; [by apply triple_modify | by apply triple_ret]. Qed.

Lemma processInstanceQuery_sends hass store query engineOptions instanceID cameraIDs output s0 :
  triple (sentSince (carriesLimit query) s0)
    (processInstanceQuery hass store query engineOptions instanceID cameraIDs output)
    (fun _ => sentSince (carriesLimit query) s0) (sentSince (carriesLimit query) s0).
Proof.
  unfold processInstanceQuery.
  destruct cameraIDs as [[|cameraID cameraIDs]|]; try by apply triple_ret.
  eapply triple_bind; [apply requestCache_get_sends|].
  intros [cachedResult|]; [by apply triple_ret|].
  eapply triple_bind.
  { apply triple_request. apply nativeEventQuery_limit. }
  intros events. eapply triple_bind with (Q1 := fun _ => sentSince _ s0).
  { by apply triple_gets. }
  intros date. eapply triple_bind; [apply requestCache_set_sends|].
  intros ?. by apply triple_ret.
Qed.

Lemma eventsOutput_sends hass store query engineOptions s0 :
  triple (sentSince (carriesLimit query) s0) (eventsOutput hass store query engineOptions)
    (fun _ => sentSince (carriesLimit query) s0) (sentSince (carriesLimit query) s0).
Proof.
  unfold eventsOutput.
  eapply triple_weaken.
  - apply (triple_Promise_all (fun _ => True)); [|done].
    apply Forall_fmap, Forall_true. intros instanceID o _. simpl.
    eapply triple_weaken; [apply processInstanceQuery_sends|..]; done.
  - done.
  - by intros ? ? [_ ?].
  - done.
Qed.

(** C10: every message that [getEvents] sends to the backend is a native
    event query that carries a [limit]: the limit of the caller's query when
    it has one, and the default event limit of the engine otherwise.  The
    messages sent by a call are those added to the ones sent before it. *)
Theorem getEvents_native_limit (hass : HomeAssistant)
    (store : CameraManagerReadOnlyConfigStore) (query : EventQuery)
    (engineOptions : option EngineOptions) (s : State) :
  exists new,
    sent (snd (getEvents hass store query engineOptions s)) = sent s ++ new
    /\ Forall (carriesLimit query) new.
Proof.
  assert (Ht : triple (sentSince (carriesLimit query) s)
                 (getEvents hass store query engineOptions)
                 (fun _ => sentSince (carriesLimit query) s)
                 (sentSince (carriesLimit query) s)).
  { unfold getEvents. eapply triple_bind; [apply eventsOutput_sends|].
    intros output. by apply triple_ret. }
  specialize (Ht s (sentSince_refl _ s)).
  destruct (getEvents hass store query engineOptions s) as [[r|e] s']; exact Ht.
Qed.

(** *** Null and the empty map *)

Lemma Promise_all_nil {O} (output : O) s :
  Promise_all [] output s = (Returned output, s).
Proof. done. Qed.

Lemma buildInstanceMap_unqueryable store cameraIDs :
  Forall (fun cameraID => _getQueryableCameraConfig store cameraID = None) cameraIDs ->
  _buildInstanceToCameraIDMapFromQuery store cameraIDs = [].
Proof.
  unfold _buildInstanceToCameraIDMapFromQuery. intros Hc.
  generalize (@nil (string * list string)).
  induction Hc as [|cameraID cameraIDs Hc _ IH]; intros output; simpl; [done|].
  by rewrite Hc, IH.
Qed.

(** Branches that return at once, with the output and the state as they
    found them, leave both as they are. *)
Lemma Promise_all_skip {A O} (branch : A -> O -> Async O) (xs : list A) (output : O) s :
  Forall (fun x => forall o, branch x o s = (Returned o, s)) xs ->
  Promise_all (branch <$> xs) output s = (Returned output, s).
Proof.
  induction 1 as [|x xs Hx _ IH]; simpl; [done|]. by rewrite Hx.
Qed.

Lemma triple_any {A} (P : State -> Prop) (c : Async A) :
  triple P c (fun _ _ => True) (fun _ => True).
Proof. intros s _. by destruct (c s) as [[?|?] ?]. Qed.

Lemma nullIffEmpty_bind {K V} (merged : Async (JS.Map K V)) :
  nullIffEmpty merged (let! output := merged in ret (JS.nonEmptyOrNull output)).
Proof.
  split.
  - intros s output s' Hm. unfold bind. by rewrite Hm.
  - intros s r s' Hr. apply bind_returned in Hr as (output & s1 & Hm & Hret).
    injection Hret as <- <-. exists output. split; [done|].
    split; [apply nonEmptyOrNull_None | apply nonEmptyOrNull_Some].
Qed.

Lemma getMediaMetadata_singleton hass store query engineOptions :
  triple (fun _ => True) (getMediaMetadata hass store query engineOptions)
    (fun r _ => exists result, r = Some [(query, result)]) (fun _ => True).
Proof.
  unfold getMediaMetadata.
  eapply triple_bind; [apply triple_any|].
  intros [cachedResult|].
  - apply triple_ret. intros; simpl. eauto.
  - eapply triple_bind; [apply triple_any|]. intros sets.
    eapply triple_bind; [apply triple_any|]. intros date.
    eapply triple_bind; [apply triple_any|]. intros ?.
    apply triple_ret. intros; simpl. eauto.
Qed.

(** C2, as the code has it: [getEvents], [getRecordings] and
    [getRecordingSegments] return null exactly when their merged output map
    is empty, and a map they return is never empty; they return null for an
    empty camera set, and when no camera resolves to a sub-query (for
    [getRecordings], when in addition the request cache has no entry for the
    cameras).  [getMediaMetadata] never returns null: whenever it returns,
    also for an empty camera set, the result is a map with the one entry of
    the query itself. *)
Theorem federated_null_iff_empty_output (hass : HomeAssistant)
    (store : CameraManagerReadOnlyConfigStore) (engineOptions : option EngineOptions)
    (eventQuery : EventQuery) (recordingQuery : RecordingQuery)
    (segmentsQuery : RecordingSegmentsQuery) (metadataQuery : MediaMetadataQuery)
    (s : State) :
  (nullIffEmpty (eventsOutput hass store eventQuery engineOptions)
     (getEvents hass store eventQuery engineOptions)
   /\ nullIffEmpty (recordingsOutput hass store recordingQuery engineOptions)
        (getRecordings hass store recordingQuery engineOptions)
   /\ nullIffEmpty (recordingSegmentsOutput hass store segmentsQuery engineOptions)
        (getRecordingSegments hass store segmentsQuery engineOptions))
  /\ (getEvents hass store (event_with_cameraIDs eventQuery []) engineOptions s
        = (Returned None, s)
      /\ getRecordings hass store (recording_with_cameraIDs recordingQuery []) engineOptions s
           = (Returned None, s)
      /\ getRecordingSegments hass store (segments_with_cameraIDs segmentsQuery [])
           engineOptions s = (Returned None, s))
  /\ ((Forall (fun cameraID => _getQueryableCameraConfig store cameraID = None)
         (event_cameraIDs eventQuery) ->
       getEvents hass store eventQuery engineOptions s = (Returned None, s))
      /\ (Forall (fun cameraID =>
            namedCameraConfig store cameraID = None
            /\ requestCache_get (useCacheOrDefault engineOptions)
                 (QRecording (recording_with_cameraIDs recordingQuery [cameraID])) s
               = (Returned None, s))
            (recording_cameraIDs recordingQuery) ->
          getRecordings hass store recordingQuery engineOptions s = (Returned None, s))
      /\ (Forall (fun cameraID => namedCameraConfig store cameraID = None)
            (segments_cameraIDs segmentsQuery) ->
          getRecordingSegments hass store segmentsQuery engineOptions s
            = (Returned None, s)))
  /\ (forall r s', getMediaMetadata hass store metadataQuery engineOptions s = (Returned r, s') ->
        exists result, r = Some [(metadataQuery, result)]).
Proof.
  split; [|split; [|split]].
  - repeat split; apply nullIffEmpty_bind.
  - done.
  - split; [|split].
    + intros Hc. unfold getEvents, eventsOutput, bind.
      by rewrite (buildInstanceMap_unqueryable _ _ Hc).
    + intros Hc. unfold getRecordings, recordingsOutput, bind.
      rewrite Promise_all_skip; [done|].
      eapply Forall_impl; [exact Hc|]. intros cameraID [Hn Hg] o.
      unfold processRecordingQuery, bind. by rewrite Hg, Hn.
    + intros Hc. unfold getRecordingSegments, recordingSegmentsOutput, bind.
      rewrite Promise_all_skip; [done|].
      eapply Forall_impl; [exact Hc|]. intros cameraID Hn o.
      unfold processRecordingSegmentsQuery. by rewrite Hn.
  - intros r s' Hr.
    pose proof (getMediaMetadata_singleton hass store metadataQuery engineOptions s I) as Ht.
    by rewrite Hr in Ht.
Qed.

(** *** Media type of an event *)

(** C8: in [generateMediaFromEvents] the media type of an event is resolved
    as follows.  If the query requests neither clips nor snapshots and the
    event offers at least one, the type is clip when the event has a clip and
    snapshot otherwise.  If the query requests snapshots and the event has a
    snapshot, the type is snapshot; if the query requests clips and the event
    has a clip (and a requested snapshot is not on offer), the type is clip;
    so an event resolves to a requested type only when it offers it.  The
    media item of an event is the one made with the resolved type, and every
    media item of the projection is made with the resolved type of its
    event.  In all other cases there is no type, the event yields no media
    item, and it is left out of the list that the projection returns: the
    projection of a Frigate event result always returns a list. *)
Theorem event_media_type_resolution (store : CameraManagerReadOnlyConfigStore)
    (query : EventQuery) (instanceID : string) (event : FrigateEvent) :
  (isSet (hasClip query) = false -> isSet (hasSnapshot query) = false ->
     has_clip event || has_snapshot event = true ->
     resolveMediaType query event = Some (if has_clip event then clip else snapshot))
  /\ (isSet (hasSnapshot query) = true -> has_snapshot event = true ->
        resolveMediaType query event = Some snapshot)
  /\ (isSet (hasClip query) = true -> has_clip event = true ->
        isSet (hasSnapshot query) && has_snapshot event = false ->
        resolveMediaType query event = Some clip)
  /\ (isSet (hasClip query) || isSet (hasSnapshot query) = true ->
        (resolveMediaType query event = Some snapshot ->
           isSet (hasSnapshot query) = true /\ has_snapshot event = true)
        /\ (resolveMediaType query event = Some clip ->
              isSet (hasClip query) = true /\ has_clip event = true))
  /\ resolveMediaType query event <> Some recording
  /\ (resolveMediaType query event = None <->
        (negb (isSet (hasClip query)) && negb (isSet (hasSnapshot query))
           && (has_clip event || has_snapshot event))
        || (isSet (hasSnapshot query) && has_snapshot event)
        || (isSet (hasClip query) && has_clip event) = false)
  /\ (forall mediaType,
        resolveMediaType query event = Some mediaType ->
        EngineNotions.createdAs store query instanceID event mediaType)
  /\ (forall events expiry cached media,
        generateMediaFromEvents store query
          (EventQueryResults Frigate instanceID events expiry cached) = Some media ->
        Forall (fun item =>
          exists event' mediaType cameraID cameraConfig,
            event' ∈ events
            /\ resolveMediaType query event' = Some mediaType
            /\ createEventViewMedia mediaType cameraID cameraConfig event'
                 (EngineNotions.subLabelsOf event') = Some item) media)
  /\ (resolveMediaType query event = None ->
        mediaFromEvent store query instanceID event = None
        /\ forall before after expiry cached,
             generateMediaFromEvents store query
               (EventQueryResults Frigate instanceID (before ++ event :: after) expiry cached)
             = generateMediaFromEvents store query
                 (EventQueryResults Frigate instanceID (before ++ after) expiry cached))
  /\ (forall events expiry cached,
        generateMediaFromEvents store query
          (EventQueryResults Frigate instanceID events expiry cached)
        = Some (omap (mediaFromEvent store query instanceID) events)).
Proof.
  assert (Hnone : resolveMediaType query event = None ->
                  mediaFromEvent store query instanceID event = None).
  { intros Hr. unfold mediaFromEvent. rewrite Hr.
    destruct (_getCameraIDMatch _ _ _ _) as [cameraID|]; [|done].
    destruct (negb (JS.truthy cameraID)); [done|].
    by destruct (_getQueryableCameraConfig store cameraID). }
  assert (Hcreated : forall mediaType,
            resolveMediaType query event = Some mediaType ->
            EngineNotions.createdAs store query instanceID event mediaType).
  { intros mediaType Hr cameraID cameraConfig Hmatch Htruthy Hconfig.
    unfold mediaFromEvent. by rewrite Hmatch, Htruthy, Hconfig, Hr. }
  assert (Hitems : forall events expiry cached media,
            generateMediaFromEvents store query
              (EventQueryResults Frigate instanceID events expiry cached) = Some media ->
            Forall (fun item =>
              exists event' mediaType cameraID cameraConfig,
                event' ∈ events
                /\ resolveMediaType query event' = Some mediaType
                /\ createEventViewMedia mediaType cameraID cameraConfig event'
                     (EngineNotions.subLabelsOf event') = Some item) media).
  { intros events expiry cached media [= <-]. apply Forall_forall. intros item Hitem.
    apply list_elem_of_omap in Hitem as (event' & Hin & Hmedia).
    unfold mediaFromEvent in Hmedia.
    destruct (_getCameraIDMatch _ _ _ _) as [cameraID|]; [|done].
    destruct (negb (JS.truthy cameraID)); [done|].
    destruct (_getQueryableCameraConfig store cameraID) as [cameraConfig|]; [|done].
    destruct (resolveMediaType query event') as [mediaType|] eqn:Hr; [|done].
    by exists event', mediaType, cameraID, cameraConfig. }
  assert (Hleft : resolveMediaType query event = None ->
            mediaFromEvent store query instanceID event = None
            /\ forall before after expiry cached,
                 generateMediaFromEvents store query
                   (EventQueryResults Frigate instanceID (before ++ event :: after) expiry
                      cached)
                 = generateMediaFromEvents store query
                     (EventQueryResults Frigate instanceID (before ++ after) expiry cached)).
  { intros Hr. split; [by apply Hnone|]. intros before after expiry cached.
    unfold generateMediaFromEvents. simpl. rewrite !omap_app. simpl. by rewrite Hnone. }
  assert (Hresolve :
    (isSet (hasClip query) = false -> isSet (hasSnapshot query) = false ->
       has_clip event || has_snapshot event = true ->
       resolveMediaType query event = Some (if has_clip event then clip else snapshot))
    /\ (isSet (hasSnapshot query) = true -> has_snapshot event = true ->
          resolveMediaType query event = Some snapshot)
    /\ (isSet (hasClip query) = true -> has_clip event = true ->
          isSet (hasSnapshot query) && has_snapshot event = false ->
          resolveMediaType query event = Some clip)
    /\ (isSet (hasClip query) || isSet (hasSnapshot query) = true ->
          (resolveMediaType query event = Some snapshot ->
             isSet (hasSnapshot query) = true /\ has_snapshot event = true)
          /\ (resolveMediaType query event = Some clip ->
                isSet (hasClip query) = true /\ has_clip event = true))
    /\ resolveMediaType query event <> Some recording
    /\ (resolveMediaType query event = None <->
          (negb (isSet (hasClip query)) && negb (isSet (hasSnapshot query))
             && (has_clip event || has_snapshot event))
          || (isSet (hasSnapshot query) && has_snapshot event)
          || (isSet (hasClip query) && has_clip event) = false)).
  { unfold resolveMediaType.
    destruct (isSet (hasClip query)), (isSet (hasSnapshot query)),
      (has_clip event), (has_snapshot event); simpl;
      repeat split; try done; intros; discriminate. }
  destruct Hresolve as (H1 & H2 & H3 & H4 & H5 & H6).
  split; [exact H1|]. split; [exact H2|]. split; [exact H3|]. split; [exact H4|].
  split; [exact H5|]. split; [exact H6|]. split; [exact Hcreated|].
  split; [exact Hitems|]. split; [exact Hleft|].
  intros events expiry cached. reflexivity.
Qed.

(** *** Retaining an event *)

(** C9: when the backend answers a retain request with [success = false],
    [retainEvent] throws a [FrigateCardError] that carries the request and
    the response, and [favoriteMedia] throws it in turn and leaves the media
    object as it was; when the backend answers with success, [favoriteMedia]
    returns and has set the favorite flag of the media to the requested
    value.  The media is a Frigate event, the only kind that [favoriteMedia]
    sends a request for. *)
Theorem retain_failure_is_catchable (hass : HomeAssistant) (cameraConfig : CameraConfig)
    (media : ViewMedia) (favorite : bool) (s : State) (response : RetainResult) :
  callWS hass (event_retain (client_id cameraConfig) (getID media) favorite)
    = Some (RetainResultPayload response) ->
  isFrigateEvent media = true ->
  let request := event_retain (client_id cameraConfig) (getID media) favorite in
  let error := FrigateCardError (localize "error.failed_retain") request response in
  (success response = false ->
     Requests.retainEvent hass (client_id cameraConfig) (getID media) favorite s
       = (Thrown error, with_sent request s)
     /\ favoriteMedia hass cameraConfig media favorite s
          = (Thrown error, media, with_sent request s))
  /\ (success response = true ->
        favoriteMedia hass cameraConfig media favorite s
          = (Returned tt, setFavorite media favorite, with_sent request s)
        /\ isFavorite (setFavorite media favorite) = Some favorite).
Proof.
  intros Hws Hevent request error.
  assert (Hretain :
    Requests.retainEvent hass (client_id cameraConfig) (getID media) favorite s
    = if success response then (Returned tt, with_sent request s)
      else (Thrown error, with_sent request s)).
  { unfold Requests.retainEvent, bind.
    rewrite (request_answered _ _ _ _ response _ Hws eq_refl).
    by destruct (success response). }
  unfold favoriteMedia. rewrite Hevent, Hretain. simpl.
  split; intros ->; done.
Qed.

(** *** Seek time *)

Lemma seekLoop_overlapSum mediaStart target segments seekMilliseconds :
  mediaStart <= target ->
  Forall (reachesMedia mediaStart) segments ->
  seekLoop mediaStart target segments seekMilliseconds
  = seekMilliseconds + overlapSum mediaStart target segments.
Proof.
  intros HST Hs. revert seekMilliseconds.
  induction Hs as [|segment rest [Hwf Hend] _ IH]; intros acc; simpl; [lia|].
  destruct (Z.ltb_spec target (fromUnixTime (start_time segment))); [lia|].
  rewrite IH. unfold overlapMilliseconds, fromUnixTime, MS_PER_SECOND in *.
  destruct (Z.ltb_spec (start_time segment * 1000) mediaStart),
    (Z.ltb_spec target (end_time segment * 1000)); lia.
Qed.


(** *** Recordings *)

Lemma expandRecordingSummary_elem cameraID query summary recording :
  recording ∈ expandRecordingSummary cameraID query summary <->
  exists dayData hourData,
    dayData ∈ summary /\ hourData ∈ hours dayData
    /\ recording = hourRecording cameraID dayData hourData
    /\ withinBounds query recording.
Proof.
  unfold expandRecordingSummary. rewrite list_elem_of_In, in_flat_map. split.
  - intros (dayData & Hd & Hin). apply in_flat_map in Hin as (hourData & Hh & Hin).
    exists dayData, hourData. rewrite !list_elem_of_In.
    split; [done|]. split; [done|].
    destruct (_ && _) eqn:Hb; [|by destruct Hin].
    destruct Hin as [<-|[]]. split; [done|].
    apply andb_true_iff in Hb as [Hs He]. unfold withinBounds. simpl. split.
    + intros start Hq. rewrite Hq in Hs. lia.
    + intros end_ Hq. rewrite Hq in He. lia.
  - intros (dayData & hourData & Hd & Hh & -> & Hs & He).
    exists dayData. rewrite <- list_elem_of_In. split; [done|].
    apply in_flat_map. exists hourData. rewrite <- list_elem_of_In. split; [done|].
    unfold hourRecording in *. simpl in *.
    destruct (recording_start query) as [start|], (recording_end query) as [end_|];
      simpl.
    + specialize (Hs _ eq_refl). specialize (He _ eq_refl).
      destruct (Z.leb_spec start (startOfHour utcOffset (add_hours (day dayData) (hour hourData))));
        [|lia].
      destruct (Z.leb_spec (endOfHour utcOffset (add_hours (day dayData) (hour hourData))) end_);
        [|lia].
      by left.
    + specialize (Hs _ eq_refl).
      destruct (Z.leb_spec start (startOfHour utcOffset (add_hours (day dayData) (hour hourData))));
        [|lia].
      by left.
    + specialize (He _ eq_refl).
      destruct (Z.leb_spec (endOfHour utcOffset (add_hours (day dayData) (hour hourData))) end_);
        [|lia].
      by left.
    + by left.
Qed.

Lemma startOfHour_aligned offset date :
  (startOfHour offset date + offset) mod MS_PER_HOUR = 0.
Proof.
  unfold startOfHour, MS_PER_HOUR.
  pose proof (Z.div_mod (date + offset) 3600000 ltac:(lia)) as Hdm.
  replace (date - (date + offset) mod 3600000 + offset)
    with (((date + offset) / 3600000) * 3600000) by lia.
  apply Z.mod_mul. lia.
Qed.


(** *** Garbage collection of segments *)

Lemma Map_set_keys {K V} `{EqDecision K} (m : JS.Map K V) k v :
  JS.Map_keys (JS.Map_set m k v)
  = if bool_decide (k ∈ JS.Map_keys m) then JS.Map_keys m else JS.Map_keys m ++ [k].
Proof.
  unfold JS.Map_keys. induction m as [|[k' v'] m IH]; [done|].
  cbn [JS.Map_set].
  destruct (decide (k = k')) as [->|Hne].
  - rewrite !fmap_cons. simpl. rewrite bool_decide_eq_true_2; [done|]. by left.
  - rewrite !fmap_cons. rewrite IH. simpl. destruct (decide (k ∈ m.*1)) as [Hin|Hnin].
    + rewrite !bool_decide_eq_true_2; [done| by right | done].
    + rewrite !bool_decide_eq_false_2; [done| |done].
      intros [?|?]%elem_of_cons; done.
Qed.

Lemma keysAre_set {K V} `{EqDecision K} (P : K -> Prop) (m : JS.Map K V) k v :
  keysAre P m -> P k -> keysAre P (JS.Map_set m k v).
Proof.
  intros [Hnd HP] Hk. unfold keysAre. rewrite Map_set_keys.
  case_bool_decide as Hin; [done|]. split.
  - apply NoDup_app. split; [done|]. split; [|apply NoDup_singleton].
    intros x Hx ->%list_elem_of_singleton. done.
  - apply Forall_app. by repeat constructor.
Qed.

Lemma processRecordingQuery_keeps hass store engineOptions query cameraID output segmentsCache :
  keysAre (subQueryOf query) output ->
  triple (fun s => _recordingSegmentsCache s = segmentsCache)
    (processRecordingQuery hass store engineOptions query cameraID output)
    (fun output' s =>
       keysAre (subQueryOf query) output' /\ _recordingSegmentsCache s = segmentsCache)
    (fun s => _recordingSegmentsCache s = segmentsCache).
Proof.
  intros Hk. unfold processRecordingQuery.
  assert (Hsub : subQueryOf query (recording_with_cameraIDs query [cameraID])) by by eexists.
  eapply triple_bind with (Q1 := fun _ s => _recordingSegmentsCache s = segmentsCache).
  { unfold requestCache_get. destruct (useCacheOrDefault engineOptions);
      [by apply triple_gets | by apply triple_ret]. }
  intros [cachedResult|].
  { apply triple_ret. intros s Hs. split; [by apply keysAre_set|done]. }
  destruct (namedCameraConfig store cameraID) as [[cameraConfig name]|];
    [|by apply triple_ret].
  eapply triple_bind with (Q1 := fun _ s => _recordingSegmentsCache s = segmentsCache).
  { intros s Hs. unfold Requests.getRecordingsSummary, homeAssistantWSRequest, bind, modify.
    destruct (callWS hass _) as [response|]; [|done].
    by destruct (Requests.recordingSummarySchema response). }
  intros recordingSummary.
  eapply triple_bind with (Q1 := fun _ s => _recordingSegmentsCache s = segmentsCache).
  { by apply triple_gets. }
  intros date.
  eapply triple_bind with (Q1 := fun _ s => _recordingSegmentsCache s = segmentsCache).
  { unfold requestCache_set. destruct (useCacheOrDefault engineOptions);
      [by apply triple_modify | by apply triple_ret]. }
  intros ?. apply triple_ret. intros s Hs. split; [by apply keysAre_set|done].
Qed.

Lemma recordingsOutput_keeps hass store engineOptions query segmentsCache :
  triple (fun s => _recordingSegmentsCache s = segmentsCache)
    (recordingsOutput hass store query engineOptions)
    (fun output s =>
       keysAre (subQueryOf query) output /\ _recordingSegmentsCache s = segmentsCache)
    (fun s => _recordingSegmentsCache s = segmentsCache).
Proof.
  unfold recordingsOutput.
  apply (triple_Promise_all (keysAre (subQueryOf query))).
  - apply Forall_fmap, Forall_true. intros cameraID output Hk. simpl.
    by apply processRecordingQuery_keeps.
  - split; constructor.
Qed.

Lemma segmentsOf_expireMatches cache cameraID predicate cameraID' :
  segmentsOf (expireMatches cache cameraID predicate) cameraID'
  = if decide (cameraID = cameraID')
    then List.filter (fun segment => negb (predicate segment)) (segmentsOf cache cameraID')
    else segmentsOf cache cameraID'.
Proof.
  unfold segmentsOf, expireMatches. simpl. rewrite lookup_alter.
  destruct (decide (cameraID = cameraID')) as [->|]; [|done].
  by destruct (cache_segments cache !! cameraID').
Qed.

Lemma collectResult_ranges cache entry :
  cache_ranges (collectResult cache entry) = cache_ranges cache.
Proof.
  destruct entry as [query result]. unfold collectResult.
  destruct (negb _); [done|]. by destruct (recording_cameraIDs query).
Qed.

Lemma collectResults_ranges results cache :
  cache_ranges (foldl collectResult cache results) = cache_ranges cache.
Proof.
  revert cache. induction results as [|entry results IH]; intros cache; simpl; [done|].
  by rewrite IH, collectResult_ranges.
Qed.

Lemma collectResult_other query cache cameraID cameraID' result :
  cameraID' <> cameraID ->
  segmentsOf (collectResult cache (recording_with_cameraIDs query [cameraID'], result)) cameraID
  = segmentsOf cache cameraID.
Proof.
  intros Hne. unfold collectResult. destruct (negb _); [done|]. simpl.
  rewrite segmentsOf_expireMatches. by destruct (decide (cameraID' = cameraID)).
Qed.

Lemma collectResults_other query results cache cameraID :
  Forall (subQueryOf query) (JS.Map_keys results) ->
  recording_with_cameraIDs query [cameraID] ∉ JS.Map_keys results ->
  segmentsOf (foldl collectResult cache results) cameraID = segmentsOf cache cameraID.
Proof.
  revert cache. induction results as [|[key result] results IH]; intros cache HP Hnin;
    simpl in *; [done|].
  apply Forall_cons in HP as [[cameraID' ->] HP].
  apply not_elem_of_cons in Hnin as [Hne Hnin].
  rewrite IH by done. apply collectResult_other. by intros ->.
Qed.

Lemma collectResults_segmentsOf query results cache cameraID result :
  keysAre (subQueryOf query) results ->
  (recording_with_cameraIDs query [cameraID], result) ∈ results ->
  isFrigateRecordingQueryResults result = true ->
  segmentsOf (foldl collectResult cache results) cameraID
  = List.filter (fun segment => negb (segmentExpired cameraID (goodHoursOf result) segment))
      (segmentsOf cache cameraID).
Proof.
  intros [Hnd HP]. revert cache.
  induction results as [|[key result'] results IH]; intros cache Hin Hfr; simpl in *.
  { by apply elem_of_nil in Hin. }
  apply NoDup_cons in Hnd as [Hnin Hnd]. apply Forall_cons in HP as [[cameraID' Hkey] HP].
  apply elem_of_cons in Hin as [[= <- <-]|Hin].
  - rewrite (collectResults_other query) by done.
    unfold collectResult. rewrite Hfr. simpl.
    rewrite segmentsOf_expireMatches. by rewrite decide_True.
  - subst key. rewrite IH by done. f_equal.
    apply collectResult_other. intros ->. apply Hnin.
    change (recording_with_cameraIDs query [cameraID])
      with (fst (recording_with_cameraIDs query [cameraID], result)).
    by apply list_elem_of_fmap_2.
Qed.

Lemma goodHoursOf_elem result hourID :
  hourID ∈ goodHoursOf result <->
  exists recording,
    recording ∈ recordingsOf result
    /\ hourID = getHourID (cameraID recording) (startTime recording).
Proof.
  unfold goodHoursOf.
  cut (forall goodHours : gset string,
         hourID ∈ foldl (fun goodHours recording =>
                     {[getHourID (cameraID recording) (startTime recording)]} ∪ goodHours)
                   goodHours (recordingsOf result)
         <-> hourID ∈ goodHours
             \/ exists recording, recording ∈ recordingsOf result
                  /\ hourID = getHourID (cameraID recording) (startTime recording)).
  { intros Hcut. rewrite Hcut. split; [|by right]. by intros [?%not_elem_of_empty|?]. }
  induction (recordingsOf result) as [|recording recordings IH]; intros goodHours; simpl.
  - split; [tauto|]. intros [?|(? & []%elem_of_nil & _)]. done.
  - rewrite IH, elem_of_union, elem_of_singleton. split.
    + intros [[->|?]|(r & ? & ?)]; [right|by left|right].
      * eexists. split; [by left|done].
      * eexists. split; [by right|done].
    + intros [?|(r & [->|?]%elem_of_cons & ?)]; [by left; right|by left; left|right].
      by eexists.
Qed.

(** The hour identities of two instants are the same string exactly when
    the cameras, the days of the month and the hours of the day are the
    same. *)
Lemma getHourID_inj camera1 date1 camera2 date2 :
  getHourID camera1 date1 = getHourID camera2 date2 <->
  camera1 = camera2
  /\ getDate utcOffset date1 = getDate utcOffset date2
  /\ getHours utcOffset date1 = getHours utcOffset date2.
Proof.
  split; [|by intros (-> & Hd & Hh); unfold getHourID; rewrite Hd, Hh].
  assert (Hform : forall c d h : string,
            c +:+ "/" +:+ d +:+ "/" +:+ h
            = (c +:+ String (Ascii.ascii_of_nat 47) d) +:+ String (Ascii.ascii_of_nat 47) h).
  { intros c d h. by rewrite CalendarFacts.string_app_assoc. }
  unfold getHourID. rewrite !Hform. intros Heq.
  apply CalendarFacts.last_slash_inj in Heq as [Heq Hh];
    [|apply CalendarFacts.pretty_Z_slashFree..].
  apply CalendarFacts.last_slash_inj in Heq as [Hc Hd];
    [|apply CalendarFacts.pretty_Z_slashFree..].
  by apply (inj pretty) in Hd, Hh.
Qed.

(** The start of an hour lies on the day and in the hour of its instants. *)
Lemma startOfHour_same offset date :
  getDate offset (startOfHour offset date) = getDate offset date
  /\ getHours offset (startOfHour offset date) = getHours offset date.
Proof.
  unfold getDate, getHours, startOfHour, MS_PER_HOUR, MS_PER_DAY.
  assert (Hd : (date - (date + offset) mod 3600000 + offset) / 86400000
               = (date + offset) / 86400000)
    by (Z.to_euclidean_division_equations; lia).
  assert (Hh : (date - (date + offset) mod 3600000 + offset) / 3600000
               = (date + offset) / 3600000)
    by (Z.to_euclidean_division_equations; lia).
  by rewrite Hd, Hh.
Qed.

Lemma listsHourOf_same camera segment recording :
  EngineNotions.listsHourOf camera segment recording ->
  EngineNotions.sameHourOfMonth camera segment recording.
Proof.
  intros [Hc Hs]. split; [done|]. rewrite Hs. apply startOfHour_same.
Qed.

(** Less than 27 days from a whole hour, only the instants of that hour have
    its day of the month and its hour of the day. *)
Lemma sameHourOfMonth_near camera segment recording :
  EngineNotions.sameHourOfMonth camera segment recording ->
  EngineNotions.wholeHourNear segment recording ->
  EngineNotions.listsHourOf camera segment recording.
Proof.
  intros (Hc & Hd & Hh) [Ha Hn]. split; [done|].
  revert Hd Hh Ha Hn.
  generalize (startTime recording) (fromUnixTime (start_time segment)).
  intros t1 t2. unfold getDate, getHours, startOfHour, MS_PER_HOUR, MS_PER_DAY.
  intros Hd Hh Ha Hn.
  apply CalendarFacts.day_of_month_apart in Hd;
    [|Z.to_euclidean_division_equations; lia].
  Z.to_euclidean_division_equations; lia.
Qed.

Lemma filter_sublist {A} (f : A -> bool) (l : list A) : sublist (List.filter f l) l.
Proof.
  induction l as [|x l IH]; simpl; [constructor|].
  destruct (f x); by constructor.
Qed.


End WithExternals.
End EngineFacts.

(** ** The engine at the concrete installation *)

Module Scenarios.
Import Types Cache Async AsyncFacts FrigateCameraManagerEngine EngineFacts Installation.

#[local] Existing Instance externals.

(** C1: a query for the cameras [front] and [back], which live on two
    Frigate instances, against empty caches.  [getEvents] consults the
    request cache under each per-instance sub-query and keys the fresh
    results by the sub-queries, but it stores every fresh result under the
    query of the caller: afterwards the cache holds one entry, under the
    caller's query, and nothing under either sub-query.  When a sub-query is
    served from the cache (here the one for [front], cached by an earlier
    call for [front] alone), the entry of the output map is keyed by the
    caller's query and not by the sub-query. *)
Theorem getEvents_cache_keys_diverge :
  let query := eventQuery ["front"; "back"] in
  let frontQuery := event_with_cameraIDs query ["front"] in
  let backQuery := event_with_cameraIDs query ["back"] in
  let call := getEvents (hass true []) store query None (emptyCaches 0) in
  let primed := snd (getEvents (hass true []) store frontQuery None (emptyCaches 0)) in
  let recall := getEvents (hass true []) store query None primed in
  (exists fresh1 fresh2,
     fst call = Returned (Some [(frontQuery, fresh1); (backQuery, fresh2)]))
  /\ entry_request <$> _requestCache (snd call) = [QEvent query]
  /\ RequestCache_get (_requestCache (snd call)) (now (snd call)) (QEvent frontQuery) = None
  /\ RequestCache_get (_requestCache (snd call)) (now (snd call)) (QEvent backQuery) = None
  /\ (exists cached, RequestCache_get (_requestCache primed) (now primed) (QEvent frontQuery)
                     = Some cached
      /\ exists fresh, fst recall = Returned (Some [(query, cached); (backQuery, fresh)]))
  /\ isEqual (QEvent query) (QEvent frontQuery) = false.
Proof.
  vm_compute. split; [by eexists _, _|]. repeat split; try done.
  eexists. split; [done|]. by eexists.
Qed.

(** For an empty camera set [getMediaMetadata] returns a map with one
    entry, the metadata without any field, and not null. *)
Lemma getMediaMetadata_empty_camera_set :
  fst (getMediaMetadata (hass true []) store {| metadata_cameraIDs := [] |} None
         (emptyCaches 0))
  = Returned (Some [({| metadata_cameraIDs := [] |},
                     MediaMetadataQueryResults Frigate
                       {| metadata_what := None; metadata_where := None;
                          metadata_days := None; metadata_tags := None |}
                       60000 false)]).
Proof. reflexivity. Qed.

Example getEvents_sends_two_native_queries :
  limit <$> (omap (fun request => match request with events_get p => Some p | _ => None end)
               (sent (snd (getEvents (hass true []) store (eventQuery ["front"; "back"]) None
                             (emptyCaches 0)))))
  = [Some 10000; Some 10000].
Proof. reflexivity. Qed.

(** An event with a clip and a snapshot. *)
Example person_resolves_to_clip :
  resolveMediaType (eventQuery ["front"]) person = Some clip.
Proof. reflexivity. Qed.

Example person_resolves_to_snapshot :
  resolveMediaType
    {| event_cameraIDs := ["front"]; event_start := None; event_end := None;
       what := None; where_ := None; tags := None; event_limit := None;
       hasClip := None; hasSnapshot := Some true; favorite := None |} person
  = Some snapshot.
Proof. reflexivity. Qed.

(** The projection of that event: a clip when the query asks for neither
    type, a snapshot when it asks for snapshots. *)
Example person_projected_as_clip :
  fmap (M := list) media_type
    <$> generateMediaFromEvents store (eventQuery ["front"])
          (EventQueryResults Frigate "frigate1" [person] 0 false)
  = Some [clip].
Proof. reflexivity. Qed.

Example person_projected_as_snapshot :
  fmap (M := list) media_type
    <$> generateMediaFromEvents store
          {| event_cameraIDs := ["front"]; event_start := None; event_end := None;
             what := None; where_ := None; tags := None; event_limit := None;
             hasClip := None; hasSnapshot := Some true; favorite := None |}
          (EventQueryResults Frigate "frigate1" [person] 0 false)
  = Some [snapshot].
Proof. reflexivity. Qed.

(** Five recordings of one hour each and a limit of 2: the two youngest. *)
Example recordings_limit_two :
  exists expiry,
    fst (getRecordings (hass true [1; 2; 3; 4; 5]) store (recordingQuery ["front"] (Some 2))
           None (emptyCaches 0))
    = Returned (Some [(recordingQuery ["front"] (Some 2),
        RecordingQueryResults Frigate "frigate1"
          [{| cameraID := "front"; startTime := midnight + 5 * MS_PER_HOUR;
              endTime := midnight + 6 * MS_PER_HOUR - 1; events := 0 |};
           {| cameraID := "front"; startTime := midnight + 4 * MS_PER_HOUR;
              endTime := midnight + 5 * MS_PER_HOUR - 1; events := 0 |}]
          expiry false)]).
Proof. eexists. vm_compute. reflexivity. Qed.



Example seek_offset_1500_seconds :
  exists seconds,
    _getSeekTimeInSegments (T0 * 1000) ((T0 + 2300) * 1000) seekSegments = Some seconds
    /\ (seconds == 1500)%Q.
Proof. eexists. split; [reflexivity|]. reflexivity. Qed.

Lemma retain_failure_is_catchable_witness :
  let request := event_retain "frigate1" (event_id person) true in
  let response := {| success := false; retain_message := "" |} in
  callWS (hass false []) request = Some (RetainResultPayload response)
  /\ isFrigateEvent personClip = true
  /\ favoriteMedia (hass false []) frontConfig personClip true (emptyCaches 0)
     = (Thrown (FrigateCardError "error.failed_retain" request response), personClip,
        with_sent request (emptyCaches 0)).
Proof.
  split; [reflexivity|]. split; [reflexivity|].
  exact (proj2 (proj1 (retain_failure_is_catchable (hass false []) frontConfig personClip
                         true (emptyCaches 0) _ eq_refl eq_refl) eq_refl)).
Defined.

Example retain_success_sets_favorite :
  favoriteMedia (hass true []) frontConfig personClip true (emptyCaches 0)
  = (Returned tt, setFavorite personClip true,
     with_sent (event_retain "frigate1" (event_id person) true) (emptyCaches 0)).
Proof. reflexivity. Qed.

(** Segments are cached for the hours 1 to 5 and the backend lists the
    hours 2 to 4: the pass keeps the segments of the hours 2 to 4. *)
Example garbage_collection_scenario :
  let after := snd (_garbageCollectSegments (hass true [2; 3; 4]) store (cachedHours 0)) in
  segmentsOf (_recordingSegmentsCache after) "front"
    = [segmentAt "h2" 2 10; segmentAt "h3" 3 10; segmentAt "h4" 4 10]
  /\ cache_ranges (_recordingSegmentsCache after)
     = cache_ranges (_recordingSegmentsCache (cachedHours 0)).
Proof. vm_compute. done. Qed.

(** The listed hours 2 to 4 are whole hours less than 27 days from the
    cached segment of the hour 1, which is evicted, and from that of the hour
    3, which is the hour of the second recording. *)
Example listed_hours_near_cached_segments :
  let listed :=
    (fun h => hourRecording "front" {| day := midnight; hours := [] |}
                {| hour := h; hour_events := 0 |}) <$> [2; 3; 4] in
  Forall (EngineNotions.wholeHourNear (segmentAt "h1" 1 10)) listed
  /\ Forall (fun recording =>
              ~ EngineNotions.listsHourOf "front" (segmentAt "h1" 1 10) recording) listed
  /\ Exists (EngineNotions.listsHourOf "front" (segmentAt "h3" 3 10)) listed.
Proof.
  split; [|split].
  - repeat constructor; vm_compute; congruence.
  - repeat constructor; intros [_ Hhour]; vm_compute in Hhour; discriminate.
  - right. left. split; reflexivity.
Qed.



End Scenarios.

(** ** More on the range algebra and the range sets *)

Module RangeExtras.
Import Lodash Range RangeNotions LodashFacts RangeFacts.

(** A range that holds an instant contains another range exactly when it
    holds every instant of it. *)
Theorem rangeIsEntirelyContained_instants (bigger smaller : Range) :
  valid smaller ->
  (rangeIsEntirelyContained bigger smaller = true
   <-> forall p, covers smaller p -> covers bigger p).
Proof.
  unfold valid, rangeIsEntirelyContained, covers. intros Hv.
  rewrite andb_true_iff, !Z.leb_le. split.
  - intros [? ?] p ?. lia.
  - intros H. pose proof (H (start smaller)). pose proof (H (end_ smaller)). lia.
Qed.

Lemma rangeIsEntirelyContained_instants_witness :
  valid (mkRange 3 5)
  /\ (rangeIsEntirelyContained (mkRange 0 9) (mkRange 3 5) = true
      <-> forall p, covers (mkRange 3 5) p -> covers (mkRange 0 9) p).
Proof.
  assert (Hv : valid (mkRange 3 5)) by (unfold valid; simpl; lia).
  split; [exact Hv|]. exact (rangeIsEntirelyContained_instants _ _ Hv).
Defined.

(** Two valid ranges overlap exactly when they have an instant in common,
    and the test gives the same answer in either order of its arguments. *)
Theorem rangesOverlap_common_instant (a b : Range) :
  valid a -> valid b ->
  (rangesOverlap a b = true <-> exists p, covers a p /\ covers b p)
  /\ rangesOverlap a b = rangesOverlap b a.
Proof.
  unfold valid, rangesOverlap, covers. intros Ha Hb.
  assert (Hiff : forall a b : Range, start a <= end_ a -> start b <= end_ b ->
            ((start b <=? start a) && (start a <=? end_ b)
             || (start b <=? end_ a) && (end_ a <=? end_ b)
             || (start a <=? start b) && (end_ b <=? end_ a) = true
             <-> start a <= end_ b /\ start b <= end_ a)).
  { clear. intros a b Ha Hb.
    rewrite !orb_true_iff, !andb_true_iff, !Z.leb_le. lia. }
  split.
  - rewrite (Hiff a b Ha Hb). split.
    + intros [? ?]. exists (Z.max (start a) (start b)). lia.
    + intros (p & ? & ?). lia.
  - apply eq_true_iff_eq. rewrite (Hiff a b Ha Hb), (Hiff b a Hb Ha). tauto.
Qed.

Lemma rangesOverlap_common_instant_witness :
  valid (mkRange 0 10) /\ valid (mkRange 2 3)
  /\ rangesOverlap (mkRange 0 10) (mkRange 2 3) = rangesOverlap (mkRange 2 3) (mkRange 0 10).
Proof.
  assert (Ha : valid (mkRange 0 10)) by (unfold valid; simpl; lia).
  assert (Hb : valid (mkRange 2 3)) by (unfold valid; simpl; lia).
  split; [exact Ha|]. split; [exact Hb|].
  exact (proj2 (rangesOverlap_common_instant _ _ Ha Hb)).
Defined.

(** *** What compression keeps, for any tolerance *)

Lemma contains_spec o r : rangeIsEntirelyContained o r = true <-> contains o r.
Proof. unfold rangeIsEntirelyContained, contains. rewrite andb_true_iff, !Z.leb_le. tauto. Qed.

Lemma merge_contains t c rs r :
  Forall (by_start c) rs -> StronglySorted by_start rs ->
  r ∈ c :: rs -> exists o, o ∈ merge t c rs /\ contains o r.
Proof.
  revert c r. induction rs as [|r1 rs IH]; intros c r Hc Hs Hin; simpl.
  - apply list_elem_of_singleton in Hin as ->. exists c. split; [by left|].
    unfold contains; lia.
  - apply Forall_cons in Hc as [Hcr Hc]. apply StronglySorted_inv in Hs as [Hs Hr].
    unfold ascending in Hcr.
    destruct (start r1 <=? end_ c + t * 1000).
    + set (c' := if end_ c <? end_ r1
                 then {| start := start c; end_ := end_ r1 |} else c).
      assert (Hc' : contains c' c /\ contains c' r1).
      { unfold c', contains. destruct (Z.ltb_spec (end_ c) (end_ r1)); simpl; lia. }
      assert (Hin' : r ∈ c' :: rs \/ r = c \/ r = r1).
      { apply elem_of_cons in Hin as [->|Hin]; [tauto|].
        apply elem_of_cons in Hin as [->|Hin]; [tauto|]. left. by right. }
      assert (Hsub : forall x, x ∈ c' :: rs -> exists o, o ∈ merge t c' rs /\ contains o x).
      { intros x Hx. apply IH; [by apply by_start_extend|done|done]. }
      destruct Hin' as [Hin'|[->| ->]]; [by apply Hsub|..].
      * destruct (Hsub c') as (o & Ho & Hoc); [by left|].
        exists o. split; [done|]. unfold contains in *. lia.
      * destruct (Hsub c') as (o & Ho & Hoc); [by left|].
        exists o. split; [done|]. unfold contains in *. lia.
    + apply elem_of_cons in Hin as [->|Hin].
      * exists c. split; [by left|]. unfold contains; lia.
      * destruct (IH r1 r Hr Hs Hin) as (o & Ho & Hoc). exists o. split; [by right|done].
Qed.

Lemma merge_length t c rs : (length (merge t c rs) <= S (length rs))%nat.
Proof.
  revert c. induction rs as [|r rs IH]; intros c; simpl; [lia|].
  destruct (start r <=? end_ c + t * 1000).
  - etransitivity; [apply IH|lia].
  - simpl. specialize (IH r). lia.
Qed.

(** Every range of the output starts where a range of the input starts and
    ends where a range of the input ends. *)
Lemma merge_endpoints t c rs o :
  o ∈ merge t c rs ->
  (exists r, r ∈ c :: rs /\ start r = start o) /\ (exists r, r ∈ c :: rs /\ end_ r = end_ o).
Proof.
  revert c. induction rs as [|r1 rs IH]; intros c Hin; simpl in *.
  - apply list_elem_of_singleton in Hin as ->. split; exists c; (split; [by left|done]).
  - destruct (start r1 <=? end_ c + t * 1000).
    + apply IH in Hin as [(r & Hr & Hrs) (r' & Hr' & Hre)]. split.
      * apply elem_of_cons in Hr as [->|Hr].
        -- exists c. split; [by left|]. by rewrite <- Hrs, extend_start.
        -- exists r. split; [by right; right|done].
      * apply elem_of_cons in Hr' as [->|Hr'].
        -- destruct (Z.ltb_spec (end_ c) (end_ r1)).
           ++ exists r1. split; [by right; left|done].
           ++ exists c. split; [by left|done].
        -- exists r'. split; [by right; right|done].
    + apply elem_of_cons in Hin as [->|Hin].
      * split; exists c; (split; [by left|done]).
      * apply IH in Hin as [(r & Hr & Hrs) (r' & Hr' & Hre)].
        split; [exists r|exists r']; (split; [by right|done]).
Qed.

Lemma compressRanges_contains ranges t r :
  r ∈ ranges ->
  exists o, o ∈ compressRanges ranges t /\ rangeIsEntirelyContained o r = true.
Proof.
  pose proof (orderBy_asc_sorted start ranges) as Hs.
  pose proof (orderBy_asc_perm start ranges) as Hp.
  intros Hr. rewrite compressRanges_merge. rewrite <- Hp in Hr.
  destruct (orderBy_asc start ranges) as [|c rs]; [by apply elem_of_nil in Hr|].
  apply StronglySorted_inv in Hs as [Hs Hc].
  destruct (merge_contains t c rs r Hc Hs Hr) as (o & Ho & Hoc).
  exists o. split; [done|]. by apply contains_spec.
Qed.

(** For ranges and a tolerance for which the arithmetic of the loop is
    exact, compression loses nothing and invents nothing: every range of the
    input is entirely contained in a range of the output; every range of the
    output starts at the start of an input range and ends at the end of one;
    the output has no more ranges than the input; and any two ranges of the
    output are in ascending order and more than the tolerance apart. *)
Theorem compressRanges_any_tolerance (ranges : list Range) (toleranceSeconds : Z) :
  exactFor toleranceSeconds ranges ->
  (forall r, r ∈ ranges ->
     exists o, o ∈ compressRanges ranges toleranceSeconds
               /\ rangeIsEntirelyContained o r = true)
  /\ (forall o, o ∈ compressRanges ranges toleranceSeconds ->
        (exists r, r ∈ ranges /\ start r = start o)
        /\ (exists r, r ∈ ranges /\ end_ r = end_ o))
  /\ (length (compressRanges ranges toleranceSeconds) <= length ranges)%nat
  /\ StronglySorted (apart toleranceSeconds) (compressRanges ranges toleranceSeconds).
Proof.
  intros _.
  pose proof (orderBy_asc_sorted start ranges) as Hs.
  pose proof (orderBy_asc_perm start ranges) as Hp.
  split; [|split; [|split]].
  - apply compressRanges_contains.
  - intros o. rewrite compressRanges_merge. 
    destruct (orderBy_asc start ranges) as [|c rs]; [by intros ?%elem_of_nil|].
    intros Ho. apply merge_endpoints in Ho as [(r & Hr & ?) (r' & Hr' & ?)].
    rewrite Hp in Hr, Hr'. split; eauto.
  - rewrite compressRanges_merge, <- (Permutation_length Hp).
    destruct (orderBy_asc start ranges) as [|c rs]; [done|]. apply merge_length.
  - apply compressRanges_apart.
Qed.

Lemma compressRanges_any_tolerance_witness :
  let ranges := [mkRange 9000 9500; mkRange 0 1000; mkRange 1500 2000] in
  exactFor 1 ranges
  /\ compressRanges ranges 1 = [mkRange 0 2000; mkRange 9000 9500]
  /\ StronglySorted (apart 1) (compressRanges ranges 1).
Proof.
  intros ranges.
  assert (H1 : exactFor 1 ranges).
  { split; [|repeat constructor]; unfold safeInteger; simpl; lia. }
  split; [exact H1|]. split; [reflexivity|].
  exact (proj2 (proj2 (proj2 (compressRanges_any_tolerance ranges 1 H1)))).
Defined.

(** *** The plain range set *)

Lemma hasCoverage_spec ranges range :
  hasCoverage ranges range = true <-> exists r, r ∈ ranges /\ contains r range.
Proof.
  unfold hasCoverage. rewrite existsb_exists. split.
  - intros (r & Hr & Hc). exists r. by rewrite list_elem_of_In, <- contains_spec.
  - intros (r & Hr & Hc). exists r. by rewrite <- list_elem_of_In, contains_spec.
Qed.

Lemma add_covers ranges x r range :
  r ∈ ranges ++ [x] -> contains r range -> hasCoverage (add ranges x) range = true.
Proof.
  intros Hr Hc.
  destruct (compressRanges_contains (ranges ++ [x]) 0 r Hr) as (o & Ho & Hoc).
  apply hasCoverage_spec. exists o. split; [done|].
  apply contains_spec in Hoc. unfold contains in *. lia.
Qed.

(** After [add(x)] the set covers every range inside [x], and every range
    it covered before. *)
Theorem add_extends_coverage (ranges : MemoryRangeSet) (x range : Range) :
  hasCoverage ranges range || rangeIsEntirelyContained x range = true ->
  hasCoverage (add ranges x) range = true.
Proof.
  intros H. apply orb_true_iff in H as [H|H].
  - apply hasCoverage_spec in H as (r & Hr & Hc).
    apply (add_covers ranges x r); [|done].
    apply elem_of_app. by left.
  - apply (add_covers ranges x x); [|by apply contains_spec].
    apply elem_of_app. right. by left.
Qed.

Lemma add_extends_coverage_witness :
  hasCoverage [mkRange 0 10] (mkRange 12 14) || rangeIsEntirelyContained (mkRange 11 20) (mkRange 12 14)
    = true
  /\ hasCoverage (add [mkRange 0 10] (mkRange 11 20)) (mkRange 12 14) = true.
Proof.
  assert (H : hasCoverage [mkRange 0 10] (mkRange 12 14)
              || rangeIsEntirelyContained (mkRange 11 20) (mkRange 12 14) = true)
    by reflexivity.
  split; [exact H|]. exact (add_extends_coverage _ _ _ H).
Defined.

(** The set never reports coverage of an instant that no added range holds:
    if, after [add(x)], it covers a range, then every instant of that range
    lies in [x] or in a range the set held.  The ranges it holds after an
    [add] are in ascending order and do not touch. *)
Theorem add_coverage_is_sound (ranges : MemoryRangeSet) (x range : Range) :
  hasCoverage (add ranges x) range = true ->
  (forall p, covers range p -> covered (ranges ++ [x]) p)
  /\ StronglySorted (apart 0) (add ranges x).
Proof.
  intros H. split; [|apply compressRanges_apart].
  intros p Hp. apply hasCoverage_spec in H as (o & Ho & Hoc).
  apply (compressRanges_covered (ranges ++ [x]) p).
  unfold covered. apply Exists_exists. exists o. split; [done|].
  unfold contains, covers in *. lia.
Qed.

Lemma add_coverage_is_sound_witness :
  hasCoverage (add [mkRange 0 10] (mkRange 5 20)) (mkRange 8 14) = true
  /\ StronglySorted (apart 0) (add [mkRange 0 10] (mkRange 5 20)).
Proof.
  assert (H : hasCoverage (add [mkRange 0 10] (mkRange 5 20)) (mkRange 8 14) = true)
    by reflexivity.
  split; [exact H|]. exact (proj2 (add_coverage_is_sound _ _ _ H)).
Defined.

(** *** The expiring range set *)

Lemma existsb_filter {A} (f g : A -> bool) (l : list A) :
  (forall x, f x = true -> g x = true) ->
  existsb f (List.filter g l) = existsb f l.
Proof.
  intros Hfg. induction l as [|x l IH]; simpl; [done|].
  destruct (g x) eqn:Hg; simpl; [by rewrite IH|].
  rewrite IH. destruct (f x) eqn:Hf; [|done]. apply Hfg in Hf. congruence.
Qed.

(** At and after the instant of an [add], the set covers a range exactly
    when it covered it before the [add] or the added range has not expired
    and contains it: dropping the expired ranges on [add] changes no answer,
    an added range gives coverage until it expires and none from then on.
    Every range kept by the [add] is unexpired at that instant. *)
Theorem expiring_add_coverage (now later : Z)
    (ranges : ExpiringRange.ExpiringMemoryRangeSet) (x : ExpiringRange.ExpiringRange)
    (range : Range) :
  now <= later ->
  ExpiringRange.hasCoverage later (ExpiringRange.add now ranges x) range
    = ExpiringRange.hasCoverage later ranges range
      || ((later <? ExpiringRange.expires x)
          && rangeIsEntirelyContained (ExpiringRange.bounds x) range)
  /\ Forall (fun kept => now < ExpiringRange.expires kept) (ExpiringRange.add now ranges x).
Proof.
  intros Hle. split.
  - unfold ExpiringRange.hasCoverage, ExpiringRange.add, ExpiringRange._expireOldRanges.
    rewrite existsb_filter.
    + rewrite existsb_app. simpl. by rewrite orb_false_r.
    + intros r [Hr _]%andb_true_iff. apply Z.ltb_lt in Hr. apply Z.ltb_lt. lia.
  - unfold ExpiringRange.add, ExpiringRange._expireOldRanges.
    apply Forall_forall. intros r Hr. apply list_elem_of_In, filter_In in Hr as [_ Hr].
    by apply Z.ltb_lt.
Qed.

Lemma expiring_add_coverage_witness :
  100 <= 150
  /\ ExpiringRange.hasCoverage 150
       (ExpiringRange.add 100
          [{| ExpiringRange.bounds := mkRange 0 10; ExpiringRange.expires := 90 |}]
          {| ExpiringRange.bounds := mkRange 20 30; ExpiringRange.expires := 160 |})
       (mkRange 22 25)
     = true.
Proof.
  assert (H : 100 <= 150) by lia.
  split; [exact H|].
  exact (proj1 (expiring_add_coverage 100 150
     [{| ExpiringRange.bounds := mkRange 0 10; ExpiringRange.expires := 90 |}]
     {| ExpiringRange.bounds := mkRange 20 30; ExpiringRange.expires := 160 |}
     (mkRange 22 25) H)).
Defined.

End RangeExtras.

(** ** More on the federation engine *)

Module EngineExtras.
Import Types Cache Async AsyncFacts FrigateCameraManagerEngine EngineNotions EngineFacts.
Local Open Scope async_scope.

(** *** Containers *)

Lemma Map_get_set {K V} `{EqDecision K} (m : JS.Map K V) k v k' :
  JS.Map_get (JS.Map_set m k v) k' = if decide (k = k') then Some v else JS.Map_get m k'.
Proof.
  unfold JS.Map_get. induction m as [|[k0 v0] m IH]; simpl.
  - destruct (decide (k = k')) as [->|Hne].
    + by rewrite bool_decide_eq_true_2.
    + rewrite bool_decide_eq_false_2; [done|]. by intros ->.
  - destruct (decide (k = k0)) as [->|Hne0]; simpl.
    + destruct (decide (k0 = k')) as [->|Hne].
      * by rewrite bool_decide_eq_true_2.
      * rewrite !bool_decide_eq_false_2; [done|by intros ->..].
    + destruct (decide (k' = k0)) as [->|Hne1].
      * rewrite bool_decide_eq_true_2 by done. simpl.
        destruct (decide (k = k0)); done.
      * rewrite bool_decide_eq_false_2 by done. apply IH.
Qed.

Lemma Map_get_keys {K V} `{EqDecision K} (m : JS.Map K V) k :
  k ∈ JS.Map_keys m <-> is_Some (JS.Map_get m k).
Proof.
  unfold JS.Map_get, JS.Map_keys. induction m as [|[k0 v0] m IH]; simpl.
  - split; [by intros ?%elem_of_nil|by intros [? ?]].
  - rewrite elem_of_cons. destruct (decide (k = k0)) as [->|Hne].
    + rewrite bool_decide_eq_true_2 by done. simpl. split; [eauto|by left].
    + rewrite bool_decide_eq_false_2 by done. rewrite <- IH. split; [by intros [?|?]|by right].
Qed.

Lemma Set_add_elem s x y : y ∈ JS.Set_add s x <-> y ∈ s \/ y = x.
Proof.
  unfold JS.Set_add. case_bool_decide as Hin.
  - split; [by left|]. by intros [?| ->].
  - rewrite elem_of_app, list_elem_of_singleton. done.
Qed.

Lemma Set_add_NoDup s x : NoDup s -> NoDup (JS.Set_add s x).
Proof.
  intros Hnd. unfold JS.Set_add. case_bool_decide as Hin; [done|].
  apply NoDup_app. split; [done|]. split; [|apply NoDup_singleton].
  by intros y Hy ->%list_elem_of_singleton.
Qed.

Section WithExternals.
Context `{!Externals}.

(** *** The partition of the cameras by instance *)

Lemma instanceStep_get store output cameraID clientID :
  JS.Map_get (instanceStep store output cameraID) clientID
  = match _getQueryableCameraConfig store cameraID with
    | Some cameraConfig =>
        if JS.truthy (client_id cameraConfig) && bool_decide (client_id cameraConfig = clientID)
        then Some (JS.Set_add (default [] (JS.Map_get output clientID)) cameraID)
        else JS.Map_get output clientID
    | None => JS.Map_get output clientID
    end.
Proof.
  unfold instanceStep.
  destruct (_getQueryableCameraConfig store cameraID) as [cameraConfig|]; [|done].
  destruct (JS.truthy (client_id cameraConfig)); simpl; [|done].
  unfold JS.Map_has.
  destruct (JS.Map_get output (client_id cameraConfig)) as [cameras|] eqn:Hget.
  - rewrite Hget, Map_get_set. case_bool_decide as Heq.
    + subst clientID. rewrite decide_True by done. by rewrite Hget.
    + by rewrite decide_False.
  - rewrite Map_get_set, decide_True by done. rewrite !Map_get_set.
    case_bool_decide as Heq.
    + subst clientID. rewrite decide_True by done. by rewrite Hget.
    + by rewrite !decide_False.
Qed.

Lemma instanceStep_keys store output cameraID :
  NoDup (JS.Map_keys output) -> NoDup (JS.Map_keys (instanceStep store output cameraID)).
Proof.
  intros Hnd. unfold instanceStep.
  destruct (_getQueryableCameraConfig store cameraID) as [cameraConfig|]; [|done].
  destruct (JS.truthy (client_id cameraConfig)); [|done]. simpl.
  assert (Hset : forall (m : JS.Map string (list string)) k v,
            NoDup (JS.Map_keys m) -> NoDup (JS.Map_keys (JS.Map_set m k v))).
  { intros m k v Hm. by apply (keysAre_set (fun _ => True) m k v (conj Hm (Forall_true _ _ (fun _ => I)))). }
  destruct (JS.Map_has output (client_id cameraConfig));
    destruct (JS.Map_get _ (client_id cameraConfig)); auto.
Qed.

Lemma instanceStep_length store output cameraID :
  (length (instanceStep store output cameraID) <= S (length output))%nat.
Proof.
  assert (Hset : forall (m : JS.Map string (list string)) k v,
            (length (JS.Map_set m k v) <= S (length m))%nat).
  { intros m k v. induction m as [|[k0 v0] m IH]; simpl; [lia|].
    destruct (decide (k = k0)); simpl; lia. }
  assert (Hset' : forall (m : JS.Map string (list string)) k v,
            is_Some (JS.Map_get m k) -> length (JS.Map_set m k v) = length m).
  { intros m k v. unfold JS.Map_get. induction m as [|[k0 v0] m IH]; simpl.
    - by intros [? ?].
    - destruct (decide (k = k0)) as [->|Hne]; [done|].
      rewrite bool_decide_eq_false_2 by done. intros Hs. simpl. by rewrite IH. }
  unfold instanceStep.
  destruct (_getQueryableCameraConfig store cameraID) as [cameraConfig|]; [|lia].
  destruct (JS.truthy (client_id cameraConfig)); [|lia]. simpl.
  unfold JS.Map_has.
  destruct (JS.Map_get output (client_id cameraConfig)) as [cameras|] eqn:Hget.
  - rewrite Hget. rewrite Hset'; [lia|by rewrite Hget].
  - rewrite Map_get_set, decide_True by done.
    rewrite Hset'; [apply Hset|]. by rewrite Map_get_set, decide_True.
Qed.

Lemma instanceStep_partitions store seen output cameraID :
  partitions store seen output ->
  partitions store (seen ++ [cameraID]) (instanceStep store output cameraID).
Proof.
  intros [Hnd Hp]. split; [by apply instanceStep_keys|].
  intros clientID. rewrite instanceStep_get. specialize (Hp clientID).
  assert (Hseen : forall c, c ∈ seen ++ [cameraID] <-> c ∈ seen \/ c = cameraID).
  { intros c. by rewrite elem_of_app, list_elem_of_singleton. }
  destruct (_getQueryableCameraConfig store cameraID) as [cameraConfig|] eqn:Hcfg.
  - destruct (JS.truthy (client_id cameraConfig)) eqn:Htruthy; simpl.
    + case_bool_decide as Heq.
      * assert (Hserved : servedBy store clientID cameraID).
        { exists cameraConfig. by subst clientID. }
        destruct (JS.Map_get output clientID) as [cameras|]; simpl.
        -- destruct Hp as (Hne & Hdup & Hiff). split; [|split].
           ++ intros Hnil. assert (Hin : cameraID ∈ JS.Set_add cameras cameraID)
                by (apply Set_add_elem; by right).
              rewrite Hnil in Hin. by apply elem_of_nil in Hin.
           ++ by apply Set_add_NoDup.
           ++ intros c. rewrite Set_add_elem, Hseen, Hiff. split.
              ** intros [[? ?]| ->]; [tauto|]. split; [by right|done].
              ** intros [[?| ->] ?]; [by left|by right].
        -- split; [done|]. split; [apply NoDup_singleton|].
           intros c. rewrite Hseen. unfold JS.Set_add; simpl.
           rewrite list_elem_of_singleton. split.
           ++ intros ->. split; [by right|done].
           ++ intros [[Hc| ->] Hs]; [|done]. by destruct (Hp c Hc).
      * assert (Hnot : ~ servedBy store clientID cameraID).
        { intros (cfg & Hc & Hid & _). congruence. }
        destruct (JS.Map_get output clientID) as [cameras|].
        -- destruct Hp as (Hne & Hdup & Hiff). split; [done|]. split; [done|].
           intros c. rewrite Hiff, Hseen. split; [tauto|].
           intros [[?| ->] ?]; [done|by destruct Hnot].
        -- intros c [Hc| ->]%Hseen; [by apply Hp|done].
    + assert (Hnot : ~ servedBy store clientID cameraID).
      { intros (cfg & Hc & Hid & Ht). congruence. }
      destruct (JS.Map_get output clientID) as [cameras|].
      * destruct Hp as (Hne & Hdup & Hiff). split; [done|]. split; [done|].
        intros c. rewrite Hiff, Hseen. split; [tauto|].
        intros [[?| ->] ?]; [done|by destruct Hnot].
      * intros c [Hc| ->]%Hseen; [by apply Hp|done].
  - assert (Hnot : ~ servedBy store clientID cameraID).
    { intros (cfg & Hc & _). congruence. }
    destruct (JS.Map_get output clientID) as [cameras|].
    + destruct Hp as (Hne & Hdup & Hiff). split; [done|]. split; [done|].
      intros c. rewrite Hiff, Hseen. split; [tauto|].
      intros [[?| ->] ?]; [done|by destruct Hnot].
    + intros c [Hc| ->]%Hseen; [by apply Hp|done].
Qed.

Lemma buildInstanceMap_partitions store cameraIDs :
  partitions store cameraIDs (_buildInstanceToCameraIDMapFromQuery store cameraIDs)
  /\ (length (_buildInstanceToCameraIDMapFromQuery store cameraIDs) <= length cameraIDs)%nat.
Proof.
  change (_buildInstanceToCameraIDMapFromQuery store cameraIDs)
    with (foldl (instanceStep store) [] cameraIDs).
  induction cameraIDs as [|cameraID cameraIDs IH] using rev_ind.
  - split; [|done]. split; [constructor|]. intros clientID. simpl. by intros c ?%elem_of_nil.
  - rewrite foldl_app. simpl. destruct IH as [IH Hlen]. split.
    + by apply instanceStep_partitions.
    + rewrite length_app. simpl.
      pose proof (instanceStep_length store (foldl (instanceStep store) [] cameraIDs) cameraID).
      lia.
Qed.

(** [_buildInstanceToCameraIDMapFromQuery] partitions the queryable cameras
    of the query by instance: a camera is in the group of an instance
    exactly when it is a camera of the query, it is queryable and its
    configuration names that instance; an instance has a group only if it
    serves a camera, so no group is empty; no group lists a camera twice, no
    instance has two groups, and there are no more groups than cameras. *)
Theorem instance_map_partitions_cameras (store : CameraManagerReadOnlyConfigStore)
    (cameraIDs : list string) :
  let instances := _buildInstanceToCameraIDMapFromQuery store cameraIDs in
  (forall clientID cameraID,
     (exists cameras, JS.Map_get instances clientID = Some cameras /\ cameraID ∈ cameras)
     <-> cameraID ∈ cameraIDs /\ servedBy store clientID cameraID)
  /\ (forall clientID cameras,
        JS.Map_get instances clientID = Some cameras -> cameras <> [] /\ NoDup cameras)
  /\ NoDup (JS.Map_keys instances)
  /\ (length instances <= length cameraIDs)%nat.
Proof.
  intros instances.
  destruct (buildInstanceMap_partitions store cameraIDs) as [[Hnd Hp] Hlen].
  fold instances in Hnd, Hp, Hlen.
  split; [|split; [|split]]; [| |done|done].
  - intros clientID cameraID. specialize (Hp clientID). split.
    + intros (cameras & Hget & Hin). rewrite Hget in Hp. by apply Hp.
    + intros [Hin Hs]. destruct (JS.Map_get instances clientID) as [cameras|].
      * exists cameras. split; [done|]. by apply Hp.
      * by destruct (Hp cameraID Hin).
  - intros clientID cameras Hget. specialize (Hp clientID). rewrite Hget in Hp.
    destruct Hp as (? & ? & _). done.
Qed.

(** *** One remote call per instance *)

Lemma Map_get_entry {K V} `{EqDecision K} (m : JS.Map K V) k v :
  NoDup (JS.Map_keys m) -> (k, v) ∈ m -> JS.Map_get m k = Some v.
Proof.
  unfold JS.Map_get, JS.Map_keys. induction m as [|[k0 v0] m IH]; simpl.
  - by intros _ ?%elem_of_nil.
  - intros [Hnin Hnd]%NoDup_cons [[= <- <-]|Hin]%elem_of_cons.
    + by rewrite bool_decide_eq_true_2.
    + rewrite bool_decide_eq_false_2; [by apply IH|].
      intros ->. apply Hnin. change k0 with (fst (k0, v)). by apply list_elem_of_fmap_2.
Qed.

Lemma Promise_all_sent {A O} (branch : A -> O -> Async O) (message : A -> WSRequest)
    (xs : list A) (output : O) s :
  Forall (fun x => forall o s', sent (snd (branch x o s')) = sent s' ++ [message x]) xs ->
  sent (snd (Promise_all (branch <$> xs) output s)) = sent s ++ (message <$> xs).
Proof.
  intros Hxs. revert output s.
  induction Hxs as [|x xs Hx _ IH]; intros output s; [simpl; by rewrite app_nil_r|].
  rewrite !fmap_cons. cbn [Promise_all]. specialize (Hx output s).
  destruct (branch x output s) as [[o'|e] s']; cbn [snd] in *.
  - by rewrite IH, Hx, <- app_assoc.
  - by rewrite IH, Hx, <- app_assoc.
Qed.

Lemma Promise_all_sent_some {A O} (branch : A -> O -> Async O) (message : A -> WSRequest)
    (xs : list A) (output : O) s :
  Forall (fun x => forall o s', sent (snd (branch x o s')) = sent s'
                                \/ sent (snd (branch x o s')) = sent s' ++ [message x]) xs ->
  exists asked,
    sublist asked xs
    /\ sent (snd (Promise_all (branch <$> xs) output s)) = sent s ++ (message <$> asked).
Proof.
  intros Hxs. revert output s.
  induction Hxs as [|x xs Hx _ IH]; intros output s.
  { exists []. split; [constructor|]. simpl. by rewrite app_nil_r. }
  rewrite !fmap_cons. cbn [Promise_all].
  assert (Hrest : forall o s', sent s' = sent s \/ sent s' = sent s ++ [message x] ->
            exists asked, sublist asked (x :: xs)
              /\ sent (snd (Promise_all (branch <$> xs) o s')) = sent s ++ (message <$> asked)).
  { intros o s' Hs'. destruct (IH o s') as (asked & Hsub & Hsent).
    destruct Hs' as [Hs'|Hs'].
    - exists asked. split; [by apply sublist_cons|]. by rewrite Hsent, Hs'.
    - exists (x :: asked). split; [by apply sublist_skip|].
      by rewrite Hsent, Hs', <- app_assoc. }
  specialize (Hx output s).
  destruct (branch x output s) as [[o'|e] s']; cbn [snd] in *; by apply Hrest.
Qed.

Lemma request_sent {T} hass (schema : WSResponse -> option T) request s :
  sent (snd (homeAssistantWSRequest hass schema request s)) = sent s ++ [request].
Proof.
  unfold homeAssistantWSRequest, bind, modify.
  destruct (callWS hass request) as [response|]; [|done]. by destruct (schema response).
Qed.

Lemma bind_sent {A B} (c : Async A) (k : A -> Async B) s :
  (forall a s', sent (snd (k a s')) = sent s') ->
  sent (snd (bind c k s)) = sent (snd (c s)).
Proof.
  intros Hk. unfold bind. destruct (c s) as [[a|e] s']; [apply Hk|done].
Qed.

Lemma bind_ret {A B} (a : A) (k : A -> Async B) s : bind (ret a) k s = k a s.
Proof. done. Qed.

Lemma bind_gets {A B} (f : State -> A) (k : A -> Async B) s : bind (gets f) k s = k (f s) s.
Proof. done. Qed.

Lemma processInstanceQuery_uncached hass store query engineOptions instanceID
    cameraID cameraIDs output s :
  useCacheOrDefault engineOptions = false ->
  sent (snd (processInstanceQuery hass store query engineOptions instanceID
               (Some (cameraID :: cameraIDs)) output s))
  = sent s ++ [events_get (nativeEventQuery store query instanceID (cameraID :: cameraIDs))].
Proof.
  intros Hc. unfold processInstanceQuery. rewrite Hc. simpl.
  rewrite bind_ret, bind_sent; [apply request_sent|].
  intros events s'. done.
Qed.

Lemma processInstanceQuery_at_most_one hass store query engineOptions instanceID
    cameraID cameraIDs output s :
  let run := processInstanceQuery hass store query engineOptions instanceID
               (Some (cameraID :: cameraIDs)) output s in
  sent (snd run) = sent s
  \/ sent (snd run)
     = sent s ++ [events_get (nativeEventQuery store query instanceID (cameraID :: cameraIDs))].
Proof.
  cbv zeta. unfold processInstanceQuery.
  assert (Hfetch : forall k : list FrigateEvent -> Async EventQueryResultsMap,
            (forall events s', sent (snd (k events s')) = sent s') ->
            sent (snd (bind (Requests.getEvents hass
                         (nativeEventQuery store query instanceID (cameraID :: cameraIDs)))
                       k s))
            = sent s ++ [events_get
                           (nativeEventQuery store query instanceID (cameraID :: cameraIDs))]).
  { intros k Hk. rewrite bind_sent by done. apply request_sent. }
  unfold requestCache_get, requestCache_set.
  destruct (useCacheOrDefault engineOptions).
  - rewrite bind_gets.
    destruct (RequestCache_get _ _ _) as [cached|]; [by left|].
    right. apply Hfetch. intros events s'. done.
  - rewrite bind_ret. right. apply Hfetch. intros events s'. done.
Qed.

(** [getEvents] sends at most one native event query per instance: the
    messages it sends are the native queries of some of the instances of the
    query, each for the cameras of its instance, in the order of the
    instances and none twice, no instance being listed twice; so they are no
    more than the cameras of the query.  When the cache is not used it sends
    the native query of every instance, also when an answer fails. *)
Theorem getEvents_one_query_per_instance (hass : HomeAssistant)
    (store : CameraManagerReadOnlyConfigStore) (query : EventQuery)
    (engineOptions : option EngineOptions) (s : State) :
  let instances := _buildInstanceToCameraIDMapFromQuery store (event_cameraIDs query) in
  let message := fun entry : string * list string =>
    events_get (nativeEventQuery store query entry.1 entry.2) in
  (exists asked,
     sublist asked instances
     /\ sent (snd (getEvents hass store query engineOptions s)) = sent s ++ (message <$> asked))
  /\ NoDup (JS.Map_keys instances)
  /\ (length instances <= length (event_cameraIDs query))%nat
  /\ (useCacheOrDefault engineOptions = false ->
      sent (snd (getEvents hass store query engineOptions s))
      = sent s ++ (message <$> instances)).
Proof.
  intros instances message.
  destruct (buildInstanceMap_partitions store (event_cameraIDs query)) as [[Hnd Hp] Hlen].
  fold instances in Hnd, Hp, Hlen.
  assert (Hget : sent (snd (getEvents hass store query engineOptions s))
                 = sent (snd (eventsOutput hass store query engineOptions s))).
  { unfold getEvents. by apply bind_sent. }
  rewrite Hget. unfold eventsOutput. fold instances.
  unfold JS.Map_keys. rewrite <- list_fmap_compose.
  split; [|split; [done|split; [done|]]].
  - apply (Promise_all_sent_some
             (fun entry => processInstanceQuery hass store query engineOptions entry.1
                             (JS.Map_get instances entry.1)) message).
    apply Forall_forall. intros [instanceID cameras] Hin o s'. cbn [fst snd].
    rewrite (Map_get_entry _ _ _ Hnd Hin).
    specialize (Hp instanceID). rewrite (Map_get_entry _ _ _ Hnd Hin) in Hp.
    destruct Hp as (Hne & _). destruct cameras as [|cameraID cameras]; [done|].
    apply processInstanceQuery_at_most_one.
  - intros Hc.
    apply (Promise_all_sent
             (fun entry => processInstanceQuery hass store query engineOptions entry.1
                             (JS.Map_get instances entry.1)) message).
    apply Forall_forall. intros [instanceID cameras] Hin o s'. cbn [fst snd].
    rewrite (Map_get_entry _ _ _ Hnd Hin).
    specialize (Hp instanceID). rewrite (Map_get_entry _ _ _ Hnd Hin) in Hp.
    destruct Hp as (Hne & _). destruct cameras as [|cameraID cameras]; [done|].
    by apply processInstanceQuery_uncached.
Qed.

(** *** Bounds of the seek time *)

Lemma overlapSum_bound mediaStart target lower segments :
  mediaStart <= target ->
  Forall (fun segment => start_time segment <= end_time segment
                         /\ lower <= fromUnixTime (start_time segment)) segments ->
  StronglySorted precedes segments ->
  0 <= overlapSum mediaStart target segments
       <= Z.max 0 (target - Z.max mediaStart lower).
Proof.
  intros HST Hs Hsorted. revert lower Hs.
  induction Hsorted as [|segment rest Hsorted IH Hnext]; intros lower Hs; simpl; [lia|].
  apply Forall_cons in Hs as [[Hwf Hlow] Hs].
  destruct (Z.ltb_spec target (fromUnixTime (start_time segment))); [lia|].
  assert (Hrest : Forall (fun next => start_time next <= end_time next
                    /\ fromUnixTime (end_time segment) <= fromUnixTime (start_time next)) rest).
  { apply Forall_forall. intros next Hin.
    rewrite Forall_forall in Hs, Hnext. destruct (Hs next Hin) as [? _].
    specialize (Hnext next Hin). unfold precedes, fromUnixTime, MS_PER_SECOND in *. lia. }
  specialize (IH _ Hrest).
  unfold overlapMilliseconds, fromUnixTime, MS_PER_SECOND in *. lia.
Qed.

(** For segments that are well formed, sorted from oldest to youngest
    without overlap, and that do not end before the media starts, the seek
    time is not negative and not more than the time from the start of the
    media to the target. *)
Theorem seek_time_within_window (mediaStart target : Date)
    (segments : list RecordingSegment) (seconds : Q) :
  mediaStart <= target ->
  Forall (reachesMedia mediaStart) segments ->
  StronglySorted precedes segments ->
  _getSeekTimeInSegments mediaStart target segments = Some seconds ->
  (0 <= seconds)%Q /\ (seconds <= (target - mediaStart) # 1000)%Q.
Proof.
  intros HST Hreach Hsorted Hseek.
  destruct segments as [|segment rest]; [done|].
  unfold _getSeekTimeInSegments in Hseek.
  rewrite (seekLoop_overlapSum _ _ _ _ HST Hreach) in Hseek.
  pose proof (overlapSum_bound mediaStart target
                (fromUnixTime (start_time segment)) (segment :: rest) HST) as Hb.
  assert (Hlow : Forall (fun s => start_time s <= end_time s
                   /\ fromUnixTime (start_time segment) <= fromUnixTime (start_time s))
                   (segment :: rest)).
  { pose proof Hsorted as Hsorted'. apply StronglySorted_inv in Hsorted' as [_ Hnext].
    apply Forall_cons in Hreach as [[Hwf _] Hreach]. constructor; [split; [done|lia]|].
    apply Forall_forall. intros next Hin. rewrite Forall_forall in Hreach, Hnext.
    destruct (Hreach next Hin) as [? _]. specialize (Hnext next Hin).
    unfold precedes, fromUnixTime, MS_PER_SECOND in *. lia. }
  specialize (Hb Hlow Hsorted).
  set (v := overlapSum mediaStart target (segment :: rest)) in *. clearbody v.
  injection Hseek as <-. unfold Qle. cbn [Qnum Qden]. lia.
Qed.

(** *** Favorites *)

(** [favoriteMedia] changes the favorite flag only when the backend reports
    success.  For a media that is not a Frigate event it sends nothing and
    changes nothing.  For a Frigate event it sends exactly one retain
    request and leaves caches and clock alone; it returns exactly when the
    backend answers with a retain result that reports success, and then the
    flag is the requested value; when the backend does not answer, or
    answers with something else than a retain result, it throws the error of
    the transport; and whenever it throws, the media is as it was. *)
Theorem favoriteMedia_changes_flag_only_on_success (hass : HomeAssistant)
    (cameraConfig : CameraConfig) (media : ViewMedia) (favorite : bool) (s : State) :
  let request := event_retain (client_id cameraConfig) (getID media) favorite in
  let result := favoriteMedia hass cameraConfig media favorite s in
  (isFrigateEvent media = false -> result = (Returned tt, media, s))
  /\ (isFrigateEvent media = true ->
      result.2 = with_sent request s
      /\ (result.1.1 = Returned tt <->
          exists response,
            callWS hass request = Some (RetainResultPayload response)
            /\ success response = true)
      /\ (result.1.1 = Returned tt -> result.1.2 = setFavorite media favorite)
      /\ (forall e, result.1.1 = Thrown e -> result.1.2 = media)
      /\ (callWS hass request = None
          \/ (exists response, callWS hass request = Some response
                               /\ Requests.retainResultSchema response = None) ->
          result.1.1 = Thrown (HomeAssistantError request))).
Proof.
  intros request result. subst result. unfold favoriteMedia. split.
  - by intros ->.
  - intros ->. simpl.
    unfold Requests.retainEvent, homeAssistantWSRequest, bind, modify. fold request.
    destruct (callWS hass request) as [response|] eqn:Hws; simpl.
    + destruct (Requests.retainResultSchema response) as [payload|] eqn:Hschema; simpl.
      * assert (response = RetainResultPayload payload) as ->.
        { destruct response; simpl in Hschema; congruence. }
        destruct (success payload) eqn:Hok; simpl.
        -- split; [done|]. split; [|split; [done|split; [done|]]].
           ++ split; [|done]. intros _. by exists payload.
           ++ intros [[=]|(r & [= <-] & [=])].
        -- split; [done|]. split; [|split; [done|split; [done|]]].
           ++ split; [done|]. intros (r & [= <-] & Hr). congruence.
           ++ intros [[=]|(r & [= <-] & [=])].
      * split; [done|]. split; [|split; [done|split; [done|done]]].
        split; [done|]. intros (r & [= ->] & _). done.
    + split; [done|]. split; [|split; [done|split; [done|done]]].
      split; [done|]. by intros (r & [=] & _).
Qed.

(** *** Calls that do not use the cache *)

Lemma request_sameCaches {T} s0 hass (schema : WSResponse -> option T) request :
  triple (sameCaches s0) (homeAssistantWSRequest hass schema request)
    (fun _ => sameCaches s0) (sameCaches s0).
Proof.
  intros s Hs. unfold homeAssistantWSRequest, bind, modify.
  destruct (callWS hass request) as [response|]; [|done]. by destruct (schema response).
Qed.

Lemma triple_same {A} s0 (c : Async A) :
  triple (sameCaches s0) c (fun _ => sameCaches s0) (sameCaches s0) ->
  forall o, triple (sameCaches s0) c (fun (_ : A) s => (fun _ : A => True) o /\ sameCaches s0 s)
              (sameCaches s0).
Proof. intros Hc o. eapply triple_weaken; [exact Hc|done|by intros|done]. Qed.

Lemma Promise_all_sameCaches {O} s0 (branches : list (O -> Async O)) (output : O) :
  Forall (fun branch => forall o,
            triple (sameCaches s0) (branch o) (fun _ => sameCaches s0) (sameCaches s0))
    branches ->
  triple (sameCaches s0) (Promise_all branches output) (fun _ => sameCaches s0)
    (sameCaches s0).
Proof.
  intros Hbs. eapply triple_weaken.
  - apply (triple_Promise_all (fun _ => True) (sameCaches s0)); [|done].
    eapply Forall_impl; [exact Hbs|]. intros branch Hb o _.
    eapply triple_weaken; [apply Hb|done|by intros|done].
  - done.
  - by intros ? ? [_ ?].
  - done.
Qed.

Lemma requests_sameCaches s0 hass :
  (forall params, triple (sameCaches s0) (Requests.getEvents hass params)
                    (fun _ => sameCaches s0) (sameCaches s0))
  /\ (forall clientID name, triple (sameCaches s0)
                              (Requests.getRecordingsSummary hass clientID name)
                              (fun _ => sameCaches s0) (sameCaches s0))
  /\ (forall params, triple (sameCaches s0) (Requests.getRecordingSegments hass params)
                       (fun _ => sameCaches s0) (sameCaches s0))
  /\ (forall clientID, triple (sameCaches s0) (Requests.getEventSummary hass clientID)
                         (fun _ => sameCaches s0) (sameCaches s0)).
Proof. repeat split; intros; apply request_sameCaches. Qed.

Lemma processInstanceQuery_sameCaches hass store query engineOptions instanceID cameraIDs
    output s0 :
  useCacheOrDefault engineOptions = false ->
  triple (sameCaches s0)
    (processInstanceQuery hass store query engineOptions instanceID cameraIDs output)
    (fun _ => sameCaches s0) (sameCaches s0).
Proof.
  intros Hc. unfold processInstanceQuery. rewrite Hc.
  destruct cameraIDs as [[|cameraID cameraIDs]|]; try by apply triple_ret.
  eapply triple_bind with (Q1 := fun _ => sameCaches s0); [by apply triple_ret|]. intros [cached|]; [by apply triple_ret|].
  eapply triple_bind with (Q1 := fun _ => sameCaches s0); [apply (proj1 (requests_sameCaches s0 hass))|]. intros events.
  eapply triple_bind with (Q1 := fun _ => sameCaches s0); [by apply triple_gets|].
  intros date. eapply triple_bind with (Q1 := fun _ => sameCaches s0); [by apply triple_ret|]. intros ?. by apply triple_ret.
Qed.

Lemma processRecordingQuery_sameCaches hass store engineOptions query cameraID output s0 :
  useCacheOrDefault engineOptions = false ->
  triple (sameCaches s0)
    (processRecordingQuery hass store engineOptions query cameraID output)
    (fun _ => sameCaches s0) (sameCaches s0).
Proof.
  intros Hc. unfold processRecordingQuery. rewrite Hc.
  eapply triple_bind with (Q1 := fun _ => sameCaches s0); [by apply triple_ret|]. intros [cached|]; [by apply triple_ret|].
  destruct (namedCameraConfig store cameraID) as [[cameraConfig name]|];
    [|by apply triple_ret].
  eapply triple_bind with (Q1 := fun _ => sameCaches s0); [apply (proj1 (proj2 (requests_sameCaches s0 hass)))|]. intros summary.
  eapply triple_bind with (Q1 := fun _ => sameCaches s0); [by apply triple_gets|].
  intros date. eapply triple_bind with (Q1 := fun _ => sameCaches s0); [by apply triple_ret|]. intros ?. by apply triple_ret.
Qed.

Lemma processRecordingSegmentsQuery_sameCaches hass store engineOptions query cameraID
    output s0 :
  useCacheOrDefault engineOptions = false ->
  triple (sameCaches s0)
    (processRecordingSegmentsQuery hass store engineOptions query cameraID output)
    (fun _ => sameCaches s0) (sameCaches s0).
Proof.
  intros Hc. unfold processRecordingSegmentsQuery. rewrite Hc.
  destruct (namedCameraConfig store cameraID) as [[cameraConfig name]|];
    [|by apply triple_ret].
  eapply triple_bind with (Q1 := fun _ => sameCaches s0); [by apply triple_ret|]. intros [cached|]; [by apply triple_ret|].
  eapply triple_bind with (Q1 := fun _ => sameCaches s0); [apply (proj1 (proj2 (proj2 (requests_sameCaches s0 hass))))|]. intros segments.
  eapply triple_bind with (Q1 := fun _ => sameCaches s0); [by apply triple_ret|]. intros ?. by apply triple_ret.
Qed.

Lemma getRecordings_sameCaches hass store query engineOptions s0 :
  useCacheOrDefault engineOptions = false ->
  triple (sameCaches s0) (getRecordings hass store query engineOptions)
    (fun _ => sameCaches s0) (sameCaches s0).
Proof.
  intros Hc. unfold getRecordings, recordingsOutput.
  eapply triple_bind with (Q1 := fun _ => sameCaches s0); [|intros output; by apply triple_ret].
  apply Promise_all_sameCaches. apply Forall_fmap, Forall_true. intros cameraID o. simpl.
  by apply processRecordingQuery_sameCaches.
Qed.

Lemma getRecordingSegments_sameCaches hass store query engineOptions s0 :
  useCacheOrDefault engineOptions = false ->
  triple (sameCaches s0) (getRecordingSegments hass store query engineOptions)
    (fun _ => sameCaches s0) (sameCaches s0).
Proof.
  intros Hc. unfold getRecordingSegments, recordingSegmentsOutput.
  eapply triple_bind with (Q1 := fun _ => sameCaches s0); [|intros output; by apply triple_ret].
  apply Promise_all_sameCaches. apply Forall_fmap, Forall_true. intros cameraID o. simpl.
  by apply processRecordingSegmentsQuery_sameCaches.
Qed.

Lemma triple_run {A} (P : State -> Prop) (c : Async A) (Q : State -> Prop) s :
  triple P c (fun _ => Q) Q -> P s -> Q (snd (c s)).
Proof. intros Hc Hs. specialize (Hc s Hs). by destruct (c s) as [[a|e] s']. Qed.

(** A call with [useCache: false] neither reads nor writes the caches: the
    request cache and the segment cache after [getEvents], [getRecordings],
    [getRecordingSegments], [getMediaMetadata] and [getMediaSeekTime] are
    those before the call, whether the call returns or throws. *)
Theorem uncached_calls_leave_caches (hass : HomeAssistant)
    (store : CameraManagerReadOnlyConfigStore) (engineOptions : option EngineOptions)
    (eventQuery : EventQuery) (recordingQuery : RecordingQuery)
    (segmentsQuery : RecordingSegmentsQuery) (metadataQuery : MediaMetadataQuery)
    (media : ViewMedia) (target : Date) (s : State) :
  useCacheOrDefault engineOptions = false ->
  sameCaches s (snd (getEvents hass store eventQuery engineOptions s))
  /\ sameCaches s (snd (getRecordings hass store recordingQuery engineOptions s))
  /\ sameCaches s (snd (getRecordingSegments hass store segmentsQuery engineOptions s))
  /\ sameCaches s (snd (getMediaMetadata hass store metadataQuery engineOptions s))
  /\ sameCaches s (snd (getMediaSeekTime hass store media target engineOptions s)).
Proof.
  intros Hc.
  assert (Hs : sameCaches s s) by done.
  split; [|split; [|split; [|split]]]; (eapply triple_run; [|exact Hs]).
  - unfold getEvents, eventsOutput.
    eapply triple_bind with (Q1 := fun _ => sameCaches s); [|intros output; by apply triple_ret].
    apply Promise_all_sameCaches. apply Forall_fmap, Forall_true. intros instanceID o. simpl.
    by apply processInstanceQuery_sameCaches.
  - by apply getRecordings_sameCaches.
  - by apply getRecordingSegments_sameCaches.
  - unfold getMediaMetadata. rewrite Hc.
    eapply triple_bind with (Q1 := fun _ => sameCaches s); [by apply triple_ret|]. intros [cached|]; [by apply triple_ret|].
    eapply triple_bind with (Q1 := fun _ => sameCaches s).
    { apply Promise_all_sameCaches. apply Forall_fmap, Forall_true.
      intros [instanceID cameraIDs]. unfold compose. cbv beta iota. intros sets.
      apply Promise_all_sameCaches. repeat constructor.
      - intros sets'. unfold processEventSummary.
        eapply triple_bind with (Q1 := fun _ => sameCaches s); [apply (proj2 (proj2 (proj2 (requests_sameCaches s hass))))|]. intros summary. by apply triple_ret.
      - intros sets'. unfold processRecordings.
        eapply triple_bind with (Q1 := fun _ => sameCaches s); [by apply getRecordings_sameCaches|].
        intros [recordings|]; by apply triple_ret. }
    intros sets. eapply triple_bind with (Q1 := fun _ => sameCaches s); [by apply triple_gets|].
    intros date. eapply triple_bind with (Q1 := fun _ => sameCaches s); [by apply triple_ret|]. intros ?. by apply triple_ret.
  - unfold getMediaSeekTime.
    destruct (getStartTime media) as [start|]; [|by apply triple_ret].
    destruct (getEndTime media) as [end_|]; [|by apply triple_ret].
    destruct (_ || _); [by apply triple_ret|].
    eapply triple_bind with (Q1 := fun _ => sameCaches s); [by apply getRecordingSegments_sameCaches|].
    intros [results|]; [|by apply triple_ret].
    destruct (JS.Map_values results); [by apply triple_throw|by apply triple_ret].
Qed.

(** *** Sub-labels *)

Lemma bytes_app a b :
  String.list_ascii_of_string (a +:+ b) = String.list_ascii_of_string a ++ String.list_ascii_of_string b.
Proof. induction a as [|c a IH]; simpl; [done|by rewrite IH]. Qed.

Lemma string_of_bytes_app a b :
  String.string_of_list_ascii (a ++ b) = String.string_of_list_ascii a +:+ String.string_of_list_ascii b.
Proof. induction a as [|c a IH]; simpl; [done|by rewrite IH]. Qed.

Lemma whitespace_bytes w : whitespace w <-> whitespaceBytes false (String.list_ascii_of_string w).
Proof. by destruct w as [|c1 [|c2 [|c3 [|c4 w]]]]. Qed.

Lemma whitespaceBytes_reverse w : whitespaceBytes false w -> whitespaceBytes true (reverse w).
Proof. by destruct w as [|c1 [|c2 [|c3 [|c4 w]]]]. Qed.

Lemma dropWhitespace_spec backwards n bytes :
  (length bytes <= n)%nat ->
  (forall w rest, whitespaceBytes backwards w ->
                  JS.dropWhitespace backwards bytes <> w ++ rest)
  /\ exists removed, bytes = removed ++ JS.dropWhitespace backwards bytes.
Proof.
  revert bytes. induction n as [|n IH]; intros bytes Hn.
  { destruct bytes; [|simpl in Hn; lia]. split; [|by exists []].
    intros [|c1 [|c2 [|c3 [|c4 w]]]] rest; done. }
  destruct bytes as [|c1 bytes1]; [split; [|by exists []]|].
  { intros [|c1 [|c2 [|c3 [|c4 w]]]] rest; done. }
  simpl in Hn. cbn [JS.dropWhitespace].
  destruct (JS.isWhitespace c1) eqn:H1.
  { destruct (IH bytes1) as [Hno [removed Hrem]]; [lia|]. split; [done|].
    exists (c1 :: removed). simpl. by rewrite <- Hrem. }
  destruct bytes1 as [|c2 bytes2].
  { split; [|by exists []].
    intros [|d1 [|d2 [|d3 [|d4 w]]]] rest Hw Heq;
      unfold whitespaceBytes in Hw; try done; simpl in Heq; simplify_eq; congruence. }
  simpl in Hn.
  destruct (if backwards then JS.isWhitespace2 c2 c1 else JS.isWhitespace2 c1 c2) eqn:H2.
  { destruct (IH bytes2) as [Hno [removed Hrem]]; [lia|]. split; [done|].
    exists (c1 :: c2 :: removed). simpl. by rewrite <- Hrem. }
  destruct bytes2 as [|c3 bytes3].
  { split; [|by exists []].
    intros [|d1 [|d2 [|d3 [|d4 w]]]] rest Hw Heq;
      unfold whitespaceBytes in Hw; try done; simpl in Heq; simplify_eq; congruence. }
  simpl in Hn.
  destruct (if backwards then JS.isWhitespace3 c3 c2 c1 else JS.isWhitespace3 c1 c2 c3)
    eqn:H3.
  { destruct (IH bytes3) as [Hno [removed Hrem]]; [lia|]. split; [done|].
    exists (c1 :: c2 :: c3 :: removed). simpl. by rewrite <- Hrem. }
  split; [|by exists []].
  intros [|d1 [|d2 [|d3 [|d4 w]]]] rest Hw Heq;
      unfold whitespaceBytes in Hw; try done; simpl in Heq; simplify_eq; congruence.
Qed.

Lemma trimStart_start s : ~ startsWithWhitespace (JS.trimStart s).
Proof.
  intros (w & rest & Hw & Hs). apply whitespace_bytes in Hw.
  apply (f_equal String.list_ascii_of_string) in Hs. unfold JS.trimStart in Hs.
  rewrite String.list_ascii_of_string_of_list_ascii, bytes_app in Hs.
  destruct (dropWhitespace_spec false _ (String.list_ascii_of_string s) (Nat.le_refl _))
    as [Hno _].
  by apply Hno in Hs.
Qed.

Lemma trimEnd_start s : ~ startsWithWhitespace s -> ~ startsWithWhitespace (JS.trimEnd s).
Proof.
  intros Hs (w & rest & Hw & Ht). apply Hs.
  destruct (dropWhitespace_spec true _ (reverse (String.list_ascii_of_string s))
              (Nat.le_refl _)) as [_ [removed Hrem]].
  apply (f_equal reverse) in Hrem. rewrite reverse_involutive, reverse_app in Hrem.
  apply (f_equal String.list_ascii_of_string) in Ht. unfold JS.trimEnd in Ht.
  rewrite String.list_ascii_of_string_of_list_ascii, bytes_app in Ht.
  rewrite Ht, <- app_assoc in Hrem.
  exists w, (String.string_of_list_ascii (String.list_ascii_of_string rest ++ reverse removed)).
  split; [done|].
  rewrite <- (String.string_of_list_ascii_of_string s), Hrem, string_of_bytes_app.
  by rewrite String.string_of_list_ascii_of_string.
Qed.

Lemma trimEnd_end s : ~ endsWithWhitespace (JS.trimEnd s).
Proof.
  intros (w & rest & Hw & Hs). apply whitespace_bytes, whitespaceBytes_reverse in Hw.
  apply (f_equal String.list_ascii_of_string) in Hs. unfold JS.trimEnd in Hs.
  rewrite String.list_ascii_of_string_of_list_ascii, bytes_app in Hs.
  apply (f_equal reverse) in Hs. rewrite reverse_involutive, reverse_app in Hs.
  destruct (dropWhitespace_spec true _ (reverse (String.list_ascii_of_string s))
              (Nat.le_refl _)) as [Hno _].
  by apply Hno in Hs.
Qed.

Lemma split_comma_length s : length (JS.split_comma s) = S (commas s).
Proof.
  induction s as [|c s IH]; simpl; [done|].
  destruct (Ascii.eqb c (Ascii.ascii_of_nat 44)); simpl; [by rewrite IH|].
  destruct (JS.split_comma s); simpl in *; done.
Qed.

Lemma split_comma_none s : commas s = 0%nat -> JS.split_comma s = [s].
Proof.
  induction s as [|c s IH]; simpl; [done|].
  destruct (Ascii.eqb c (Ascii.ascii_of_nat 44)); [done|]. simpl. intros Hs.
  by rewrite IH.
Qed.

(** [_splitSubLabels] returns one label more than the input has commas, so
    at least one; no label starts or ends with white space; and an input
    without comma gives the one label that is the trimmed input. *)
Theorem splitSubLabels_labels (input : string) :
  length (_splitSubLabels input) = S (commas input)
  /\ Forall (fun label => ~ startsWithWhitespace label /\ ~ endsWithWhitespace label)
       (_splitSubLabels input)
  /\ (commas input = 0%nat -> _splitSubLabels input = [JS.trim input]).
Proof.
  unfold _splitSubLabels. split; [|split].
  - by rewrite length_fmap, split_comma_length.
  - apply Forall_fmap, Forall_true. intros part. simpl. unfold JS.trim. split.
    + apply trimEnd_start, trimStart_start.
    + apply trimEnd_end.
  - intros Hc. by rewrite split_comma_none.
Qed.

(** *** The results of a fan-out *)

Lemma Map_set_entries {K V} `{EqDecision K} (m : JS.Map K V) k v entry :
  entry ∈ JS.Map_set m k v -> entry ∈ m \/ entry = (k, v).
Proof.
  induction m as [|[k0 v0] m IH]; simpl.
  - intros ->%list_elem_of_singleton. by right.
  - destruct (decide (k = k0)) as [->|Hne].
    + intros [->|Hin]%elem_of_cons; [by right|]. left. by right.
    + intros [->|Hin]%elem_of_cons; [left; by left|].
      destruct (IH Hin) as [?|?]; [left; by right|by right].
Qed.

Lemma entriesAre_nil {K V} (P : K -> V -> Prop) : entriesAre P (@nil (K * V)).
Proof. split; [constructor|]. by intros k v ?%elem_of_nil. Qed.

Lemma entriesAre_set {K V} `{EqDecision K} (P : K -> V -> Prop) (m : JS.Map K V) k v :
  entriesAre P m -> P k v -> entriesAre P (JS.Map_set m k v).
Proof.
  intros [Hnd HP] Hk. split.
  - by apply (keysAre_set (fun _ => True) m k v (conj Hnd (Forall_true _ _ (fun _ => I)))).
  - intros k' v' [Hin|[= -> ->]]%Map_set_entries; [by apply HP|done].
Qed.

Lemma returned_nonEmpty {K V} (merged : Async (JS.Map K V)) s m s' :
  bind merged (fun output => ret (JS.nonEmptyOrNull output)) s = (Returned (Some m), s') ->
  merged s = (Returned m, s').
Proof.
  intros (output & s1 & Hm & Hret)%bind_returned. injection Hret as Hres <-.
  apply nonEmptyOrNull_Some in Hres as [<- _]. done.
Qed.

Lemma processRecordingQuery_fresh hass store engineOptions query cameraID output :
  useCacheOrDefault engineOptions = false ->
  cameraID ∈ recording_cameraIDs query ->
  entriesAre (freshRecordingResult hass store query) output ->
  triple (fun _ => True)
    (processRecordingQuery hass store engineOptions query cameraID output)
    (fun output' _ => entriesAre (freshRecordingResult hass store query) output' /\ True)
    (fun _ => True).
Proof.
  intros Hc Hin Hout s _. unfold processRecordingQuery. rewrite Hc. simpl.
  rewrite bind_ret.
  destruct (namedCameraConfig store cameraID) as [[cameraConfig name]|] eqn:Hcfg; [|done].
  unfold Requests.getRecordingsSummary, homeAssistantWSRequest, bind, modify. simpl.
  destruct (callWS hass _) as [response|] eqn:Hws; [|done].
  destruct response as [summary| | | |]; simpl; try done.
  split; [|done]. apply entriesAre_set; [done|].
  by eexists cameraID, cameraConfig, name, summary, _.
Qed.

(** When the cache is not used, every entry of the map [getRecordings]
    returns is the fresh result for one camera of the query: keyed by the
    query restricted to that camera, from the instance of that camera, with
    the recordings of the summary the backend answered with, within the
    bounds and the limit of the query, and not flagged as cached.  No two
    entries have the same key. *)
Theorem getRecordings_fresh_results (hass : HomeAssistant)
    (store : CameraManagerReadOnlyConfigStore) (query : RecordingQuery)
    (engineOptions : option EngineOptions) (s s' : State)
    (results : RecordingQueryResultsMap) :
  useCacheOrDefault engineOptions = false ->
  getRecordings hass store query engineOptions s = (Returned (Some results), s') ->
  NoDup (JS.Map_keys results)
  /\ forall key result,
       (key, result) ∈ results -> freshRecordingResult hass store query key result.
Proof.
  intros Hc Hget. apply returned_nonEmpty in Hget.
  assert (Ht : triple (fun _ => True) (recordingsOutput hass store query engineOptions)
                 (fun output _ =>
                    entriesAre (freshRecordingResult hass store query) output /\ True)
                 (fun _ => True)).
  { unfold recordingsOutput. apply triple_Promise_all; [|apply entriesAre_nil].
    apply Forall_fmap, Forall_forall. intros cameraID Hin output Hout. simpl.
    by apply processRecordingQuery_fresh. }
  specialize (Ht s I). rewrite Hget in Ht. by destruct Ht as [Ht _].
Qed.

Lemma processInstanceQuery_fresh hass store query engineOptions instanceID output :
  useCacheOrDefault engineOptions = false ->
  entriesAre (freshEventResult hass store query) output ->
  triple (fun _ => True)
    (processInstanceQuery hass store query engineOptions instanceID
       (JS.Map_get (_buildInstanceToCameraIDMapFromQuery store (event_cameraIDs query))
          instanceID) output)
    (fun output' _ => entriesAre (freshEventResult hass store query) output' /\ True)
    (fun _ => True).
Proof.
  intros Hc Hout s _. unfold processInstanceQuery.
  destruct (JS.Map_get _ instanceID) as [[|cameraID cameraIDs]|] eqn:Hget; try done.
  rewrite Hc. simpl. rewrite bind_ret.
  unfold Requests.getEvents, homeAssistantWSRequest, bind, modify. simpl.
  destruct (callWS hass _) as [response|] eqn:Hws; [|done].
  destruct response as [| | |events|]; simpl; try done.
  split; [|done]. apply entriesAre_set; [done|].
  by eexists instanceID, (cameraID :: cameraIDs), events, _.
Qed.

(** When the cache is not used, every entry of the map [getEvents] returns
    is the fresh result for one instance: keyed by the query restricted to
    the cameras of that instance, tagged with the instance, with the events
    the backend answered the native query of the instance with, and not
    flagged as cached.  No two entries have the same key. *)
Theorem getEvents_fresh_results (hass : HomeAssistant)
    (store : CameraManagerReadOnlyConfigStore) (query : EventQuery)
    (engineOptions : option EngineOptions) (s s' : State)
    (results : EventQueryResultsMap) :
  useCacheOrDefault engineOptions = false ->
  getEvents hass store query engineOptions s = (Returned (Some results), s') ->
  NoDup (JS.Map_keys results)
  /\ forall key result,
       (key, result) ∈ results -> freshEventResult hass store query key result.
Proof.
  intros Hc Hget. apply returned_nonEmpty in Hget.
  assert (Ht : triple (fun _ => True) (eventsOutput hass store query engineOptions)
                 (fun output _ =>
                    entriesAre (freshEventResult hass store query) output /\ True)
                 (fun _ => True)).
  { unfold eventsOutput. apply triple_Promise_all; [|apply entriesAre_nil].
    apply Forall_fmap, Forall_true. intros instanceID output Hout. simpl.
    by apply processInstanceQuery_fresh. }
  specialize (Ht s I). rewrite Hget in Ht. by destruct Ht as [Ht _].
Qed.

Lemma processRecordingSegmentsQuery_result hass store engineOptions query cameraID output :
  cameraID ∈ segments_cameraIDs query ->
  entriesAre (segmentsResult hass store query) output ->
  triple (fun _ => True)
    (processRecordingSegmentsQuery hass store engineOptions query cameraID output)
    (fun output' _ => entriesAre (segmentsResult hass store query) output' /\ True)
    (fun _ => True).
Proof.
  intros Hin Hout s _. unfold processRecordingSegmentsQuery.
  destruct (namedCameraConfig store cameraID) as [[cameraConfig name]|] eqn:Hcfg; [|done].
  assert (Hfetch : forall s1 (k : list RecordingSegment -> Async unit),
    (forall segments s2, exists s3, k segments s2 = (Returned tt, s3)) ->
    match (let! segments :=
             Requests.getRecordingSegments hass
               {| segments_instance_id := client_id cameraConfig; camera := name;
                  after := segments_start (segments_with_cameraIDs query [cameraID]) / 1000;
                  before := segments_end (segments_with_cameraIDs query [cameraID]) / 1000 |} in
           k segments;;
           ret (JS.Map_set output (segments_with_cameraIDs query [cameraID])
                  {| segments_engine := Frigate;
                     segments_instanceID := client_id cameraConfig;
                     segments := segments; segments_cached := false |}))%async s1 with
    | (Returned output', _) => entriesAre (segmentsResult hass store query) output' /\ True
    | (Thrown _, _) => True
    end).
  { intros s1 k Hk.
    unfold Requests.getRecordingSegments, homeAssistantWSRequest, bind, modify. simpl.
    destruct (callWS hass _) as [response|] eqn:Hws; [|done].
    destruct response as [|segments| | |]; simpl; try done.
    match goal with |- context [k segments ?s2] => destruct (Hk segments s2) as (s3 & ->) end.
    split; [|done]. apply entriesAre_set; [done|].
    exists cameraID, cameraConfig, name. done. }
  destruct (useCacheOrDefault engineOptions).
  - unfold bind at 1, gets.
    destruct (RecordingSegmentsCache_get _ _ _) as [cachedSegments|].
    + simpl. split; [|done]. apply entriesAre_set; [done|].
      exists cameraID, cameraConfig, name. done.
    + apply Hfetch. intros segments s2. by eexists.
  - rewrite bind_ret. apply Hfetch. intros segments s2. by eexists.
Qed.

(** Every entry of the map [getRecordingSegments] returns is the result for
    one configured camera of the query: keyed by the query restricted to
    that camera and tagged with the instance of that camera; an entry that is
    not flagged as cached holds the segments the backend answered with for
    that camera and the bounds of the query in whole seconds.  No two entries
    have the same key. *)
Theorem getRecordingSegments_results (hass : HomeAssistant)
    (store : CameraManagerReadOnlyConfigStore) (query : RecordingSegmentsQuery)
    (engineOptions : option EngineOptions) (s s' : State)
    (results : RecordingSegmentsQueryResultsMap) :
  getRecordingSegments hass store query engineOptions s = (Returned (Some results), s') ->
  NoDup (JS.Map_keys results)
  /\ forall key result,
       (key, result) ∈ results -> segmentsResult hass store query key result.
Proof.
  intros Hget. apply returned_nonEmpty in Hget.
  assert (Ht : triple (fun _ => True)
                 (recordingSegmentsOutput hass store query engineOptions)
                 (fun output _ => entriesAre (segmentsResult hass store query) output /\ True)
                 (fun _ => True)).
  { unfold recordingSegmentsOutput. apply triple_Promise_all; [|apply entriesAre_nil].
    apply Forall_fmap, Forall_forall. intros cameraID Hin output Hout. simpl.
    by apply processRecordingSegmentsQuery_result. }
  specialize (Ht s I). rewrite Hget in Ht. by destruct Ht as [Ht _].
Qed.

(** *** A second segment query is served from the cache *)

Lemma coveredFor_spec cache cameraID range :
  coveredFor cache cameraID range <->
  exists ranges, cache_ranges cache !! cameraID = Some ranges
                 /\ Range.hasCoverage ranges range = true.
Proof.
  unfold coveredFor, RecordingSegmentsCache_get.
  destruct (_ !! _) as [ranges|].
  - destruct (Range.hasCoverage ranges range) eqn:Hcov.
    + split; [|done]. intros _. by exists ranges.
    + split; [by intros [? ?]|]. intros (r & [= <-] & ?). congruence.
  - split; [by intros [? ?]|]. by intros (r & ? & _).
Qed.

Lemma coveredFor_add_other cache cameraID' range' segments cameraID range :
  coveredFor cache cameraID range ->
  coveredFor (RecordingSegmentsCache_add cache cameraID' range' segments) cameraID range.
Proof.
  rewrite !coveredFor_spec. intros (ranges & Hr & Hcov).
  unfold RecordingSegmentsCache_add. simpl.
  destruct (decide (cameraID' = cameraID)) as [->|Hne].
  - eexists. split; [apply lookup_insert_eq|].
    unfold Range.MemoryRangeSet in *. rewrite Hr. simpl.
    apply RangeExtras.hasCoverage_spec in Hcov as (r & Hin & Hc).
    apply (RangeExtras.add_covers ranges range' r); [|done].
    apply elem_of_app. by left.
  - exists ranges. split; [by rewrite lookup_insert_ne|done].
Qed.

Lemma coveredFor_add cache cameraID range segments :
  coveredFor (RecordingSegmentsCache_add cache cameraID range segments) cameraID range.
Proof.
  rewrite coveredFor_spec. unfold RecordingSegmentsCache_add. simpl.
  eexists. split; [apply lookup_insert_eq|].
  apply (RangeExtras.add_covers _ _ range).
  - apply elem_of_app. right. by left.
  - unfold RangeNotions.contains. lia.
Qed.

Lemma processRecordingSegmentsQuery_run hass store engineOptions query cameraID output s :
  useCacheOrDefault engineOptions = true ->
  processRecordingSegmentsQuery hass store engineOptions query cameraID output s
  = match namedCameraConfig store cameraID with
    | None => (Returned output, s)
    | Some (cameraConfig, name) =>
        let key := segments_with_cameraIDs query [cameraID] in
        match RecordingSegmentsCache_get (_recordingSegmentsCache s) cameraID (rangeOf query) with
        | Some cachedSegments =>
            (Returned (JS.Map_set output key
               {| segments_engine := Frigate; segments_instanceID := client_id cameraConfig;
                  segments := cachedSegments; segments_cached := true |}), s)
        | None =>
            let request := recordings_get (nativeSegmentsQuery query cameraConfig name) in
            match callWS hass request with
            | Some (RecordingSegmentsPayload segments) =>
                (Returned (JS.Map_set output key
                   {| segments_engine := Frigate;
                      segments_instanceID := client_id cameraConfig;
                      segments := segments; segments_cached := false |}),
                 with_recordingSegmentsCache (fun cache =>
                   RecordingSegmentsCache_add cache cameraID (rangeOf query) segments)
                   (with_sent request s))
            | _ => (Thrown (HomeAssistantError request), with_sent request s)
            end
        end
    end.
Proof.
  intros Hc. unfold processRecordingSegmentsQuery. rewrite Hc.
  destruct (namedCameraConfig store cameraID) as [[cameraConfig name]|]; [|done].
  unfold bind at 1, gets. unfold rangeOf. simpl.
  destruct (RecordingSegmentsCache_get _ _ _) as [cachedSegments|]; [done|].
  unfold Requests.getRecordingSegments, homeAssistantWSRequest, bind, modify.
  unfold nativeSegmentsQuery. simpl.
  destruct (callWS hass _) as [response|]; [|done]. by destruct response.
Qed.

Lemma segments_first_call hass store engineOptions query cameraIDs output s output' s1 :
  useCacheOrDefault engineOptions = true ->
  Promise_all (processRecordingSegmentsQuery hass store engineOptions query <$> cameraIDs)
    output s = (Returned output', s1) ->
  (forall cameraID, coveredFor (_recordingSegmentsCache s) cameraID (rangeOf query) ->
                    coveredFor (_recordingSegmentsCache s1) cameraID (rangeOf query))
  /\ (forall cameraID, cameraID ∈ cameraIDs -> is_Some (namedCameraConfig store cameraID) ->
                       coveredFor (_recordingSegmentsCache s1) cameraID (rangeOf query))
  /\ JS.Map_keys output' = segmentKeys store query (JS.Map_keys output) cameraIDs.
Proof.
  intros Hc. revert output s.
  induction cameraIDs as [|cameraID cameraIDs IH]; intros output s Hrun.
  { injection Hrun as <- <-. split; [done|]. split; [|done]. by intros c ?%elem_of_nil. }
  rewrite fmap_cons in Hrun. cbn [Promise_all] in Hrun.
  rewrite (processRecordingSegmentsQuery_run _ _ _ _ _ _ _ Hc) in Hrun.
  cbn [segmentKeys foldl]. fold (segmentKeys store query).
  destruct (namedCameraConfig store cameraID) as [[cameraConfig name]|] eqn:Hcfg.
  - cbv zeta in Hrun.
    destruct (RecordingSegmentsCache_get (_recordingSegmentsCache s) cameraID (rangeOf query))
      as [cachedSegments|] eqn:Hcache.
    + destruct (IH _ _ Hrun) as (Hmono & Hest & Hkeys). split; [done|]. split.
      * intros c [->|Hin]%elem_of_cons Hsome; [|by apply Hest].
        apply Hmono. unfold coveredFor. by rewrite Hcache.
      * by rewrite Hkeys, Map_set_keys.
    + destruct (callWS hass _) as [response|]; [|done].
      destruct response as [|segments| | |]; try done.
      destruct (IH _ _ Hrun) as (Hmono & Hest & Hkeys). split; [|split].
      * intros c Hcov. apply Hmono. simpl. by apply coveredFor_add_other.
      * intros c [->|Hin]%elem_of_cons Hsome; [|by apply Hest].
        apply Hmono. simpl. apply coveredFor_add.
      * by rewrite Hkeys, Map_set_keys.
  - destruct (IH _ _ Hrun) as (Hmono & Hest & Hkeys). split; [done|]. split; [|done].
    intros c [->|Hin]%elem_of_cons Hsome; [|by apply Hest].
    rewrite Hcfg in Hsome. by destruct Hsome.
Qed.

Lemma segments_second_call hass store engineOptions query cameraIDs output s :
  useCacheOrDefault engineOptions = true ->
  (forall cameraID, cameraID ∈ cameraIDs -> is_Some (namedCameraConfig store cameraID) ->
                    coveredFor (_recordingSegmentsCache s) cameraID (rangeOf query)) ->
  exists output',
    Promise_all (processRecordingSegmentsQuery hass store engineOptions query <$> cameraIDs)
      output s = (Returned output', s)
    /\ JS.Map_keys output' = segmentKeys store query (JS.Map_keys output) cameraIDs
    /\ forall entry, entry ∈ output' -> entry ∈ output \/ segments_cached entry.2 = true.
Proof.
  intros Hc. revert output.
  induction cameraIDs as [|cameraID cameraIDs IH]; intros output Hcov.
  { exists output. split; [done|]. split; [done|]. by left. }
  rewrite fmap_cons. cbn [Promise_all].
  rewrite (processRecordingSegmentsQuery_run _ _ _ _ _ _ _ Hc).
  cbn [segmentKeys foldl]. fold (segmentKeys store query).
  assert (Hrest : forall c, c ∈ cameraIDs -> is_Some (namedCameraConfig store c) ->
                    coveredFor (_recordingSegmentsCache s) c (rangeOf query)).
  { intros c Hin. apply Hcov. by right. }
  destruct (namedCameraConfig store cameraID) as [[cameraConfig name]|] eqn:Hcfg.
  - cbv zeta.
    destruct (Hcov cameraID) as [cachedSegments Hcache]; [by left|by rewrite Hcfg|].
    rewrite Hcache.
    destruct (IH (JS.Map_set output (segments_with_cameraIDs query [cameraID])
                    {| segments_engine := Frigate;
                       segments_instanceID := client_id cameraConfig;
                       segments := cachedSegments; segments_cached := true |}) Hrest)
      as (output' & Hrun & Hkeys & Hentries).
    exists output'. split; [done|]. split; [by rewrite Hkeys, Map_set_keys|].
    intros entry Hin. destruct (Hentries entry Hin) as [Hold|?]; [|by right].
    apply Map_set_entries in Hold as [?| ->]; [by left|by right].
  - destruct (IH output Hrest) as (output' & Hrun & Hkeys & Hentries).
    exists output'. done.
Qed.

(** When the cache is used and a call of [getRecordingSegments] has
    returned, the same call again, in the state the first call left, sends no
    message and changes nothing; it returns null exactly if the first call
    did, and otherwise a map whose keys are those of the first map, in some
    order, and in which every result is flagged as cached. *)
Theorem getRecordingSegments_again_from_cache (hass : HomeAssistant)
    (store : CameraManagerReadOnlyConfigStore) (query : RecordingSegmentsQuery)
    (engineOptions : option EngineOptions) (s s1 : State)
    (first : option RecordingSegmentsQueryResultsMap) :
  useCacheOrDefault engineOptions = true ->
  getRecordingSegments hass store query engineOptions s = (Returned first, s1) ->
  exists again,
    getRecordingSegments hass store query engineOptions s1 = (Returned again, s1)
    /\ (again = None <-> first = None)
    /\ (forall earlier later,
          first = Some earlier -> again = Some later ->
          JS.Map_keys later ≡ₚ JS.Map_keys earlier)
    /\ forall results key result,
         again = Some results -> (key, result) ∈ results -> segments_cached result = true.
Proof.
  intros Hc Hfirst.
  apply bind_returned in Hfirst as (output & s' & Hrun & Hret). injection Hret as <- <-.
  unfold recordingSegmentsOutput in Hrun.
  destruct (segments_first_call _ _ _ _ _ _ _ _ _ Hc Hrun) as (_ & Hest & Hkeys).
  destruct (segments_second_call hass store engineOptions query (segments_cameraIDs query)
              [] s' Hc Hest) as (output' & Hrun' & Hkeys' & Hentries).
  rewrite <- Hkeys in Hkeys'.
  exists (JS.nonEmptyOrNull output'). split; [|split; [|split]].
  - apply (proj1 (nullIffEmpty_bind
                    (recordingSegmentsOutput hass store query engineOptions))).
    exact Hrun'.
  - by destruct output as [|e output], output' as [|e' output'].
  - intros earlier later [<- _]%nonEmptyOrNull_Some [<- _]%nonEmptyOrNull_Some.
    by rewrite Hkeys'.
  - intros results key result [-> _]%nonEmptyOrNull_Some Hin.
    destruct (Hentries _ Hin) as [[]%elem_of_nil|?]. done.
Qed.

(** *** Where the metadata comes from *)

Lemma addAll_elem xs (s : gset string) x : x ∈ addAll xs s <-> x ∈ xs \/ x ∈ s.
Proof.
  unfold addAll. revert s. induction xs as [|y xs IH]; intros s; simpl.
  - split; [by right|]. intros [Hx|Hx]; [by apply elem_of_nil in Hx|done].
  - rewrite IH, elem_of_cons, elem_of_union, elem_of_singleton. tauto.
Qed.

Lemma request_payload {T} s0 hass (schema : WSResponse -> option T) request :
  triple (sameCaches s0) (homeAssistantWSRequest hass schema request)
    (fun payload s =>
       (exists response, callWS hass request = Some response
                         /\ schema response = Some payload)
       /\ sameCaches s0 s)
    (sameCaches s0).
Proof.
  intros s Hs. unfold homeAssistantWSRequest, bind, modify. simpl.
  destruct (callWS hass request) as [response|]; [|done].
  destruct (schema response) as [payload|] eqn:Hp; [|done].
  simpl. split; [by exists response|done].
Qed.

Lemma addEventSummaryEntry_from hass store cameraIDs cameraNames sets entry :
  (summary_camera entry ∈ cameraNames -> summaryEntryOf hass store cameraIDs entry) ->
  fromSummaries hass store cameraIDs (set_what sets) (set_where sets) (set_tags sets) ->
  let sets' := addEventSummaryEntry cameraNames sets entry in
  fromSummaries hass store cameraIDs (set_what sets') (set_where sets') (set_tags sets').
Proof.
  intros Hentry (Hwhat & Hwhere & Htags). unfold addEventSummaryEntry, JS.Set_has.
  destruct (bool_decide (summary_camera entry ∈ cameraNames)) eqn:Hin; simpl; [|done].
  apply bool_decide_eq_true in Hin. specialize (Hentry Hin).
  split; [|split].
  - intros label Hl. destruct (JS.truthy (summary_label entry)) eqn:Ht; [|by apply Hwhat].
    apply elem_of_union in Hl as [Hl|Hl]; [|by apply Hwhat].
    apply elem_of_singleton in Hl as ->. split; [|by exists entry].
    intros He. rewrite He in Ht. done.
  - intros zone Hz. apply addAll_elem in Hz as [Hz|Hz]; [by exists entry|by apply Hwhere].
  - intros tag Ht. destruct (summary_sub_label entry) as [sub_label|] eqn:Hs; [|by apply Htags].
    destruct (JS.truthy sub_label); [|by apply Htags].
    apply addAll_elem in Ht as [Ht|Ht]; [by exists entry, sub_label|by apply Htags].
Qed.

Lemma foldl_addEventSummaryEntry_from hass store cameraIDs cameraNames summary sets :
  (forall entry, entry ∈ summary -> summary_camera entry ∈ cameraNames ->
                 summaryEntryOf hass store cameraIDs entry) ->
  fromSummaries hass store cameraIDs (set_what sets) (set_where sets) (set_tags sets) ->
  let sets' := foldl (addEventSummaryEntry cameraNames) sets summary in
  fromSummaries hass store cameraIDs (set_what sets') (set_where sets') (set_tags sets').
Proof.
  revert sets. induction summary as [|entry summary IH]; intros sets Hs Hsets; [done|].
  simpl. apply IH.
  - intros e He. apply Hs. by right.
  - apply addEventSummaryEntry_from; [|done]. apply Hs. by left.
Qed.

Lemma foldl_addRecordingDays sets results :
  let sets' := foldl addRecordingDays sets results in
  set_what sets' = set_what sets /\ set_where sets' = set_where sets
  /\ set_tags sets' = set_tags sets.
Proof.
  revert sets. induction results as [|result results IH]; intros sets; [done|].
  simpl. destruct (IH (addRecordingDays sets result)) as (-> & -> & ->).
  unfold addRecordingDays. by destruct (isFrigateRecordingQueryResults result).
Qed.

Lemma ifNonEmpty_absentOrNonEmpty (s : gset string) : absentOrNonEmpty (ifNonEmpty s).
Proof.
  unfold absentOrNonEmpty, ifNonEmpty. destruct (bool_decide (size s = 0%nat)) eqn:Hs; [done|].
  apply bool_decide_eq_false in Hs. intros [= ->]. by apply Hs.
Qed.

Lemma ifNonEmpty_default (s : gset string) : default ∅ (ifNonEmpty s) = s.
Proof.
  unfold ifNonEmpty. destruct (bool_decide (size s = 0%nat)) eqn:Hs; [|done].
  apply bool_decide_eq_true in Hs. simpl. symmetry. by apply size_empty_inv, leibniz_equiv in Hs.
Qed.

(** When the cache is not used and [getMediaMetadata] returns, it returns a
    map and not null, with one entry: the query of the caller with a result
    that is not flagged as cached.  No field of the metadata holds an empty
    set.
    Every label of [what], every zone of [where] and every tag of [tags]
    comes from an entry of the event summary that an instance of the query
    answered with and that names a configured camera of that instance:
    entries of other cameras of the backend leave no trace, no label is
    empty, and a tag is one of the labels [_splitSubLabels] makes of the sub
    label of such an entry. *)
Theorem getMediaMetadata_fresh_result (hass : HomeAssistant)
    (store : CameraManagerReadOnlyConfigStore) (query : MediaMetadataQuery)
    (engineOptions : option EngineOptions) (s s' : State)
    (results : option MediaMetadataQueryResultsMap) :
  useCacheOrDefault engineOptions = false ->
  getMediaMetadata hass store query engineOptions s = (Returned results, s') ->
  exists metadata expiry,
    results = Some [(query, MediaMetadataQueryResults Frigate metadata expiry false)]
    /\ Forall absentOrNonEmpty
         [metadata_what metadata; metadata_where metadata;
          metadata_days metadata; metadata_tags metadata]
    /\ fromSummaries hass store (metadata_cameraIDs query)
         (default ∅ (metadata_what metadata)) (default ∅ (metadata_where metadata))
         (default ∅ (metadata_tags metadata)).
Proof.
  intros Hc Hrun.
  set (I := fun sets => fromSummaries hass store (metadata_cameraIDs query)
                          (set_what sets) (set_where sets) (set_tags sets)).
  pose proof (buildInstanceMap_partitions store (metadata_cameraIDs query)) as [[Hnd _] _].
  assert (Hs : sameCaches s s) by done.
  revert Hrun. unfold getMediaMetadata. rewrite Hc. rewrite bind_ret.
  set (branches := _ <$> _). intros Hrun.
  assert (Hb : triple (sameCaches s)
                 (Promise_all branches
                    {| set_what := ∅; set_where := ∅; set_days := ∅; set_tags := ∅ |})
                 (fun sets s1 => I sets /\ sameCaches s s1) (sameCaches s)).
  { apply triple_Promise_all;
      [|unfold I, fromSummaries; simpl; (split; [|split]); intros ? Hx; by apply elem_of_empty in Hx].
    apply Forall_fmap, Forall_forall. intros [instanceID cameras] Hin sets Hsets.
    unfold compose. cbv beta iota.
    apply triple_Promise_all; [|done]. repeat constructor.
    - intros sets' Hsets'. unfold processEventSummary, Requests.getEventSummary.
      eapply triple_bind; [apply request_payload|].
      intros summary. apply triple_ret. intros s1 [(response & Hcall & Hschema) Hs1].
      split; [|done]. apply foldl_addEventSummaryEntry_from; [|done].
      intros entry Hentry Hcamera. exists instanceID, cameras, summary.
      split; [by apply Map_get_entry|]. split; [|done].
      destruct response; try done. simpl in Hschema. by injection Hschema as ->.
    - intros sets' Hsets'. unfold processRecordings.
      eapply triple_bind with (Q1 := fun _ => sameCaches s);
        [by apply getRecordings_sameCaches|].
      intros [recordings|]; apply triple_ret; intros s1 Hs1; (split; [|done]); [|done].
      unfold I. by destruct (foldl_addRecordingDays sets' (JS.Map_values recordings))
        as (-> & -> & ->). }
  specialize (Hb s Hs). unfold bind in Hrun.
  destruct (Promise_all branches _ s) as [[sets|e] s1]; [|done].
  destruct Hb as [Hsets _]. simpl in Hrun. injection Hrun as <- <-.
  eexists _, _. split; [done|]. simpl. split.
  - repeat constructor; apply ifNonEmpty_absentOrNonEmpty.
  - by rewrite !ifNonEmpty_default.
Qed.

(** *** The outcomes of a seek *)

(** [getMediaSeekTime] sends nothing, or the one segments request for the
    camera and the bounds of the media.  If it throws, it throws the error of
    the transport for that request: the first result of the map it reads is
    always there, since a map that is not null has an entry.  For a media
    without start or end, or a target outside the media, it returns null and
    changes nothing. *)
Theorem getMediaSeekTime_outcomes (hass : HomeAssistant)
    (store : CameraManagerReadOnlyConfigStore) (media : ViewMedia) (target : Date)
    (engineOptions : option EngineOptions) (s : State) :
  let run := getMediaSeekTime hass store media target engineOptions s in
  (sent (snd run) = sent s
   \/ exists request,
        segmentsRequestFor store media request /\ sent (snd run) = sent s ++ [request])
  /\ (forall e, fst run = Thrown e ->
        exists request,
          segmentsRequestFor store media request
          /\ e = HomeAssistantError request
          /\ sent (snd run) = sent s ++ [request])
  /\ (outsideMedia media target -> run = (Returned None, s)).
Proof.
  unfold getMediaSeekTime, outsideMedia.
  destruct (getStartTime media) as [start|] eqn:Hstart; [|by repeat split; auto].
  destruct (getEndTime media) as [end_|] eqn:Hend; [|by repeat split; auto].
  destruct ((target <? start) || (end_ <? target)) eqn:Hout; [by repeat split; auto|].
  apply orb_false_iff in Hout as [?%Z.ltb_ge ?%Z.ltb_ge].
  unfold getRecordingSegments, recordingSegmentsOutput, processRecordingSegmentsQuery.
  simpl segments_cameraIDs. rewrite fmap_cons, fmap_nil. cbn [Promise_all].
  destruct (namedCameraConfig store (getCameraID media)) as [[cameraConfig name]|] eqn:Hcfg;
    [|simpl; split; [by left|split; [done|lia]]].
  pose (request := recordings_get
                     {| segments_instance_id := client_id cameraConfig; camera := name;
                        after := start / 1000; before := end_ / 1000 |}).
  assert (Hrequest : segmentsRequestFor store media request)
    by (by exists cameraConfig, name, start, end_).
  unfold bind, Requests.getRecordingSegments, homeAssistantWSRequest, bind, modify, gets.
  simpl.
  destruct (useCacheOrDefault engineOptions); simpl.
  - destruct (RecordingSegmentsCache_get _ _ _) as [cached|]; simpl;
      [split; [by left|split; [done|lia]]|].
    change (callWS hass _) with (callWS hass request).
    destruct (callWS hass request) as [response|]; simpl.
    + destruct (Requests.recordingSegmentsSchema response) as [segments|]; simpl.
      * split; [right; by exists request|]. split; [done|lia].
      * split; [right; by exists request|]. split; [|lia].
        intros e [= <-]. by exists request.
    + split; [right; by exists request|]. split; [|lia].
      intros e [= <-]. by exists request.
  - change (callWS hass _) with (callWS hass request).
    destruct (callWS hass request) as [response|]; simpl.
    + destruct (Requests.recordingSegmentsSchema response) as [segments|]; simpl.
      * split; [right; by exists request|]. split; [done|lia].
      * split; [right; by exists request|]. split; [|lia].
        intros e [= <-]. by exists request.
    + split; [right; by exists request|]. split; [|lia].
      intros e [= <-]. by exists request.
Qed.

End WithExternals.
End EngineExtras.

(** ** More of the engine at the concrete installation *)

Module ExtraScenarios.
Import Types Cache Async AsyncFacts FrigateCameraManagerEngine EngineNotions EngineFacts
  EngineExtras Installation.

#[local] Existing Instance externals.

Lemma seek_time_within_window_witness :
  T0 * 1000 <= (T0 + 2300) * 1000
  /\ Forall (reachesMedia (T0 * 1000)) seekSegments
  /\ StronglySorted EngineNotions.precedes seekSegments
  /\ _getSeekTimeInSegments (T0 * 1000) ((T0 + 2300) * 1000) seekSegments
     = Some (1500000 # 1000)%Q
  /\ (0 <= 1500000 # 1000)%Q /\ (1500000 # 1000 <= ((T0 + 2300) * 1000 - T0 * 1000) # 1000)%Q.
Proof.
  assert (H1 : T0 * 1000 <= (T0 + 2300) * 1000) by (vm_compute; discriminate).
  assert (H2 : Forall (reachesMedia (T0 * 1000)) seekSegments).
  { repeat constructor; vm_compute; discriminate. }
  assert (H3 : StronglySorted EngineNotions.precedes seekSegments).
  { repeat constructor; vm_compute; discriminate. }
  assert (H4 : _getSeekTimeInSegments (T0 * 1000) ((T0 + 2300) * 1000) seekSegments
               = Some (1500000 # 1000)%Q) by reflexivity.
  split; [exact H1|]. split; [exact H2|]. split; [exact H3|]. split; [exact H4|].
  exact (seek_time_within_window _ _ _ _ H1 H2 H3 H4).
Defined.

Lemma uncached_calls_leave_caches_witness :
  useCacheOrDefault (Some {| useCache := Some false |}) = false
  /\ EngineNotions.sameCaches (cachedHours 0)
       (snd (getRecordingSegments (hass true [])  store
               {| segments_cameraIDs := ["front"; "back"]; segments_start := midnight;
                  segments_end := midnight + MS_PER_HOUR |}
               (Some {| useCache := Some false |}) (cachedHours 0))).
Proof.
  assert (H : useCacheOrDefault (Some {| useCache := Some false |}) = false) by reflexivity.
  split; [exact H|].
  exact (proj1 (proj2 (proj2 (uncached_calls_leave_caches (hass true []) store
           (Some {| useCache := Some false |}) (eventQuery [])
           (recordingQuery [] None)
           {| segments_cameraIDs := ["front"; "back"]; segments_start := midnight;
              segments_end := midnight + MS_PER_HOUR |}
           {| metadata_cameraIDs := [] |} personClip 0 (cachedHours 0) H)))).
Defined.

Lemma getRecordings_fresh_results_witness :
  let options := Some {| useCache := Some false |} in
  let query := recordingQuery ["front"; "overview"] (Some 2) in
  let run := getRecordings (hass true [1; 2; 3; 4; 5]) store query options (emptyCaches 0) in
  let results :=
    [(recordingQuery ["front"] (Some 2),
      RecordingQueryResults Frigate "frigate1"
        [{| cameraID := "front"; startTime := midnight + 5 * MS_PER_HOUR;
            endTime := midnight + 6 * MS_PER_HOUR - 1; events := 0 |};
         {| cameraID := "front"; startTime := midnight + 4 * MS_PER_HOUR;
            endTime := midnight + 5 * MS_PER_HOUR - 1; events := 0 |}]
        60000 false)] in
  useCacheOrDefault options = false
  /\ run = (Returned (Some results), snd run)
  /\ NoDup (JS.Map_keys results).
Proof.
  intros options query run results.
  assert (H1 : useCacheOrDefault options = false) by reflexivity.
  assert (H2 : getRecordings (hass true [1; 2; 3; 4; 5]) store query options (emptyCaches 0)
               = (Returned (Some results), snd run)) by (vm_compute; reflexivity).
  split; [exact H1|]. split; [exact H2|].
  exact (proj1 (getRecordings_fresh_results _ _ _ _ _ _ _ H1 H2)).
Defined.

Lemma getEvents_fresh_results_witness :
  let options := Some {| useCache := Some false |} in
  let query := eventQuery ["front"; "back"] in
  let run := getEvents (hass true []) store query options (emptyCaches 0) in
  let results :=
    [(eventQuery ["front"], EventQueryResults Frigate "frigate1" [person] 60000 false);
     (eventQuery ["back"], EventQueryResults Frigate "frigate2" [person] 60000 false)] in
  useCacheOrDefault options = false
  /\ run = (Returned (Some results), snd run)
  /\ NoDup (JS.Map_keys results).
Proof.
  intros options query run results.
  assert (H1 : useCacheOrDefault options = false) by reflexivity.
  assert (H2 : getEvents (hass true []) store query options (emptyCaches 0)
               = (Returned (Some results), snd run)) by (vm_compute; reflexivity).
  split; [exact H1|]. split; [exact H2|].
  exact (proj1 (getEvents_fresh_results _ _ _ _ _ _ _ H1 H2)).
Defined.

Lemma getRecordingSegments_results_witness :
  let query :=
    {| segments_cameraIDs := ["front"; "overview"]; segments_start := midnight + 7 * MS_PER_HOUR;
       segments_end := midnight + 8 * MS_PER_HOUR |} in
  let run := getRecordingSegments (hass true []) store query None (cachedHours 0) in
  let results :=
    [({| segments_cameraIDs := ["front"]; segments_start := midnight + 7 * MS_PER_HOUR;
         segments_end := midnight + 8 * MS_PER_HOUR |},
      {| segments_engine := Frigate; segments_instanceID := "frigate1";
         segments := [segmentAt "s" 2 0]; segments_cached := false |})] in
  run = (Returned (Some results), snd run)
  /\ NoDup (JS.Map_keys results).
Proof.
  intros query run results.
  assert (H2 : getRecordingSegments (hass true []) store query None (cachedHours 0)
               = (Returned (Some results), snd run)) by (vm_compute; reflexivity).
  split; [exact H2|].
  exact (proj1 (getRecordingSegments_results _ _ _ _ _ _ _ H2)).
Defined.

Lemma getRecordingSegments_again_from_cache_witness :
  let query :=
    {| segments_cameraIDs := ["front"; "overview"; "back"];
       segments_start := midnight + 7 * MS_PER_HOUR;
       segments_end := midnight + 8 * MS_PER_HOUR |} in
  let run := getRecordingSegments (hass true []) store query None (cachedHours 0) in
  useCacheOrDefault None = true
  /\ (exists first, run = (Returned first, snd run))
  /\ sent (snd (getRecordingSegments (hass true []) store query None (snd run)))
     = sent (snd run).
Proof.
  intros query run.
  assert (H1 : useCacheOrDefault None = true) by reflexivity.
  assert (H2 : exists first,
            getRecordingSegments (hass true []) store query None (cachedHours 0)
            = (Returned first, snd run)).
  { eexists. vm_compute. reflexivity. }
  split; [exact H1|]. split; [exact H2|].
  destruct H2 as [first H2].
  destruct (getRecordingSegments_again_from_cache _ _ _ _ _ _ _ H1 H2) as (again & -> & _).
  reflexivity.
Defined.

Lemma getMediaMetadata_fresh_result_witness :
  let options := Some {| useCache := Some false |} in
  let query := {| metadata_cameraIDs := ["front"; "back"] |} in
  let run :=
    getMediaMetadata InstallationMore.hassWithSummary store query options (emptyCaches 0) in
  let metadata :=
    {| metadata_what := Some {["person"]}; metadata_where := Some {["porch"]};
       metadata_days := Some {["2023-11-14"]};
       metadata_tags := Some ({["alice"]} ∪ {["bob"]}) |} in
  useCacheOrDefault options = false
  /\ run = (Returned (Some [(query, MediaMetadataQueryResults Frigate metadata 60000 false)]),
            snd run)
  /\ EngineNotions.fromSummaries InstallationMore.hassWithSummary store ["front"; "back"]
       {["person"]} {["porch"]} ({["alice"]} ∪ {["bob"]}).
Proof.
  intros options query run metadata.
  assert (H1 : useCacheOrDefault options = false) by reflexivity.
  assert (H2 : getMediaMetadata InstallationMore.hassWithSummary store query options
                 (emptyCaches 0)
               = (Returned (Some [(query, MediaMetadataQueryResults Frigate metadata 60000
                                            false)]),
                  snd run)) by (vm_compute; reflexivity).
  split; [exact H1|]. split; [exact H2|].
  destruct (getMediaMetadata_fresh_result _ _ _ _ _ _ _ H1 H2)
    as (found & expiry & Hfound & _ & Hfrom).
  injection Hfound as <- _. exact Hfrom.
Defined.

(** White space that is not ASCII is trimmed as well. *)
Example splitSubLabels_unicode_space :
  _splitSubLabels ("alice" +:+ InstallationMore.noBreakSpace +:+ ", "
                   +:+ InstallationMore.lineSeparator +:+ "bob the builder ")
  = ["alice"; "bob the builder"].
Proof. reflexivity. Qed.

End ExtraScenarios.
